(** * emonhub: the interfacer (transport reader) subsystem

    A shallow embedding of [src/emonhub_interfacer.py]: the base class
    [EmonHubInterfacer] and its serial, "Jee" radio, socket and TWI (I2C)
    subclasses.  Python values are modelled by the small universe the code
    really manipulates (strings, integers, lists of strings, floats read
    as exact rationals); an interfacer object is a record; methods are
    computations in a state-and-exception monad over that record; the
    logger, the shared queue and the serial output are lists inside it;
    everything the operating system supplies (clock readings, serial
    lines, socket data, bus transfers) is an argument.  The settings
    file of the hub, [src/emonhub_interface.py], follows in the module
    [Interface]. *)

From Stdlib Require Import ZArith QArith Ascii String List Lia Permutation.
From stdpp Require Import gmap strings list fin_maps pretty.

Local Open Scope string_scope.
Local Open Scope Z_scope.

(** ** Python primitives *)

Module Py.

(** The exceptions the modelled code can raise. *)
Inductive exn : Set :=
| ValueError | TypeError | KeyError | IndexError
| ZeroDivisionError | UnboundLocalError.

Inductive result (A : Type) : Type :=
| Ret (a : A)
| Raise (e : exn).
Global Arguments Ret {A} a.
Global Arguments Raise {A} e.

Global Instance result_ret : MRet result := λ A a, Ret a.
Global Instance result_bind : MBind result := λ A B k r,
  match r with
  | Ret a => k a
  | Raise e => Raise e
  end.

(** A Python float, read exactly: the finite ones as rationals.  Binary64
    rounding is not modelled (it changes nothing for literals of at most
    15 significant digits and moderate exponent). *)
Inductive pyfloat : Type :=
| Ffin (q : Q)
| Finf (negative : bool)
| Fnan.

(** The numbers found in a decoded frame. *)
Inductive pynum : Type :=
| NInt (z : Z)
| NFloat (x : pyfloat).

(** Setting values: ConfigObj delivers strings and lists of strings, the
    class defaults contain integers. *)
Inductive pyval : Type :=
| PStr (s : string)
| PInt (z : Z)
| PList (l : list string).

Global Instance pyval_eq_dec : EqDecision pyval.
Proof. solve_decision. Defined.

(** [a == b] on this universe. *)
Definition py_eq (a b : pyval) : bool := bool_decide (a = b).

(** *** str methods *)

Fixpoint lstrip (s : string) : string :=
  match s with
  | String c s' => if Ascii.is_space c then lstrip s' else s
  | EmptyString => EmptyString
  end.

Definition rstrip (s : string) : string := String.rev (lstrip (String.rev s)).

(** [s.strip()] *)
Definition strip (s : string) : string := rstrip (lstrip s).

Fixpoint starts_with (p s : string) : bool :=
  match p, s with
  | EmptyString, _ => true
  | String a p', String b s' => bool_decide (a = b) && starts_with p' s'
  | String _ _, EmptyString => false
  end.

(** [s.find(sub)]: index of the first occurrence. *)
Fixpoint str_find (sub s : string) : option nat :=
  if starts_with sub s then Some O
  else match s with
       | EmptyString => None
       | String _ s' => S <$> str_find sub s'
       end.

(** [sub in s] *)
Definition contains (sub s : string) : bool := bool_decide (is_Some (str_find sub s)).

Fixpoint str_take (n : nat) (s : string) : string :=
  match n, s with
  | S n', String c s' => String c (str_take n' s')
  | _, _ => EmptyString
  end.

Fixpoint str_drop (n : nat) (s : string) : string :=
  match n, s with
  | S n', String _ s' => str_drop n' s'
  | _, _ => s
  end.

(** [s[:-k]] for a positive literal [k]. *)
Definition drop_last (k : nat) (s : string) : string :=
  str_take (String.length s - k) s.

(** [s[0]] and [s[-1]] *)
Definition first_char (s : string) : result ascii :=
  match s with
  | String c _ => Ret c
  | EmptyString => Raise IndexError
  end.

Definition last_char (s : string) : result ascii := first_char (String.rev s).

(** [s.split(sep, 1)]: [None] stands for the one-element list [[s]]. *)
Definition split1 (sep s : string) : option (string * string) :=
  i ← str_find sep s; Some (str_take i s, str_drop (i + String.length sep) s).

(** [s.split(' ')]: every single separator splits, empty pieces are kept. *)
Fixpoint split_char (sep : ascii) (s : string) : list string :=
  match s with
  | EmptyString => [EmptyString]
  | String c s' =>
      if bool_decide (c = sep) then EmptyString :: split_char sep s'
      else match split_char sep s' with
           | w :: ws => String c w :: ws
           | [] => [String c EmptyString]
           end
  end.

(** [sep.join(l)] *)
Fixpoint join (sep : string) (l : list string) : string :=
  match l with
  | [] => EmptyString
  | [w] => w
  | w :: ws => w +:+ sep +:+ join sep ws
  end.

Definition lower_char (c : ascii) : ascii :=
  let n := nat_of_ascii c in
  if ((65 <=? n) && (n <=? 90))%nat then ascii_of_nat (n + 32) else c.

Definition upper_char (c : ascii) : ascii :=
  let n := nat_of_ascii c in
  if ((97 <=? n) && (n <=? 122))%nat then ascii_of_nat (n - 32) else c.

Fixpoint lower (s : string) : string :=
  match s with
  | EmptyString => EmptyString
  | String c s' => String (lower_char c) (lower s')
  end.

(** [str.capitalize(s)] *)
Definition capitalize (s : string) : string :=
  match s with
  | EmptyString => EmptyString
  | String c s' => String (upper_char c) (lower s')
  end.

Fixpoint all_digits (s : string) : bool :=
  match s with
  | EmptyString => true
  | String c s' => bool_decide (is_Some (Ascii.is_nat c)) && all_digits s'
  end.

(** [s.isdigit()] *)
Definition isdigit (s : string) : bool :=
  negb (bool_decide (s = EmptyString)) && all_digits s.

(** The characters of a string, as [for c in s] sees them. *)
Fixpoint chars (s : string) : list string :=
  match s with
  | EmptyString => []
  | String c s' => String c EmptyString :: chars s'
  end.

(** *** int() and float() on strings *)

(** Value of a run of decimal digits, most significant first. *)
Fixpoint digits_value (acc : Z) (s : string) : option Z :=
  match s with
  | EmptyString => Some acc
  | String c s' =>
      match Ascii.is_nat c with
      | Some d => digits_value (10 * acc + Z.of_nat d) s'
      | None => None
      end
  end.

Definition unsigned_literal (s : string) : option Z :=
  if isdigit s then digits_value 0 s else None.

(** An optional sign, then the rest. *)
Definition split_sign (s : string) : bool * string :=
  match s with
  | String "-" s' => (true, s')
  | String "+" s' => (false, s')
  | _ => (false, s)
  end.

Definition signed_literal (s : string) : option Z :=
  let '(neg, body) := split_sign s in
  n ← unsigned_literal body; Some (if neg then - n else n).

(** [int(s)] for a string: surrounding white space, an optional sign,
    decimal digits. *)
Definition int_of_string (s : string) : option Z := signed_literal (strip s).

(** The longest prefix of digits and what follows it. *)
Fixpoint span_digits (s : string) : string * string :=
  match s with
  | String c s' =>
      if bool_decide (is_Some (Ascii.is_nat c))
      then let '(d, r) := span_digits s' in (String c d, r)
      else (EmptyString, s)
  | EmptyString => (EmptyString, EmptyString)
  end.

(** The exponent part of a float literal: empty, or [e]/[E] and a signed
    integer. *)
Definition exponent_part (s : string) : option Z :=
  match s with
  | EmptyString => Some 0
  | String c s' =>
      if bool_decide (lower_char c = "e"%char) then signed_literal s' else None
  end.

Definition decimal_value (m k : Z) : Q :=
  if 0 <=? k then Qmake (m * 10 ^ k) 1
  else Qred (Qmake m (Z.to_pos (10 ^ (- k)))).

(** A decimal float literal without sign: digits, an optional point and
    more digits (one digit at least), an optional exponent. *)
Definition decimal_literal (s : string) : option Q :=
  let '(ip, r1) := span_digits s in
  let '(fp, r2) :=
    match r1 with
    | String "." r => span_digits r
    | _ => (EmptyString, r1)
    end in
  if bool_decide (ip +:+ fp = EmptyString) then None
  else
    m ← digits_value 0 (ip +:+ fp);
    e ← exponent_part r2;
    Some (decimal_value m (e - Z.of_nat (String.length fp))).

(** [float(s)] for a string. *)
Definition float_of_string (s : string) : option pyfloat :=
  let '(neg, body) := split_sign (strip s) in
  let word := lower body in
  if bool_decide (word = "inf") || bool_decide (word = "infinity")
  then Some (Finf neg)
  else if bool_decide (word = "nan") then Some Fnan
  else q ← decimal_literal body; Some (Ffin (if neg then Qopp q else q)).

(** [x % 1 != 0] on a float: false exactly on the finite integers
    ([inf % 1] and [nan % 1] are [nan]). *)
Definition has_fraction (x : pyfloat) : bool :=
  match x with
  | Ffin q => negb (Pos.eqb (Qden (Qred q)) 1)
  | Finf _ | Fnan => true
  end.

(** [int(x)] on a float without fractional part. *)
Definition int_of_whole (x : pyfloat) : Z :=
  match x with
  | Ffin q => Qnum (Qred q)
  | Finf _ | Fnan => 0
  end.

(** [not x] on a float. *)
Definition float_is_zero (x : pyfloat) : bool :=
  match x with
  | Ffin q => Qeq_bool q 0
  | Finf _ | Fnan => false
  end.

(** *** Built-ins on setting values *)

(** [repr] of a list of strings, without the escaping of quotes. *)
Definition repr_list (l : list string) : string :=
  "[" +:+ join ", " ((fun s => "'" +:+ s +:+ "'") <$> l) +:+ "]".

(** [str(v)] *)
Definition str (v : pyval) : string :=
  match v with
  | PStr s => s
  | PInt z => pretty z
  | PList l => repr_list l
  end.

(** [int(v)] *)
Definition int (v : pyval) : result Z :=
  match v with
  | PStr s => match int_of_string s with Some z => Ret z | None => Raise ValueError end
  | PInt z => Ret z
  | PList _ => Raise TypeError
  end.

(** Truth value of [v]. *)
Definition truthy (v : pyval) : bool :=
  match v with
  | PStr s => negb (bool_decide (s = EmptyString))
  | PInt z => negb (z =? 0)
  | PList l => negb (bool_decide (l = []))
  end.

(** The items [for i in v] runs over. *)
Definition iter (v : pyval) : result (list pyval) :=
  match v with
  | PStr s => Ret (PStr <$> chars s)
  | PList l => Ret (PStr <$> l)
  | PInt _ => Raise TypeError
  end.

(** [str.lower(v)]: a method of [str] applied to another type raises. *)
Definition str_lower (v : pyval) : result string :=
  match v with
  | PStr s => Ret (lower s)
  | _ => Raise TypeError
  end.

(** [l[-1]] and [l[:-1]] on a list. *)
Definition last_item {A} (l : list A) : result A :=
  match last l with
  | Some x => Ret x
  | None => Raise IndexError
  end.

Definition init_items {A} (l : list A) : list A := List.removelast l.

(** [l[0]] *)
Definition first_item {A} (l : list A) : result A :=
  match l with
  | x :: _ => Ret x
  | [] => Raise IndexError
  end.

(** [v + s] for a string literal [s]. *)
Definition concat (v : pyval) (s : string) : result string :=
  match v with
  | PStr a => Ret (a +:+ s)
  | _ => Raise TypeError
  end.

(** The two-character line delimiter, CR LF. *)
Definition CRLF : string := String "013"%char (String "010"%char EmptyString).

End Py.
Export Py.

(** ** The codec module [emonhub_coder] (imported as [ehc])

    Its source is not part of the files modelled here: the interfacer
    only queries it.  The functions below take it as a record. *)

Module ehc.

(** An entry of [ehc.nodelist]: the optional ['datacode'] and
    ['datacodes'] items of a node (the latter as the sequence of codes
    that [for code in datacodes] runs over). *)
Record node : Type := Node {
  datacode : option pyval;
  datacodes : option (list pyval)
}.

Record t : Type := Module_ {
  nodelist : gmap string node;
  (** byte width of a datacode, [False] (zero) when it is unknown *)
  check_datacode : pyval → nat;
  (** [None] when the call raises *)
  decode : pyval → list Z → option pynum
}.

End ehc.

(** Modelled from the spec: the codec facts of section 6 (the module
    [emonhub_coder] is missing from the sources).  Fixed-width symbols:
    [b]/[B] one byte signed/unsigned, [h]/[H] two bytes, [l]/[L] four
    bytes, [f] a four-byte IEEE float; little-endian. *)
Module Coder.

(** Modelled from the spec: [ehc.check_datacode], the byte width of an
    encoding symbol (the source of [emonhub_coder] is missing). *)
Definition check_datacode (dc : pyval) : nat :=
  match dc with
  | PStr "b" | PStr "B" => 1
  | PStr "h" | PStr "H" => 2
  | PStr "l" | PStr "L" | PStr "f" => 4
  | _ => 0
  end.

Definition is_byte (b : Z) : bool := (0 <=? b) && (b <=? 255).

(** Little-endian value of a list of bytes. *)
Fixpoint unsigned_le (bytes : list Z) : Z :=
  match bytes with
  | [] => 0
  | b :: rest => b + 256 * unsigned_le rest
  end.

(** Two's complement reading on [8 * n] bits. *)
Definition signed_le (bytes : list Z) : Z :=
  let u := unsigned_le bytes in
  let w := 2 ^ (8 * Z.of_nat (length bytes)) in
  if u <? w / 2 then u else u - w.

(** The IEEE binary32 value of a 32-bit pattern. *)
Definition float32 (bits : Z) : pyfloat :=
  let neg := Z.testbit bits 31 in
  let e := Z.land (Z.shiftr bits 23) 255 in
  let m := Z.land bits (2 ^ 23 - 1) in
  if e =? 255 then (if m =? 0 then Finf neg else Fnan)
  else
    let mag :=
      if e =? 0 then Qmake m (Z.to_pos (2 ^ 149))
      else Qmult (Qmake (2 ^ 23 + m) (Z.to_pos (2 ^ 23))) (Qpower (2 # 1) (e - 127)) in
    Ffin (Qred (if neg then Qopp mag else mag)).

(** Modelled from the spec: [ehc.decode], the value of a slice of bytes
    under an encoding symbol (the source of [emonhub_coder] is missing);
    it fails on a value that is no byte and on a slice of the wrong
    width. *)
Definition decode (dc : pyval) (frame : list Z) : option pynum :=
  if negb (forallb is_byte frame) then None
  else if negb (length frame =? check_datacode dc)%nat then None
  else match dc with
       | PStr "B" | PStr "H" | PStr "L" => Some (NInt (unsigned_le frame))
       | PStr "b" | PStr "h" | PStr "l" => Some (NInt (signed_le frame))
       | PStr "f" => Some (NFloat (float32 (unsigned_le frame)))
       | _ => None
       end.

(** The codec with a given node list. *)
Definition with_nodes (nodes : gmap string ehc.node) : ehc.t :=
  ehc.Module_ nodes check_datacode decode.

End Coder.

(** ** The interfacer object *)

(** The class of an object: it selects the overriding methods. *)
Inductive kind : Set := Base | Serial | Jee | Socket | Twi.

Inductive level : Set := DEBUG | INFO | WARNING.

(** A log record: the format of the message and the values it is built
    from. *)
Inductive message : Type :=
| NewFrame (ref : Z) (timestamp : pyfloat) (frame : string)
| FrameTimestamp (ref : Z) (timestamp : pyfloat)
| FrameNode (ref : Z) (node : option pynum)
| FrameValues (ref : Z) (values : list pynum)
| FrameRSSI (ref : Z) (rssi : Z)
| StringTooShort (ref : Z) (received : list string)
| NonNumericalContent (ref : Z) (received : list string)
| UnreliableContent (ref : Z) (rssi : string)
| LengthNotValidForDatacodes (ref : Z) (len : nat) (datacodes : list pyval)
| LengthNotValidForDatacode (ref : Z) (len : nat) (datacode : pyval)
| UnableToDecode (ref : Z)
| NotAValidSetting (setting : pyval) (name key : string)
| Setting (name key : string) (setting : pyval)
| SettingCommand (name key : string) (setting : pyval) (command : string)
| AcknowledgedCommand (name f : string)
| ConfirmedPacketSize (name f : string)
| DeviceSettingsUpdated (name f : string)
| BroadcastTime (name : string) (hh mm : Z)
| FailedReads (name : string) (add max_retry : Z)
| Retried (name : string) (add retry : Z).

(** An item of the shared queue: what was passed to [put]. *)
Definition item : Type := option (list pynum).

Record interfacer : Type := Interfacer {
  cls : kind;
  name : string;
  (** [self._defaults], in iteration order *)
  _defaults : list (string * pyval);
  _settings : gmap string pyval;
  _packet_counter : Z;
  _interval_timestamp : Q;
  (** [self.rssi]: [None] is [False] *)
  rssi : option Z;
  _rx_buf : string;
  _sock_rx_buf : string;
  (** [self.info[1]] *)
  info1 : string;
  (** the records written to [self._log], oldest first *)
  _log : list (level * message);
  (** the items put on [self._rxq], oldest first *)
  _rxq : list item;
  (** what was written to [self._ser], oldest first *)
  _ser : list string
}.

Definition set_settings (v : gmap string pyval) (o : interfacer) : interfacer :=
  Interfacer (cls o) (name o) (_defaults o) v (_packet_counter o)
    (_interval_timestamp o) (rssi o) (_rx_buf o) (_sock_rx_buf o) (info1 o)
    (_log o) (_rxq o) (_ser o).

Definition set_packet_counter (v : Z) (o : interfacer) : interfacer :=
  Interfacer (cls o) (name o) (_defaults o) (_settings o) v
    (_interval_timestamp o) (rssi o) (_rx_buf o) (_sock_rx_buf o) (info1 o)
    (_log o) (_rxq o) (_ser o).

Definition set_interval_timestamp (v : Q) (o : interfacer) : interfacer :=
  Interfacer (cls o) (name o) (_defaults o) (_settings o) (_packet_counter o)
    v (rssi o) (_rx_buf o) (_sock_rx_buf o) (info1 o)
    (_log o) (_rxq o) (_ser o).

Definition set_rssi (v : option Z) (o : interfacer) : interfacer :=
  Interfacer (cls o) (name o) (_defaults o) (_settings o) (_packet_counter o)
    (_interval_timestamp o) v (_rx_buf o) (_sock_rx_buf o) (info1 o)
    (_log o) (_rxq o) (_ser o).

Definition set_rx_buf (v : string) (o : interfacer) : interfacer :=
  Interfacer (cls o) (name o) (_defaults o) (_settings o) (_packet_counter o)
    (_interval_timestamp o) (rssi o) v (_sock_rx_buf o) (info1 o)
    (_log o) (_rxq o) (_ser o).

Definition set_sock_rx_buf (v : string) (o : interfacer) : interfacer :=
  Interfacer (cls o) (name o) (_defaults o) (_settings o) (_packet_counter o)
    (_interval_timestamp o) (rssi o) (_rx_buf o) v (info1 o)
    (_log o) (_rxq o) (_ser o).

Definition set_info1 (v : string) (o : interfacer) : interfacer :=
  Interfacer (cls o) (name o) (_defaults o) (_settings o) (_packet_counter o)
    (_interval_timestamp o) (rssi o) (_rx_buf o) (_sock_rx_buf o) v
    (_log o) (_rxq o) (_ser o).

Definition set_log (v : list (level * message)) (o : interfacer) : interfacer :=
  Interfacer (cls o) (name o) (_defaults o) (_settings o) (_packet_counter o)
    (_interval_timestamp o) (rssi o) (_rx_buf o) (_sock_rx_buf o) (info1 o)
    v (_rxq o) (_ser o).

Definition set_rxq (v : list item) (o : interfacer) : interfacer :=
  Interfacer (cls o) (name o) (_defaults o) (_settings o) (_packet_counter o)
    (_interval_timestamp o) (rssi o) (_rx_buf o) (_sock_rx_buf o) (info1 o)
    (_log o) v (_ser o).

Definition set_ser (v : list string) (o : interfacer) : interfacer :=
  Interfacer (cls o) (name o) (_defaults o) (_settings o) (_packet_counter o)
    (_interval_timestamp o) (rssi o) (_rx_buf o) (_sock_rx_buf o) (info1 o)
    (_log o) (_rxq o) v.

(** ** Methods as computations on the object *)

(** A method body: it ends by returning or by raising, and leaves the
    object as it has mutated it so far. *)
Definition M (A : Type) : Type := interfacer → result A * interfacer.

Definition ret {A} (a : A) : M A := λ self, (Ret a, self).

Definition raise {A} (e : exn) : M A := λ self, (Raise e, self).

Definition bind {A B} (m : M A) (k : A → M B) : M B := λ self,
  match m self with
  | (Ret a, self') => k a self'
  | (Raise e, self') => (Raise e, self')
  end.

Notation "x <~ m ; k" := (bind m (λ x, k))
  (at level 20, m at level 100, k at level 200, only parsing).
Notation "'run' m ; k" := (bind m (λ _, k))
  (at level 20, m at level 100, k at level 200, only parsing).

Definition lift {A} (r : result A) : M A := λ self, (r, self).

Definition get {A} (field : interfacer → A) : M A := λ self, (Ret (field self), self).

Definition modify (f : interfacer → interfacer) : M unit := λ self, (Ret tt, f self).

(** [self._log.<level>(msg)] *)
Definition log (l : level) (msg : message) : M unit :=
  modify (λ self, set_log (_log self ++ [(l, msg)])%list self).

(** [self._rxq.put(x)] *)
Definition put (x : item) : M unit :=
  modify (λ self, set_rxq (_rxq self ++ [x])%list self).

(** [self._ser.write(s)] *)
Definition write (s : string) : M unit :=
  modify (λ self, set_ser (_ser self ++ [s])%list self).

(** [self._settings[key]] *)
Definition setting (key : string) : M pyval := λ self,
  match _settings self !! key with
  | Some v => (Ret v, self)
  | None => (Raise KeyError, self)
  end.

(** A [for] loop whose body neither breaks nor returns. *)
Fixpoint for_each {A} (body : A → M unit) (l : list A) : M unit :=
  match l with
  | [] => ret tt
  | x :: rest => run body x; for_each body rest
  end.

(** ** class EmonHubInterfacer *)

Definition base_defaults : list (string * pyval) :=
  [("pause", PStr "off"); ("interval", PInt 0);
   ("datacode", PStr "0"); ("timestamped", PStr "False")].

(** [d.update(other)] on a dictionary kept as an association list. *)
Fixpoint update_item (k : string) (v : pyval) (d : list (string * pyval))
  : list (string * pyval) :=
  match d with
  | [] => [(k, v)]
  | (k', v') :: rest =>
      if bool_decide (k' = k) then (k, v) :: rest
      else (k', v') :: update_item k v rest
  end.

Definition update (d other : list (string * pyval)) : list (string * pyval) :=
  foldl (λ acc kv, update_item kv.1 kv.2 acc) d other.

(** [EmonHubInterfacer._validate_frame] *)
Definition _validate_frame (ref : Z) (received : list string)
  : M (option (list string)) :=
  if (length received <? 2)%nat then
    run log WARNING (StringTooShort ref received);
    ret None
  else if forallb (λ val, bool_decide (is_Some (float_of_string val))) received
  then ret (Some received)
  else
    run log WARNING (NonNumericalContent ref received);
    ret None.

(** The branch taken when no datacode applies: every value
    is passed on as [int] when whole and as [float] otherwise. *)
Fixpoint pass_values (data : list string) : result (list pynum) :=
  match data with
  | [] => Ret []
  | val :: rest =>
      match float_of_string val with
      | None => Raise ValueError
      | Some x =>
          vs ← pass_values rest;
          Ret ((if has_fraction x then NFloat x else NInt (int_of_whole x)) :: vs)
      end
  end.

(** The loop [for i in range(0, count, 1)] of [_decode_frame], [count]
    iterations from index [i] and byte position [bytepos] on.
    [Ret None] is the [return False] of its [except] clause. *)
Fixpoint decode_values (c : ehc.t) (datacode : pyval) (datacodes : list pyval)
    (data : list string) (count i bytepos : nat)
  : result (option (list pynum)) :=
  match count with
  | O => Ret (Some [])
  | S count' =>
      match (if truthy datacode then Some datacode else datacodes !! i) with
      | None => Raise IndexError
      | Some dc =>
          let size := ehc.check_datacode c dc in
          match mapM int_of_string (take size (drop bytepos data))
                ≫= ehc.decode c dc with
          | None => Ret None
          | Some value =>
              match decode_values c datacode datacodes data count' (S i)
                      (bytepos + size) with
              | Ret (Some rest) => Ret (Some (value :: rest))
              | other => other
              end
          end
      end
  end.

(** The local variables of [_decode_frame] when its first part is over:
    [decoded], [count] (possibly unbound), [datacode] ([False] is kept
    as the integer zero) and [datacodes]. *)
Definition locals : Type := list pynum * option nat * pyval * list pyval.

(** [EmonHubInterfacer._decode_frame]; [None] is [False]. *)
Definition _decode_frame (c : ehc.t) (ref : Z) (data : list string)
  : M (option (list pynum)) :=
  match data with
  | [] => raise IndexError
  | node :: data =>
      vars <~
        match ehc.nodelist c !! node ≫= ehc.datacodes with
        | Some datacodes =>
            let datasizes := ehc.check_datacode c <$> datacodes in
            if negb (length data =? sum_list datasizes)%nat then
              run log WARNING (LengthNotValidForDatacodes ref (length data) datacodes);
              ret (None : option locals)
            else ret (Some ([], Some (length datacodes), PInt 0, datacodes))
        | None =>
            datacode <~
              match ehc.nodelist c !! node ≫= ehc.datacode with
              | Some d => ret d
              | None => setting "datacode"
              end;
            let datacode := if py_eq datacode (PStr "0") then PInt 0 else datacode in
            if negb (truthy datacode) then
              decoded <~ lift (pass_values data);
              ret (Some (decoded, None, datacode, []))
            else
              let size := ehc.check_datacode c datacode in
              if (size =? 0)%nat then raise ZeroDivisionError
              else if negb (length data mod size =? 0)%nat then
                run log WARNING (LengthNotValidForDatacode ref (length data) datacode);
                ret None
              else ret (Some ([], Some (length data / size)%nat, datacode, []))
        end;
      match vars with
      | None => ret None
      | Some (decoded, count, datacode, datacodes) =>
          decoded <~
            match decoded with
            | _ :: _ => ret (Some decoded)
            | [] =>
                match count with
                | None => raise UnboundLocalError
                | Some count =>
                    match decode_values c datacode datacodes data count 0 0 with
                    | Raise e => raise e
                    | Ret None => run log WARNING (UnableToDecode ref); ret None
                    | Ret (Some values) => ret (Some values)
                    end
                end
            end;
          match decoded with
          | None => ret None
          | Some decoded =>
              n <~ lift (int (PStr node));
              ret (Some (NInt n :: decoded))
          end
      end
  end.

Definition valid_setting (key : string) (v : pyval) : bool :=
  bool_decide (key = "pause")
    && bool_decide (lower (str v) ∈ ["all"; "in"; "out"; "off"])
  || bool_decide (key = "interval") && isdigit (str v)
  || bool_decide (key = "datacode")
    && bool_decide (str v ∈ ["0"; "b"; "B"; "h"; "H"; "L"; "l"; "f"])
  || bool_decide (key = "timestamped")
    && bool_decide (lower (str v) ∈ ["true"; "false"]).

(** One turn of the loop of [EmonHubInterfacer.set]. *)
Definition set_item (kwargs : gmap string pyval) (kv : string * pyval) : M unit :=
  let '(key, builtin) := kv in
  let v := default builtin (kwargs !! key) in
  settings <~ get _settings;
  if bool_decide (settings !! key = Some v) then ret tt
  else if valid_setting key v then
    run modify (λ self, set_settings (<[key := v]> (_settings self)) self);
    nm <~ get name;
    log DEBUG (Setting nm key v)
  else
    nm <~ get name;
    log WARNING (NotAValidSetting v nm key).

(** [EmonHubInterfacer.set] *)
Definition set (kwargs : gmap string pyval) : M unit :=
  defaults <~ get _defaults;
  for_each (set_item kwargs) defaults.

(** [str(tok)[0]=='(' and str(tok)[-1]==')'] *)
Definition in_parentheses (tok : string) : result bool :=
  a ← first_char tok;
  if bool_decide (a = "("%char) then
    b ← last_char tok; Ret (bool_decide (b = ")"%char))
  else Ret false.

(** [EmonHubJeeInterfacer._validate_frame] *)
Definition jee_validate_frame (ref : Z) (received : list string)
  : M (option (list string)) :=
  head <~ lift (first_item received);
  unreliable <~
    (if bool_decide (head = "?")
     then lift (last_item received ≫= in_parentheses)
     else ret false);
  if unreliable : bool then
    tok <~ lift (last_item received);
    run log INFO (UnreliableContent ref tok);
    ret None
  else
    let received := if bool_decide (head = "OK") then tail received else received in
    tok <~ lift (last_item received);
    marked <~ lift (in_parentheses tok);
    if marked : bool then
      v <~ lift (int (PStr (drop_last 1 (str_drop 1 tok))));
      run modify (set_rssi (Some v));
      ret (Some (init_items received))
    else
      run modify (set_rssi None);
      ok <~ _validate_frame ref received;
      match ok with
      | None => ret None
      | Some _ => ret (Some received)
      end.

(** [self._validate_frame]: the method of the object's class. *)
Definition self_validate_frame (ref : Z) (received : list string)
  : M (option (list string)) :=
  k <~ get cls;
  match k with
  | Jee => jee_validate_frame ref received
  | _ => _validate_frame ref received
  end.

(** ['pause' in self._settings and str.lower(self._settings['pause'])
    in ['all', 'in']] *)
Definition paused_in : M bool :=
  settings <~ get _settings;
  match settings !! "pause" with
  | None => ret false
  | Some v => s <~ lift (str_lower v); ret (bool_decide (s ∈ ["all"; "in"]))
  end.

(** ['pause' in self._settings and str(self._settings['pause']).lower()
    in ['all', 'out']] *)
Definition paused_out : M bool :=
  settings <~ get _settings;
  match settings !! "pause" with
  | None => ret false
  | Some v => ret (bool_decide (lower (str v) ∈ ["all"; "out"]))
  end.

(** [EmonHubInterfacer._process_frame], from the validation of the
    split frame to the complete frame. *)
Definition assemble (c : ehc.t) (ref : Z) (timestamp : pyfloat)
    (received : list string) : M (option (list pynum)) :=
  validated <~ self_validate_frame ref received;
  match validated with
  | None | Some [] => ret None
  | Some validated =>
      decoded <~ _decode_frame c ref validated;
      match decoded with
      | None | Some [] => ret None
      | Some decoded =>
          run log DEBUG (FrameTimestamp ref timestamp);
          run log DEBUG (FrameNode ref (head decoded));
          run log DEBUG (FrameValues ref (tail decoded));
          signal <~ get rssi;
          with_rssi <~
            match signal with
            | Some v =>
                if negb (v =? 0) then
                  run log DEBUG (FrameRSSI ref v);
                  ret ((NFloat timestamp :: decoded) ++ [NInt v])%list
                else ret (NFloat timestamp :: decoded)
            | None => ret (NFloat timestamp :: decoded)
            end;
          ret (Some (with_rssi ++ [NInt ref])%list)
      end
  end.

(** [EmonHubInterfacer._process_frame] between its two tests of the
    pause setting. *)
Definition process (c : ehc.t) (now : pyfloat) (frame : string)
    (timestamp : pyfloat) : M (option (list pynum)) :=
  let timestamp := if float_is_zero timestamp then now else timestamp in
  run modify (λ self, set_packet_counter (_packet_counter self + 1) self);
  ref <~ get _packet_counter;
  run log DEBUG (NewFrame ref timestamp frame);
  let received := split_char " " (strip frame) in
  run modify (set_rssi None);
  assemble c ref timestamp received.

(** [EmonHubInterfacer._process_frame]; [now] is the value that
    [round(time.time(), 2)] has when it is called. *)
Definition _process_frame (c : ehc.t) (now : pyfloat) (frame : string)
    (timestamp : pyfloat) : M (option (list pynum)) :=
  discard <~ paused_in;
  if discard : bool then ret None
  else
    complete <~ process c now frame timestamp;
    match complete with
    | None => ret None
    | Some complete =>
        hold <~ paused_out;
        if hold : bool then ret None else ret (Some complete)
    end.

(** ** class EmonHubSerialInterfacer *)

(** The first part of [read]: the line just read joins the buffer; a
    buffer that holds the delimiter is handed over without its last two
    characters and emptied. *)
Definition serial_poll (line : string) : M (option string) :=
  run modify (λ self, set_rx_buf (_rx_buf self +:+ line) self);
  buf <~ get _rx_buf;
  if negb (contains CRLF buf) then ret None
  else
    let f := drop_last 2 buf in
    run modify (set_rx_buf "");
    ret (Some f).

(** [EmonHubSerialInterfacer.read]; [line] is what [self._ser.readline()]
    returns, [t] the value of [round(time.time(), 2)]. *)
Definition serial_read (c : ehc.t) (line : string) (t : pyfloat)
  : M (option (list pynum)) :=
  f <~ serial_poll line;
  match f with
  | None => ret None
  | Some f => _process_frame c t f t
  end.

(** ** class EmonHubJeeInterfacer *)

Definition _jee_settings : list (string * pyval) :=
  [("baseid", PStr "15"); ("frequency", PStr "433");
   ("group", PStr "210"); ("quiet", PStr "True")].

Definition _jee_prefix : gmap string string :=
  {[ "baseid" := "i"; "frequency" := "@ "; "group" := "g"; "quiet" := "q" ]}.

(** [all(i in s for i in (" i", " g", " @ ", " MHz"))], the test of
    [__init__]. *)
Definition all_markers (s : string) : bool :=
  forallb (λ i, contains i s) [" i"; " g"; " @ "; " MHz"].

(** [x and y] where [x] is a string and [y] a truth value, as a
    condition. *)
Definition and_str (x : string) (y : bool) : bool :=
  if truthy (PStr x) then y else false.

(** [" i" and " g" and " @ " and " MHz" in s], the test of [read] and
    [set]: [in] binds tighter than [and]. *)
Definition markers_expr (s : string) : bool :=
  and_str " i" (and_str " g" (and_str " @ " (contains " MHz" s))).

(** [EmonHubJeeInterfacer.read] *)
Definition jee_read (c : ehc.t) (line : string) (t : pyfloat)
  : M (option (list pynum)) :=
  f <~ serial_poll line;
  match f with
  | None => ret None
  | Some f =>
      nm <~ get name;
      f0 <~ lift (first_char f);
      if bool_decide (f0 = ">"%char) then
        run log DEBUG (AcknowledgedCommand nm f); ret None
      else if bool_decide (str_take 3 f = " ->") then
        run log DEBUG (ConfirmedPacketSize nm f); ret None
      else if bool_decide (f0 = "001"%char) then ret None
      else if markers_expr f then
        run modify (set_info1 f);
        run log DEBUG (DeviceSettingsUpdated nm f);
        ret None
      else _process_frame c t f t
  end.

(** What one turn of the loop of [EmonHubJeeInterfacer.set] decides once
    the value has been compared with the stored one. *)
Inductive jee_step : Type :=
| Send (v : pyval) (command : string)
| Skip
| Reject.

(** [int(v) >= lo and int(v) <= hi] *)
Definition int_between (lo hi : Z) (v : pyval) : result bool :=
  n ← int v; Ret ((lo <=? n) && (n <=? hi)).

(** The chain of tests on [key] and value, with [chk_info] and
    [self.info[1]]. *)
Definition jee_command (key : string) (v : pyval) (chk_info : bool)
    (info : string) : result jee_step :=
  if bool_decide (key = "baseid") then
    ok ← int_between 1 26 v;
    if ok : bool then command ← concat v "i"; Ret (Send v command)
    else Ret Reject
  else if bool_decide (key = "frequency") then
    if bool_decide (v ∈ [PStr "433"; PStr "868"; PStr "915"])
    then Ret (Send v (str_take 1 (str v) +:+ "b"))
    else Ret Reject
  else if bool_decide (key = "group") then
    ok ← int_between 0 212 v;
    if ok : bool then command ← concat v "g"; Ret (Send v command)
    else Ret Reject
  else if bool_decide (key = "quiet") then
    let word := capitalize (str v) in
    if bool_decide (word ∈ ["True"; "False"]) then
      let val := if bool_decide (word = "True") then "1" else "0" in
      if chk_info && contains (default "" (_jee_prefix !! key) +:+ val) info
      then Ret Skip
      else Ret (Send (PStr word) (val +:+ "q"))
    else Ret Reject
  else Ret Reject.

(** One turn of the loop of [EmonHubJeeInterfacer.set]. *)
Definition jee_set_item (kwargs : gmap string pyval) (kv : string * pyval)
  : M unit :=
  let '(key, builtin) := kv in
  let v := default builtin (kwargs !! key) in
  settings <~ get _settings;
  info <~ get info1;
  (** [Some chk_info], or [None] for [continue] *)
  check <~
    (if bool_decide (settings !! key = Some v) then
       if markers_expr info then
         match _jee_prefix !! key with
         | None => raise KeyError
         | Some prefix =>
             if contains (prefix +:+ str v) info then ret None
             else ret (Some true)
         end
       else ret None
     else ret (Some false));
  match check with
  | None => ret tt
  | Some chk_info =>
      step <~ lift (jee_command key v chk_info info);
      nm <~ get name;
      match step with
      | Skip => ret tt
      | Reject => log WARNING (NotAValidSetting v nm key)
      | Send v' command =>
          run modify (λ self, set_settings (<[key := v']> (_settings self)) self);
          run log INFO (SettingCommand nm key v' command);
          write command
      end
  end.

(** The loop of [EmonHubJeeInterfacer.set] over the items of
    [self._jee_settings] in a given order, then the inherited [set]. *)
Definition jee_set_in (items : list (string * pyval))
    (kwargs : gmap string pyval) : M unit :=
  run for_each (jee_set_item kwargs) items;
  set kwargs.

(** [EmonHubJeeInterfacer.set] *)
Definition jee_set (kwargs : gmap string pyval) : M unit :=
  jee_set_in _jee_settings kwargs.

(** [EmonHubJeeInterfacer.send_packet] *)
Definition send_packet (packet : list Z) (id : Z) (cmd : string) : M unit :=
  write (foldl (λ payload i, payload +:+ pretty i +:+ ",") "" packet
         +:+ pretty id +:+ cmd).

(** [EmonHubJeeInterfacer.action]; [t] is [time.time()], [hh] and [mm]
    are the hour and minute of [datetime.datetime.now()]. *)
Definition jee_action (t : Q) (hh mm : Z) : M unit :=
  iv <~ setting "interval";
  interval <~ lift (int iv);
  if negb (interval =? 0) then
    started <~ get _interval_timestamp;
    if Qle_bool (inject_Z interval) (t - started) then
      nm <~ get name;
      run log DEBUG (BroadcastTime nm hh mm);
      run modify (set_interval_timestamp t);
      send_packet [0; hh; mm; 0] 0 "s"
    else ret tt
  else ret tt.

(** ** class EmonHubSocketInterfacer *)

(** The first part of [read]: [received] is what [conn.recv(1024)]
    delivers when a connection is pending. *)
Definition socket_poll (received : option string) : M (option string) :=
  run match received with
      | Some data =>
          modify (λ self, set_sock_rx_buf (_sock_rx_buf self +:+ data) self)
      | None => ret tt
      end;
  buf <~ get _sock_rx_buf;
  if contains CRLF buf then
    match split1 CRLF buf with
    | Some (f, rest) => run modify (set_sock_rx_buf rest); ret (Some f)
    | None => raise ValueError
    end
  else ret None.

(** [EmonHubSocketInterfacer.read] *)
Definition socket_read (c : ehc.t) (received : option string) (now : pyfloat)
  : M (option (list pynum)) :=
  f <~ socket_poll received;
  match f with
  | None => ret None
  | Some f =>
      flag <~ setting "timestamped";
      if bool_decide (lower (str flag) = "true") then
        let words := split_char " " f in
        w <~ lift (first_item words);
        match float_of_string w with
        | None => raise ValueError
        | Some t => _process_frame c now (join " " (tail words)) t
        end
      else _process_frame c now f (Ffin 0)
  end.

(** ** class EmonHubTwiInterfacer *)

Definition _twi_settings : list (string * pyval) :=
  [("deviceids", PStr ""); ("length", PStr "")].

(** [all(test(int(i)) for i in items)]: stops at the first item that
    fails the test. *)
Fixpoint all_int (test : Z → bool) (items : list pyval) : result bool :=
  match items with
  | [] => Ret true
  | i :: rest =>
      n ← int i;
      if test n then all_int test rest else Ret false
  end.

(** The chain of tests of [EmonHubTwiInterfacer.set]. *)
Definition twi_valid (key : string) (v : pyval) : result bool :=
  if bool_decide (key = "deviceids") then
    items ← iter v;
    low ← all_int (λ n, 3 <=? n) items;
    if low : bool then all_int (λ n, n <=? 119) items else Ret false
  else if bool_decide (key = "length") then int_between 0 32 v
  else Ret false.

(** One turn of the loop of [EmonHubTwiInterfacer.set]. *)
Definition twi_set_item (kwargs : gmap string pyval) (kv : string * pyval)
  : M unit :=
  let '(key, builtin) := kv in
  let v := default builtin (kwargs !! key) in
  ok <~ lift (twi_valid key v);
  nm <~ get name;
  if ok : bool then
    run modify (λ self, set_settings (<[key := v]> (_settings self)) self);
    log INFO (Setting nm key v)
  else log WARNING (NotAValidSetting v nm key).

(** The loop of [EmonHubTwiInterfacer.set] over the items of
    [self._twi_settings] in a given order, then the inherited [set]. *)
Definition twi_set_in (items : list (string * pyval))
    (kwargs : gmap string pyval) : M unit :=
  run for_each (twi_set_item kwargs) items;
  set kwargs.

(** [EmonHubTwiInterfacer.set] *)
Definition twi_set (kwargs : gmap string pyval) : M unit :=
  twi_set_in _twi_settings kwargs.

Definition max_retry : nat := 5.

(** The loop [while (retry < max_retry)] of [read]: [attempt n] is the
    outcome of the block read made after [n] failures, [None] when it
    raises.  The result is [frame] and [retry] when the loop is left. *)
Fixpoint read_retry (attempt : nat → option (list Z)) (fuel retry : nat)
  : list Z * nat :=
  match fuel with
  | O => ([], retry)
  | S fuel' =>
      if (retry <? max_retry)%nat then
        match attempt retry with
        | Some frame => (frame, retry)
        | None => read_retry attempt fuel' (S retry)
        end
      else ([], retry)
  end.

(** One turn of the second loop of [EmonHubTwiInterfacer.read], for the
    device [b]; [bus add cmd len n] is the outcome of the call
    [self._bus.read_i2c_block_data(add, cmd, len)] made after [n]
    failures. *)
Definition twi_read_device (c : ehc.t) (t : Q) (now : pyfloat)
    (bus : Z → Z → Z → nat → option (list Z)) (b : pyval) : M unit :=
  add <~ lift (int b);
  ln <~ setting "length";
  len <~ lift (int ln);
  let '(frame, retry) := read_retry (bus add 0 len) max_retry 0 in
  run match frame with
      | [] => ret tt
      | _ :: _ =>
          let f := str b +:+ " " +:+ join " " (pretty <$> frame) in
          values <~ _process_frame c now f (Ffin t);
          put values
      end;
  nm <~ get name;
  if negb (retry =? 0)%nat then
    if (retry =? max_retry)%nat
    then log WARNING (FailedReads nm add (Z.of_nat max_retry))
    else log DEBUG (Retried nm add (Z.of_nat retry))
  else ret tt.

(** [EmonHubTwiInterfacer.read]; [t] is [time.time()].  The first loop
    (the trigger byte written to every device, with every exception
    swallowed) leaves the object as it is. *)
Definition twi_read (c : ehc.t) (t : Q) (now : pyfloat)
    (bus : Z → Z → Z → nat → option (list Z)) : M (option (list pynum)) :=
  started <~ get _interval_timestamp;
  iv <~ setting "interval";
  interval <~ lift (int iv);
  if negb (Qle_bool (inject_Z interval) (t - started)) then ret None
  else
    ids <~ setting "deviceids";
    devices <~ lift (iter ids);
    run modify (set_interval_timestamp t);
    run for_each (twi_read_device c t now bus) devices;
    ret None.

(** ** Objects as the constructors leave them *)

Definition settings_of (d : list (string * pyval)) : gmap string pyval :=
  list_to_map d.

(** The object after [__init__]; for the Jee class [info] is the
    settings string [self.info[1]] obtained from the device by the
    version query (empty when it did not answer). *)
Definition new (k : kind) (nm : string) (info : string) : interfacer :=
  let defaults :=
    match k with
    | Jee => update base_defaults
               [("pause", PStr "off"); ("interval", PInt 0); ("datacode", PStr "h")]
    | Twi => update base_defaults [("interval", PInt 5); ("datacode", PStr "h")]
    | _ => base_defaults
    end in
  let settings :=
    match k with
    | Jee => if all_markers info
             then settings_of (defaults ++ _jee_settings)
             else settings_of defaults
    | _ => settings_of defaults
    end in
  Interfacer k nm defaults settings 0 0 None "" ""
    (match k with Jee => info | _ => "" end) [] [] [].

(** ** The thread *)

(** What the outside world supplies during one turn of [run]. *)
Record world : Type := World {
  (** [self._ser.readline()] *)
  readline : string;
  (** [conn.recv(1024)] when a connection is pending *)
  recv : option string;
  (** [time.time()] and [round(time.time(), 2)] *)
  clock : Q;
  stamp : pyfloat;
  hour : Z;
  minute : Z;
  (** [self._bus.read_i2c_block_data] *)
  i2c : Z → Z → Z → nat → option (list Z)
}.

(** [self.read()] *)
Definition read (c : ehc.t) (w : world) : M (option (list pynum)) :=
  k <~ get cls;
  match k with
  | Base => ret None
  | Serial => serial_read c (readline w) (stamp w)
  | Jee => jee_read c (readline w) (stamp w)
  | Socket => socket_read c (recv w) (stamp w)
  | Twi => twi_read c (clock w) (stamp w) (i2c w)
  end.

(** [self.action()] *)
Definition action (w : world) : M unit :=
  k <~ get cls;
  match k with
  | Jee => jee_action (clock w) (hour w) (minute w)
  | _ => ret tt
  end.

(** [self.set] applied to keyword arguments *)
Definition self_set (kwargs : gmap string pyval) : M unit :=
  k <~ get cls;
  match k with
  | Jee => jee_set kwargs
  | Twi => twi_set kwargs
  | _ => set kwargs
  end.

(** One turn of the loop of [EmonHubInterfacer.run]. *)
Definition run_once (c : ehc.t) (w : world) : M unit :=
  values <~ read c w;
  run match values with
      | Some frame => put (Some frame)
      | None => ret tt
      end;
  action w.

(** ** The thread and the calls of [set], as wholes *)

(** The loop of [EmonHubInterfacer.run], for the turns it makes before
    [self.stop] is set; [ws] is what the outside world supplies at each
    turn. *)
Definition run_loop (c : ehc.t) (ws : list world) : M unit :=
  for_each (run_once c) ws.

(** The loop that the [set] of the object's class makes over the keys
    of its own before it calls the inherited [set]: the radio reader
    over [self._jee_settings], the bus reader over
    [self._twi_settings]; the other classes have no such loop. *)
Definition own_keys (kwargs : gmap string pyval) : M unit :=
  k <~ get cls;
  match k with
  | Jee => for_each (jee_set_item kwargs) _jee_settings
  | Twi => for_each (twi_set_item kwargs) _twi_settings
  | _ => ret tt
  end.

(** ** [emonhub_interface.py]: the settings of the hub

    [EmonHubFileInterface] keeps the settings read from the
    configuration file and reads the file again when asked to, not more
    than once per second.  The settings are a [ConfigObj], whose source
    is not part of the files modelled here: its type is a parameter,
    compared by value as dictionaries are, and what [reload] does is an
    argument. *)

Module Interface.

(** How [self.settings.reload()] can fail, as the handlers of
    [check_settings] tell the exceptions apart. *)
Inductive failure : Set := IOError | SyntaxError | OtherException.

Section file_interface.
Context {Settings : Type} `{EqDecision Settings}.

Record t : Type := FileInterface {
  settings : Settings;
  _settings_update_timestamp : Q;
  _retry_time_interval : Q;
  (** the warnings written to [self._log], oldest first: each tells
      that the settings could not be got, and why *)
  _log : list failure
}.

(** [EmonHubFileInterface.__init__]; [loaded] is what
    [ConfigObj(filename, file_error=True)] gives, and the result is
    [None] when the constructor raises. *)
Definition __init__ (loaded : Settings + failure) : option t :=
  match loaded with
  | inl s => Some (FileInterface s 0 60 [])
  | inr _ => None
  end.

(** [EmonHubFileInterface.check_settings]; [now] is [time.time()],
    [reload] gives the settings that [self.settings.reload()] leaves
    and the exception it raises, if any.  The result [true] is [True],
    [false] is the [None] of every other end. *)
Definition check_settings (now : Q)
    (reload : Settings → Settings * option failure) (self : t) : bool * t :=
  if negb (Qle_bool 1 (now - _settings_update_timestamp self)) then (false, self)
  else
    let backup := settings self in
    match reload (settings self) with
    | (reloaded, Some e) =>
        (false,
         FileInterface reloaded (now + _retry_time_interval self)
           (_retry_time_interval self) (_log self ++ [e])%list)
    | (reloaded, None) =>
        (negb (bool_decide (reloaded = backup)),
         FileInterface reloaded now (_retry_time_interval self) (_log self))
    end.

End file_interface.

Global Arguments t : clear implicits.

End Interface.

(** ** Vocabulary of the statements *)

(** The log records that concern the setting [key]. *)
Definition about (key : string) (e : level * message) : bool :=
  match e.2 with
  | Setting _ k _ | NotAValidSetting _ _ k | SettingCommand _ k _ _ =>
      bool_decide (k = key)
  | _ => false
  end.

(** What one turn of the loop of [set] logs for [key], the stored value
    being [old] and the value to set [v]. *)
Definition key_entries (nm key : string) (old : option pyval) (v : pyval)
  : list (level * message) :=
  if bool_decide (old = Some v) then []
  else if valid_setting key v then [(DEBUG, Setting nm key v)]
  else [(WARNING, NotAValidSetting v nm key)].

(** The value stored under [key] after that turn. *)
Definition key_value (key : string) (old : option pyval) (v : pyval)
  : option pyval :=
  if bool_decide (old = Some v) then old
  else if valid_setting key v then Some v else old.

(** The settings after that turn. *)
Definition key_settings (key : string) (v : pyval) (m : gmap string pyval)
  : gmap string pyval :=
  if bool_decide (m !! key = Some v) then m
  else if valid_setting key v then <[key := v]> m else m.

(** Computations that read no setting but ['datacode'] and leave the
    settings alone: they run in the same way on an object whose other
    settings differ. *)
Definition datacode_only {A} (m : M A) : Prop :=
  ∀ self S, S !! "datacode" = _settings self !! "datacode" →
    m (set_settings S self) = ((m self).1, set_settings S (m self).2)
    ∧ _settings (m self).2 = _settings self.

(** Computations that change nothing but the log, by appending to it,
    and [self.rssi]. *)
Definition footprint {A} (m : M A) : Prop :=
  ∀ self, ∃ new r,
    (m self).2 = set_rssi r (set_log (_log self ++ new)%list self).

(** What [_process_frame] hands back when the output is paused: nothing
    in place of a frame, the exception otherwise. *)
Definition withheld {A} (r : result (option A)) : result (option A) :=
  match r with
  | Ret _ => Ret None
  | Raise e => Raise e
  end.

(** Every stored value of a key of [self._defaults] passes the test of
    that key. *)
Definition settings_valid (self : interfacer) : Prop :=
  ∀ key w, key ∈ (_defaults self).*1 →
    _settings self !! key = Some w → valid_setting key w = true.

(** Per-value decoding, the way the specification words it: the payload
    is cut into consecutive slices, one per datacode and as wide as the
    datacode says, and each slice is decoded under its datacode; one
    failure fails the whole. *)
Fixpoint per_value (c : ehc.t) (datacodes : list pyval) (data : list string)
  : option (list pynum) :=
  match datacodes with
  | [] => Some []
  | dc :: rest =>
      let size := ehc.check_datacode c dc in
      value ← mapM int_of_string (take size data) ≫= ehc.decode c dc;
      values ← per_value c rest (drop size data);
      Some (value :: values)
  end.

(** The synthetic raw frame built from a block read from the device [b]:
    [str(b) + " " + ' '.join(map(str, frame))]. *)
Definition twi_frame (b : pyval) (block : list Z) : string :=
  str b +:+ " " +:+ join " " (pretty <$> block).

(** The record about retries that ends the turn of a device: none when
    the first read succeeded. *)
Definition log_retries (nm : string) (add : Z) (retry : nat)
    (self : interfacer) : interfacer :=
  if (retry =? 0)%nat then self
  else set_log (_log self ++ [(DEBUG, Retried nm add (Z.of_nat retry))])%list self.

(** The text [buf] holds the delimiter, [f] being what precedes its
    first occurrence and [rest] what follows it. *)
Definition first_delimiter (buf f rest : string) : Prop :=
  buf = f +:+ CRLF +:+ rest
  ∧ ∀ f' rest', buf = f' +:+ CRLF +:+ rest' →
      (String.length f ≤ String.length f')%nat.

(** The text [buf] does not hold the delimiter. *)
Definition no_delimiter (buf : string) : Prop :=
  ∀ f rest, buf ≠ f +:+ CRLF +:+ rest.

(** What [readline] can return: text that goes no further than a line
    feed. *)
Definition one_line (line : string) : Prop :=
  ∀ a b, line = a +:+ String "010"%char b → b = "".

(** The test of [settings_valid] on a given map, for the four generic
    keys. *)
Definition generic_keys_valid (m : gmap string pyval) : bool :=
  forallb
    (λ key, match m !! key with
            | Some w => valid_setting key w
            | None => true
            end)
    ["pause"; "interval"; "datacode"; "timestamped"].

(** A test for [one_line] on a given text: what follows its first line
    feed, if any, is empty. *)
Definition ends_at_line_feed (line : string) : bool :=
  match split1 (String "010"%char "") line with
  | Some (_, rest) => bool_decide (rest = "")
  | None => true
  end.

(** ** Objects and inputs of the examples *)

(** The codec with an empty node list. *)
Definition plain_codec : ehc.t := Coder.with_nodes ∅.

(** A codec whose node list gives node 10 one signed byte per value. *)
Definition byte_codec : ehc.t :=
  Coder.with_nodes {[ "10" := ehc.Node None (Some [PStr "b"]) ]}.

(** A radio reader whose device did not answer the version query. *)
Definition radio : interfacer := new Jee "jee" "".

(** A bus reader configured for the device 8 and blocks of four bytes,
    its output paused. *)
Definition paused_bus : interfacer :=
  (self_set {[ "deviceids" := PList ["8"]; "length" := PStr "4";
               "pause" := PStr "out" ]} (new Twi "twi" "")).2.

(** A bus reader configured for the device 8 and blocks of no byte. *)
Definition empty_bus : interfacer :=
  (self_set {[ "deviceids" := PList ["8"]; "length" := PStr "0" ]}
     (new Twi "twi" "")).2.

(** A bus whose reads all succeed with the given block. *)
Definition steady_bus (block : list Z) (add cmd len : Z) (n : nat)
  : option (list Z) := Some block.

(** A bus whose first two reads fail. *)
Definition shaky_bus (block : list Z) (add cmd len : Z) (n : nat)
  : option (list Z) := if (n <? 2)%nat then None else Some block.

(** The records of the retry kind. *)
Definition about_retries (e : level * message) : bool :=
  match e.2 with
  | Retried _ _ _ | FailedReads _ _ _ => true
  | _ => false
  end.

(** Computations that leave the queue as it is. *)
Definition queue_kept {A} (m : M A) : Prop :=
  ∀ self, _rxq (m self).2 = _rxq self.

(** ** Vocabulary of the further statements *)

(** A text that is not empty and neither begins nor ends with white
    space. *)
Definition trimmed (s : string) : Prop :=
  s ≠ "" ∧ lstrip s = s ∧ lstrip (String.rev s) = String.rev s.

(** The datacode that applies to [node] when its entry of the node list
    has no list of datacodes: the ['datacode'] of that entry, or else
    the ['datacode'] setting of the reader. *)
Definition applicable (c : ehc.t) (node : string) (self : interfacer)
  : option pyval :=
  match ehc.nodelist c !! node ≫= ehc.datacode with
  | Some d => Some d
  | None => _settings self !! "datacode"
  end.

(** The value that [_decode_frame] passes on for a numeric token when
    no datacode applies. *)
Definition passed (x : pyfloat) : pynum :=
  if has_fraction x then NFloat x else NInt (int_of_whole x).

(** Computations that change nothing but the log, by appending to it. *)
Definition log_only {A} (m : M A) : Prop :=
  ∀ self, ∃ new, (m self).2 = set_log (_log self ++ new)%list self.

(** The signal quality as [_process_frame] appends it to a frame: not at
    all when [self.rssi] is [False] or zero. *)
Definition signal_items (signal : option Z) : list pynum :=
  match signal with
  | Some v => if v =? 0 then [] else [NInt v]
  | None => []
  end.

(** The records that [_process_frame] writes about a decoded frame. *)
Definition frame_records (ref : Z) (timestamp : pyfloat)
    (decoded : list pynum) (signal : option Z) : list (level * message) :=
  [(DEBUG, FrameTimestamp ref timestamp);
   (DEBUG, FrameNode ref (head decoded));
   (DEBUG, FrameValues ref (tail decoded))]
  ++ match signal with
     | Some v => if v =? 0 then [] else [(DEBUG, FrameRSSI ref v)]
     | None => []
     end.

(** The keys of [self._defaults]. *)
Definition generic_keys : list string :=
  ["pause"; "interval"; "datacode"; "timestamped"].

(** The generic settings are all there, each with a value that passes
    the test of its key. *)
Definition well_configured (self : interfacer) : Prop :=
  (_defaults self).*1 = generic_keys
  ∧ ∀ key, key ∈ generic_keys →
      ∃ w, _settings self !! key = Some w ∧ valid_setting key w = true.

(** Computations that leave [self._defaults] and the generic settings as
    they are. *)
Definition generic_kept {A} (m : M A) : Prop :=
  ∀ self,
    _defaults (m self).2 = _defaults self
    ∧ ∀ key, key ∈ generic_keys →
        _settings (m self).2 !! key = _settings self !! key.

(** What is done to a reader during its life: [set] is called with
    keyword arguments, or the loop of [run] makes one turn. *)
Inductive call : Type :=
| Configure (kwargs : gmap string pyval)
| Turn (w : world).

Definition perform (c : ehc.t) (e : call) : M unit :=
  match e with
  | Configure kwargs => self_set kwargs
  | Turn w => run_once c w
  end.

(** The object after a sequence of calls, whatever each one returned or
    raised. *)
Fixpoint after (c : ehc.t) (calls : list call) (self : interfacer)
  : interfacer :=
  match calls with
  | [] => self
  | e :: rest => after c rest (perform c e self).2
  end.

(** Computations that leave a field of the object as it is. *)
Definition kept {A B} (field : interfacer → B) (m : M A) : Prop :=
  ∀ self, field (m self).2 = field self.

(** Successive calls of the first part of the socket [read], one for
    each item of [inputs], which is what [conn.recv] delivers at that
    call ([None] when no connection is pending): what each call hands
    over. *)
Fixpoint socket_polls (inputs : list (option string))
  : M (list (option string)) :=
  match inputs with
  | [] => ret []
  | received :: rest =>
      f <~ socket_poll received;
      fs <~ socket_polls rest;
      ret (f :: fs)
  end.

(** The text of [lines], each followed by the delimiter, then [rest]. *)
Definition framed (lines : list string) (rest : string) : string :=
  foldr (λ line acc, line +:+ CRLF +:+ acc) rest lines.

(** The bus settings that are stored pass the tests that
    [EmonHubTwiInterfacer.set] makes before it stores them. *)
Definition bus_configured (self : interfacer) : Prop :=
  ∀ key v, key ∈ ["deviceids"; "length"] →
    _settings self !! key = Some v → twi_valid key v = Ret true.

(** Successive calls of the first part of the serial [read], one for
    each item of [lines], which is what [self._ser.readline()] returns
    at that call: what each call hands over. *)
Fixpoint serial_polls (lines : list string) : M (list (option string)) :=
  match lines with
  | [] => ret []
  | line :: rest =>
      f <~ serial_poll line;
      fs <~ serial_polls rest;
      ret (f :: fs)
  end.

(** Computations that only add records to the log, none of which
    concerns the setting [key]. *)
Definition silent_about (key : string) {A} (m : M A) : Prop :=
  ∀ self, ∃ new,
    _log (m self).2 = (_log self ++ new)%list
    ∧ filter (λ e, about key e) new = [].

(** * Properties *)

(** ** The Python primitives on examples *)

Example strip_ex : strip " 10 23  " = "10 23".
Proof. reflexivity. Qed.
Example split_ex : split_char " " "10  23" = ["10"; ""; "23"].
Proof. reflexivity. Qed.
Example split_empty_ex : split_char " " "" = [""].
Proof. reflexivity. Qed.
Example int_ex : int_of_string " -62" = Some (-62).
Proof. reflexivity. Qed.
Example int_bad_ex : int_of_string "1.5" = None.
Proof. reflexivity. Qed.
Example float_ex : float_of_string "1.5" = Some (Ffin (3 # 2)).
Proof. reflexivity. Qed.
Example float_exp_ex : float_of_string "-2.50e1" = Some (Ffin (Qopp (25 # 1))).
Proof. reflexivity. Qed.
Example float_bad_ex : float_of_string "abc" = None.
Proof. reflexivity. Qed.
Example float_empty_ex : float_of_string "" = None.
Proof. reflexivity. Qed.
Example split1_ex : split1 "--" "ab--cd--e" = Some ("ab", "cd--e").
Proof. reflexivity. Qed.

(** ** The loop of [set] *)

Lemma set_item_run kwargs key dflt self :
  set_item kwargs (key, dflt) self =
    (Ret tt,
     set_log
       (_log self ++
        key_entries (name self) key (_settings self !! key)
          (default dflt (kwargs !! key)))%list
       (set_settings
          (key_settings key (default dflt (kwargs !! key)) (_settings self))
          self)).
Proof.
  unfold set_item, key_entries, key_settings, bind, get, modify, log, ret.
  destruct self; simpl.
  destruct (bool_decide _); simpl.
  - rewrite app_nil_r. reflexivity.
  - destruct (valid_setting _ _); reflexivity.
Qed.

Lemma key_settings_same key v m :
  key_settings key v m !! key = key_value key (m !! key) v.
Proof.
  unfold key_settings, key_value.
  destruct (bool_decide _); [done|].
  destruct (valid_setting _ _); [|done]. apply lookup_insert_eq.
Qed.

Lemma key_settings_other key k v m :
  key ≠ k → key_settings key v m !! k = m !! k.
Proof.
  intros Hne. unfold key_settings.
  destruct (bool_decide _); [done|].
  destruct (valid_setting _ _); [|done]. by apply lookup_insert_ne.
Qed.

Lemma key_entries_same nm key old v :
  filter (λ e, about key e) (key_entries nm key old v) = key_entries nm key old v.
Proof.
  unfold key_entries.
  destruct (bool_decide _); [done|].
  destruct (valid_setting _ _); cbn; unfold about; simpl;
    rewrite bool_decide_eq_true_2 by done; done.
Qed.

Lemma key_entries_other nm key k old v :
  key ≠ k → filter (λ e, about k e) (key_entries nm key old v) = [].
Proof.
  intros Hne. unfold key_entries.
  destruct (bool_decide _); [done|].
  destruct (valid_setting _ _); cbn; unfold about; simpl;
    rewrite bool_decide_eq_false_2 by done; done.
Qed.

Lemma for_each_cons {A} (body : A → M unit) x l self :
  for_each body (x :: l) self =
    match body x self with
    | (Ret _, self') => for_each body l self'
    | (Raise e, self') => (Raise e, self')
    end.
Proof. reflexivity. Qed.

(** The loop of [set] never raises; it touches the settings and the log
    only. *)

Lemma set_items_run kwargs items self :
  ∃ S new,
    for_each (set_item kwargs) items self =
      (Ret tt, set_log (_log self ++ new)%list (set_settings S self))
    ∧ (∀ k, k ∉ items.*1 →
         S !! k = _settings self !! k ∧ filter (λ e, about k e) new = [])
    ∧ (∀ k d, NoDup items.*1 → (k, d) ∈ items →
         let v := default d (kwargs !! k) in
         S !! k = key_value k (_settings self !! k) v
         ∧ filter (λ e, about k e) new
           = key_entries (name self) k (_settings self !! k) v).
Proof.
  revert self. induction items as [|[key dflt] items IH]; intros self.
  - exists (_settings self), []. split; [|split].
    + simpl. unfold ret. destruct self; simpl. by rewrite app_nil_r.
    + done.
    + intros k d _ Hin. by apply elem_of_nil in Hin.
  - rewrite for_each_cons, set_item_run.
    set (v0 := default dflt (kwargs !! key)).
    set (self1 := set_log _ _).
    destruct (IH self1) as (S & new & Hrun & Hother & Hkey).
    exists S, (key_entries (name self) key (_settings self !! key) v0 ++ new)%list.
    split; [|split].
    + rewrite Hrun. subst self1. destruct self; simpl. by rewrite app_assoc.
    + intros k Hk. apply not_elem_of_cons in Hk as [Hne Hk].
      destruct (Hother k Hk) as [HS Hnew]. split.
      * rewrite HS. subst self1. destruct self; simpl.
        by apply key_settings_other.
      * rewrite filter_app, Hnew, app_nil_r. by apply key_entries_other.
    + intros k d Hnd Hin v. apply NoDup_cons in Hnd as [Hfresh Hnd].
      apply elem_of_cons in Hin as [Heq|Hin].
      * injection Heq as -> ->.
        destruct (Hother key Hfresh) as [HS Hnew]. split.
        -- rewrite HS. subst self1. destruct self; simpl.
           apply key_settings_same.
        -- rewrite filter_app, Hnew, app_nil_r. apply key_entries_same.
      * assert (key ≠ k) as Hne.
        { intros ->. apply Hfresh. apply list_elem_of_fmap. by exists (k, d). }
        destruct (Hkey k d Hnd Hin) as [HS Hnew]. split.
        -- rewrite HS. subst self1. destruct self; simpl.
           by rewrite key_settings_other.
        -- rewrite filter_app, Hnew.
           rewrite key_entries_other by done. subst self1.
           destruct self; simpl. by rewrite key_settings_other.
Qed.

(** ** What the processing of a frame reads and changes *)

Lemma datacode_only_ret {A} (a : A) : datacode_only (ret a).
Proof. by intros self S _. Qed.

Lemma datacode_only_raise {A} e : datacode_only (@raise A e).
Proof. by intros self S _. Qed.

Lemma datacode_only_lift {A} (r : result A) : datacode_only (lift r).
Proof. by intros self S _. Qed.

Lemma datacode_only_bind {A B} (m : M A) (k : A → M B) :
  datacode_only m → (∀ a, datacode_only (k a)) → datacode_only (bind m k).
Proof.
  intros Hm Hk self S HS. unfold bind.
  destruct (Hm self S HS) as [-> Hsame].
  destruct (m self) as [[a|e] self1]; simpl in *; [|done].
  rewrite <- Hsame. apply Hk. by rewrite Hsame.
Qed.

Lemma datacode_only_log l msg : datacode_only (log l msg).
Proof. intros self S _. by destruct self. Qed.

Lemma datacode_only_rssi v : datacode_only (modify (set_rssi v)).
Proof. intros self S _. by destruct self. Qed.

Lemma datacode_only_count :
  datacode_only
    (modify (λ self, set_packet_counter (_packet_counter self + 1) self)).
Proof. intros self S _. by destruct self. Qed.

Lemma datacode_only_get_cls : datacode_only (get cls).
Proof. intros self S _. by destruct self. Qed.

Lemma datacode_only_get_rssi : datacode_only (get rssi).
Proof. intros self S _. by destruct self. Qed.

Lemma datacode_only_get_counter : datacode_only (get _packet_counter).
Proof. intros self S _. by destruct self. Qed.

Lemma datacode_only_setting : datacode_only (setting "datacode").
Proof.
  intros self S HS. unfold setting.
  replace (_settings (set_settings S self)) with S by by destruct self.
  rewrite HS. by destruct (_settings self !! "datacode").
Qed.

Ltac datacode_only_step :=
  first
    [ apply datacode_only_bind; [|intros ?]
    | apply datacode_only_ret
    | apply datacode_only_raise
    | apply datacode_only_lift
    | apply datacode_only_log
    | apply datacode_only_rssi
    | apply datacode_only_count
    | apply datacode_only_get_cls
    | apply datacode_only_get_rssi
    | apply datacode_only_get_counter
    | apply datacode_only_setting
    | match goal with
      | |- datacode_only (match ?x with _ => _ end) => destruct x
      | |- datacode_only (if ?x then _ else _) => destruct x
      | |- datacode_only (let '(_, _) := ?x in _) => destruct x
      end ].

Lemma datacode_only_validate ref received :
  datacode_only (_validate_frame ref received).
Proof. unfold _validate_frame. repeat datacode_only_step. Qed.

Lemma datacode_only_jee_validate ref received :
  datacode_only (jee_validate_frame ref received).
Proof.
  unfold jee_validate_frame.
  repeat first [apply datacode_only_validate | datacode_only_step].
Qed.

Lemma datacode_only_self_validate ref received :
  datacode_only (self_validate_frame ref received).
Proof.
  unfold self_validate_frame.
  repeat first
    [apply datacode_only_validate | apply datacode_only_jee_validate
    | datacode_only_step].
Qed.

Lemma datacode_only_decode c ref data :
  datacode_only (_decode_frame c ref data).
Proof. unfold _decode_frame. repeat datacode_only_step. Qed.

Lemma datacode_only_process c now frame timestamp :
  datacode_only (process c now frame timestamp).
Proof.
  unfold process, assemble.
  repeat first
    [apply datacode_only_self_validate | apply datacode_only_decode
    | datacode_only_step].
Qed.

(** Computations that change nothing but the log, by appending to it,
    and [self.rssi]. *)

Lemma footprint_pure {A} (x : result A) : footprint (λ self, (x, self)).
Proof.
  intros self. exists [], (rssi self). destruct self; simpl.
  by rewrite app_nil_r.
Qed.

Lemma footprint_ret {A} (a : A) : footprint (ret a).
Proof. apply footprint_pure. Qed.

Lemma footprint_raise {A} e : footprint (@raise A e).
Proof. apply footprint_pure. Qed.

Lemma footprint_lift {A} (r : result A) : footprint (lift r).
Proof. apply footprint_pure. Qed.

Lemma footprint_bind {A B} (m : M A) (k : A → M B) :
  footprint m → (∀ a, footprint (k a)) → footprint (bind m k).
Proof.
  intros Hm Hk self. unfold bind.
  destruct (Hm self) as (new & r & Hself1).
  destruct (m self) as [[a|e] self1]; simpl in *.
  - destruct (Hk a self1) as (new' & r' & ->). subst self1.
    exists (new ++ new')%list, r'. destruct self; simpl. by rewrite app_assoc.
  - by exists new, r.
Qed.

Lemma footprint_log l msg : footprint (log l msg).
Proof. intros self. exists [(l, msg)], (rssi self). by destruct self. Qed.

Lemma footprint_rssi v : footprint (modify (set_rssi v)).
Proof.
  intros self. exists [], v. destruct self; simpl. by rewrite app_nil_r.
Qed.

Lemma footprint_get {A} (field : interfacer → A) : footprint (get field).
Proof.
  intros self. exists [], (rssi self). destruct self; simpl.
  by rewrite app_nil_r.
Qed.

Lemma footprint_setting key : footprint (setting key).
Proof.
  intros self. exists [], (rssi self). unfold setting.
  destruct (_settings self !! key); destruct self; simpl; by rewrite app_nil_r.
Qed.

Ltac footprint_step :=
  first
    [ apply footprint_bind; [|intros ?]
    | apply footprint_ret
    | apply footprint_raise
    | apply footprint_lift
    | apply footprint_log
    | apply footprint_rssi
    | apply footprint_get
    | apply footprint_setting
    | match goal with
      | |- footprint (match ?x with _ => _ end) => destruct x
      | |- footprint (if ?x then _ else _) => destruct x
      end ].

Lemma footprint_validate ref received : footprint (_validate_frame ref received).
Proof. unfold _validate_frame. repeat footprint_step. Qed.

Lemma footprint_self_validate ref received :
  footprint (self_validate_frame ref received).
Proof.
  unfold self_validate_frame, jee_validate_frame.
  repeat first [apply footprint_validate | footprint_step].
Qed.

Lemma footprint_decode c ref data : footprint (_decode_frame c ref data).
Proof. unfold _decode_frame. repeat footprint_step. Qed.

Lemma footprint_assemble c ref timestamp received :
  footprint (assemble c ref timestamp received).
Proof.
  unfold assemble.
  repeat first
    [apply footprint_self_validate | apply footprint_decode | footprint_step].
Qed.

(** [process] counts the frame, logs it, and then changes nothing but the
    log and [self.rssi]. *)

Lemma process_footprint c now frame timestamp self :
  ∃ new r,
    (process c now frame timestamp self).2 =
      set_rssi r
        (set_log
           (_log self ++
            (DEBUG, NewFrame (_packet_counter self + 1)
                      (if float_is_zero timestamp then now else timestamp)
                      frame) :: new)%list
           (set_packet_counter (_packet_counter self + 1) self)).
Proof.
  unfold process.
  set (ts := if float_is_zero timestamp then now else timestamp).
  set (ref := _packet_counter self + 1).
  set (self1 := set_rssi None
     (set_log (_log self ++ [(DEBUG, NewFrame ref ts frame)])%list
        (set_packet_counter ref self))).
  destruct (footprint_assemble c ref ts (split_char " " (strip frame)) self1)
    as (new & r & Hnew).
  exists new, r.
  change (bind _ _ self) with
    (assemble c ref ts (split_char " " (strip frame)) self1).
  rewrite Hnew. subst self1. destruct self; simpl.
  by rewrite <- app_assoc.
Qed.

(** ** The pause setting *)

Lemma paused_in_run self :
  paused_in self =
    (match _settings self !! "pause" with
     | None => Ret false
     | Some v => s ← str_lower v; Ret (bool_decide (s ∈ ["all"; "in"]))
     end, self).
Proof.
  unfold paused_in, bind, get, lift, ret.
  destruct (_settings self !! "pause") as [[]|]; reflexivity.
Qed.

Lemma paused_out_run self :
  paused_out self =
    (Ret (match _settings self !! "pause" with
          | None => false
          | Some v => bool_decide (lower (str v) ∈ ["all"; "out"])
          end), self).
Proof.
  unfold paused_out, bind, get, ret.
  destruct (_settings self !! "pause"); reflexivity.
Qed.

Lemma process_frame_run c now frame timestamp self :
  _process_frame c now frame timestamp self =
    match paused_in self with
    | (Ret true, self') => (Ret None, self')
    | (Ret false, self') =>
        match process c now frame timestamp self' with
        | (Ret (Some complete), self'') =>
            match paused_out self'' with
            | (Ret true, s) => (Ret None, s)
            | (Ret false, s) => (Ret (Some complete), s)
            | (Raise e, s) => (Raise e, s)
            end
        | (Ret None, self'') => (Ret None, self'')
        | (Raise e, self'') => (Raise e, self'')
        end
    | (Raise e, self') => (Raise e, self')
    end.
Proof.
  unfold _process_frame, bind at 1.
  destruct (paused_in self) as [[[]|] self']; try reflexivity.
  unfold bind at 1.
  destruct (process _ _ _ _ self') as [[[complete|]|] self'']; try reflexivity.
  unfold bind.
  destruct (paused_out self'') as [[[]|] s]; reflexivity.
Qed.

(** C5. With ['pause'] set to ['all'] or ['in'] (in any letter case)
    [_process_frame] returns [None] and leaves the object untouched: no
    reference number, no log record, no validation.  With ['pause'] set to
    ['out'] it does to the object exactly what it does when the pause is
    ['off'] (the counter goes up by one, the frame is logged, validated
    and decoded) and returns [None] where the unpaused call returns its
    result. *)
Theorem process_frame_pause c now frame timestamp self p :
  _settings self !! "pause" = Some (PStr p) →
  (lower p ∈ ["all"; "in"] →
     _process_frame c now frame timestamp self = (Ret None, self))
  ∧ (lower p = "out" →
     let unpaused :=
       set_settings (<["pause" := PStr "off"]> (_settings self)) self in
     let unpaused_run := _process_frame c now frame timestamp unpaused in
     _process_frame c now frame timestamp self
       = (withheld unpaused_run.1, set_settings (_settings self) unpaused_run.2)
     ∧ _packet_counter unpaused_run.2 = _packet_counter self + 1
     ∧ ∃ new,
         _log unpaused_run.2 =
           (_log self ++
            (DEBUG, NewFrame (_packet_counter self + 1)
                      (if float_is_zero timestamp then now else timestamp)
                      frame) :: new)%list).
Proof.
  intros Hp. split.
  - intros Hin. rewrite process_frame_run, paused_in_run, Hp. simpl.
    by rewrite bool_decide_eq_true_2.
  - intros Hout unpaused unpaused_run.
    assert (_settings unpaused !! "pause" = Some (PStr "off")) as Hoff.
    { subst unpaused. destruct self; simpl. apply lookup_insert_eq. }
    assert (set_settings (_settings self) unpaused = self) as Hback.
    { subst unpaused. by destruct self. }
    assert (_settings self !! "datacode" = _settings unpaused !! "datacode")
      as Hdc.
    { subst unpaused. destruct self; simpl. by rewrite lookup_insert_ne. }
    destruct (datacode_only_process c now frame timestamp unpaused
                (_settings self) Hdc) as [Hrun Hkeep].
    rewrite Hback in Hrun.
    destruct (process_footprint c now frame timestamp unpaused)
      as (new & r & Hfoot).
    assert (unpaused_run = (match (process c now frame timestamp unpaused).1 with
                    | Ret x => Ret x
                    | Raise e => Raise e
                    end, (process c now frame timestamp unpaused).2)) as Hdone.
    { subst unpaused_run. rewrite process_frame_run, paused_in_run, Hoff. simpl.
      destruct (process c now frame timestamp unpaused)
        as [[[complete|]|e] self''] eqn:Heq; simpl in *; try reflexivity.
      rewrite paused_out_run, Hkeep, Hoff. reflexivity. }
    split; [|split].
    + rewrite Hdone. simpl.
      rewrite process_frame_run, paused_in_run, Hp. simpl.
      rewrite Hout. simpl. rewrite Hrun.
      destruct (process c now frame timestamp unpaused)
        as [[[complete|]|e] self''] eqn:Heq; simpl in *; try reflexivity.
      rewrite paused_out_run.
      replace (_settings (set_settings (_settings self) self''))
        with (_settings self) by by destruct self''.
      rewrite Hp. simpl. rewrite Hout. reflexivity.
    + rewrite Hdone. simpl. rewrite Hfoot. subst unpaused. by destruct self.
    + exists new. rewrite Hdone. simpl. rewrite Hfoot. subst unpaused.
      by destruct self.
Qed.

Lemma process_frame_pause_witness :
  let now := Ffin 100 in
  let held :=
    (set {[ "pause" := PStr "Out" ]} (new Serial "serial" "")).2 in
  let deaf :=
    (set {[ "pause" := PStr "in" ]} (new Serial "serial" "")).2 in
  (_settings held !! "pause" = Some (PStr "Out") ∧ lower "Out" = "out"
   ∧ _settings deaf !! "pause" = Some (PStr "in"))
  ∧ _process_frame plain_codec now "10 23 45" (Ffin 100) deaf
    = (Ret None, deaf)
  ∧ (_process_frame plain_codec now "10 23 45" (Ffin 100) held).1 = Ret None
  ∧ _packet_counter
      (_process_frame plain_codec now "10 23 45" (Ffin 100) held).2 = 1.
Proof.
  intros now held deaf.
  assert (_settings held !! "pause" = Some (PStr "Out")) as Hheld
    by by vm_compute.
  assert (_settings deaf !! "pause" = Some (PStr "in")) as Hdeaf
    by by vm_compute.
  split; [done|]. split.
  - destruct (process_frame_pause plain_codec now "10 23 45" (Ffin 100) deaf
                "in" Hdeaf) as [Hin _].
    apply Hin. apply (bool_decide_unpack _). by vm_compute.
  - destruct (process_frame_pause plain_codec now "10 23 45" (Ffin 100) held
                "Out" Hheld) as [_ Hout].
    specialize (Hout eq_refl). cbv zeta in Hout.
    destruct Hout as (Hrun & Hcount & _).
    rewrite Hrun. split; by vm_compute.
Defined.

(** ** The generic settings *)

Lemma generic_keys_valid_sound m key w :
  generic_keys_valid m = true →
  key ∈ ["pause"; "interval"; "datacode"; "timestamped"] →
  m !! key = Some w → valid_setting key w = true.
Proof.
  unfold generic_keys_valid. rewrite forallb_forall.
  intros Hall Hkey Hw. apply list_elem_of_In in Hkey.
  specialize (Hall key Hkey). by rewrite Hw in Hall.
Qed.

(** The settings are valid when the object is built. *)
Lemma new_settings_valid k nm info : settings_valid (new k nm info).
Proof.
  intros key w Hkey.
  assert (key ∈ ["pause"; "interval"; "datacode"; "timestamped"]) as Hk.
  { destruct k; exact Hkey. }
  clear Hkey. unfold new. cbn [_settings].
  destruct k; try destruct (all_markers info);
    apply generic_keys_valid_sound; try done; by vm_compute.
Qed.
Lemma set_run kwargs self :
  ∃ S new,
    set kwargs self =
      (Ret tt, set_log (_log self ++ new)%list (set_settings S self))
    ∧ (∀ k, k ∉ (_defaults self).*1 →
         S !! k = _settings self !! k ∧ filter (λ e, about k e) new = [])
    ∧ (∀ k d, NoDup (_defaults self).*1 → (k, d) ∈ _defaults self →
         let v := default d (kwargs !! k) in
         S !! k = key_value k (_settings self !! k) v
         ∧ filter (λ e, about k e) new
           = key_entries (name self) k (_settings self !! k) v).
Proof.
  unfold set, bind, get. apply set_items_run.
Qed.

Lemma settings_after_set S L self :
  _settings (set_log L (set_settings S self)) = S.
Proof. by destruct self. Qed.

Lemma defaults_after_set S L self :
  _defaults (set_log L (set_settings S self)) = _defaults self.
Proof. by destruct self. Qed.

Lemma set_keeps_valid kwargs self :
  NoDup (_defaults self).*1 →
  settings_valid self → settings_valid (set kwargs self).2.
Proof.
  intros Hnd Hvalid key w.
  destruct (set_run kwargs self) as (S & new & Hrun & _ & Hk).
  rewrite Hrun. cbn [snd]. rewrite settings_after_set, defaults_after_set.
  intros Hkey.
  apply list_elem_of_fmap in Hkey as [[k d] [-> Hin]]. simpl.
  destruct (Hk k d Hnd Hin) as [-> _].
  unfold key_value. case_bool_decide as Hsame.
  - intros Hw. eapply Hvalid; [|done]. apply list_elem_of_fmap.
    by exists (k, d).
  - destruct (valid_setting k _) eqn:Hok.
    + by intros [= <-].
    + intros Hw. eapply Hvalid; [|done]. apply list_elem_of_fmap.
      by exists (k, d).
Qed.

(** A key of [self._defaults] that the keyword arguments do not mention
    is given its default again. *)
Lemma set_absent_key kwargs self key dflt :
  NoDup (_defaults self).*1 →
  (key, dflt) ∈ _defaults self →
  kwargs !! key = None →
  valid_setting key dflt = true →
  (set kwargs self).1 = Ret tt
  ∧ _settings (set kwargs self).2 !! key = Some dflt.
Proof.
  intros Hnd Hin Hkw Hok.
  destruct (set_run kwargs self) as (S & new & Hrun & _ & Hk).
  rewrite Hrun. cbn [fst snd]. split; [done|].
  rewrite settings_after_set.
  destruct (Hk key dflt Hnd Hin) as [-> _].
  rewrite Hkw. simpl. unfold key_value. rewrite Hok.
  by case_bool_decide.
Qed.

(** ** Per-value decoding *)

Lemma decode_values_per_value c pre datacodes data bytepos :
  decode_values c (PInt 0) (pre ++ datacodes)%list data
      (length datacodes) (length pre) bytepos
    = Ret (per_value c datacodes (drop bytepos data)).
Proof.
  revert pre bytepos. induction datacodes as [|dc rest IH]; intros pre bytepos.
  - reflexivity.
  - cbn [length decode_values per_value].
    change (truthy (PInt 0)) with false. cbv iota.
    rewrite list_lookup_middle by done.
    destruct (mapM int_of_string _ ≫= ehc.decode c dc) as [value|]; [|done].
    replace (pre ++ dc :: rest)%list with ((pre ++ [dc]) ++ rest)%list
      by by rewrite <- app_assoc.
    replace (S (length pre)) with (length (pre ++ [dc])%list)
      by (rewrite length_app; simpl; lia).
    rewrite IH, drop_drop. simpl.
    by destruct (per_value c rest _).
Qed.

Lemma per_value_length c datacodes data values :
  per_value c datacodes data = Some values →
  length values = length datacodes.
Proof.
  revert data values. induction datacodes as [|dc rest IH]; intros data values.
  - by intros [= <-].
  - simpl. destruct (mapM int_of_string _ ≫= ehc.decode c dc); [|done].
    simpl. destruct (per_value c rest _) eqn:Hrest; [|done].
    intros [= <-]. simpl. f_equal. by eapply IH.
Qed.

(** C1, amended. For a node with a list of datacodes of total width [W]:
    a payload whose length is not [W] is rejected with the warning about
    the data length (nothing else happens); a payload of length [W] whose
    slices all decode gives the integer node id followed by exactly as
    many values as there are datacodes ([int] raises when the node token
    is no integer); a payload of length [W] with a slice that does not
    decode is rejected with a warning. *)
Theorem decode_frame_per_value c ref node data datacodes self :
  ehc.nodelist c !! node ≫= ehc.datacodes = Some datacodes →
  let W := sum_list (ehc.check_datacode c <$> datacodes) in
  (length data ≠ W →
     _decode_frame c ref (node :: data) self =
       (Ret None,
        set_log (_log self ++
                 [(WARNING,
                   LengthNotValidForDatacodes ref (length data) datacodes)])%list
          self))
  ∧ (length data = W →
     match per_value c datacodes data with
     | Some values =>
         length values = length datacodes
         ∧ (∀ n, int_of_string node = Some n →
              _decode_frame c ref (node :: data) self =
                (Ret (Some (NInt n :: values)), self))
         ∧ (int_of_string node = None →
              _decode_frame c ref (node :: data) self
                = (Raise ValueError, self))
     | None =>
         _decode_frame c ref (node :: data) self =
           (Ret None,
            set_log (_log self ++ [(WARNING, UnableToDecode ref)])%list self)
     end).
Proof.
  intros Hnode W. unfold _decode_frame. rewrite Hnode. fold W. split.
  - intros Hlen. unfold bind, log, modify, ret.
    rewrite (proj2 (Nat.eqb_neq _ _) Hlen). reflexivity.
  - intros Hlen. unfold bind, log, modify, ret, raise, lift.
    rewrite (proj2 (Nat.eqb_eq _ _) Hlen). simpl.
    pose proof (decode_values_per_value c [] datacodes data 0) as Hloop.
    change (drop 0 data) with data in Hloop. simpl in Hloop. rewrite Hloop.
    destruct (per_value c datacodes data) as [values|] eqn:Hvalues.
    + split; [by eapply per_value_length|]. split.
      * intros n Hn. by rewrite Hn.
      * intros Hn. by rewrite Hn.
    + reflexivity.
Qed.

(** C1: a counterexample.  Node 10 has one datacode, of width one, and
    the payload has one value: the token [1.5], which the validation
    accepts as a number and which [int] refuses, and the token [300],
    which is no byte.  Both frames are rejected. *)
Lemma decode_frame_per_value_counterexample :
  let W := sum_list (ehc.check_datacode byte_codec <$> [PStr "b"]) in
  let self := new Serial "serial" "" in
  ehc.nodelist byte_codec !! "10" ≫= ehc.datacodes = Some [PStr "b"]
  ∧ length ["1.5"] = W
  ∧ (_validate_frame 1 ["10"; "1.5"] self).1 = Ret (Some ["10"; "1.5"])
  ∧ (_decode_frame byte_codec 1 ["10"; "1.5"] self).1 = Ret None
  ∧ (_decode_frame byte_codec 1 ["10"; "300"] self).1 = Ret None.
Proof. by vm_compute. Qed.

Lemma decode_frame_per_value_witness :
  let c := Coder.with_nodes
             {[ "10" := ehc.Node None (Some [PStr "h"; PStr "b"]) ]} in
  let self := new Serial "serial" "" in
  ehc.nodelist c !! "10" ≫= ehc.datacodes = Some [PStr "h"; PStr "b"]
  ∧ _decode_frame c 1 ["10"; "1"; "2"; "255"] self
    = (Ret (Some [NInt 10; NInt 513; NInt (-1)]), self)
  ∧ _decode_frame c 1 ["10"; "1"; "2"] self
    = (Ret None,
       set_log [(WARNING,
                 LengthNotValidForDatacodes 1 2 [PStr "h"; PStr "b"])] self).
Proof.
  intros c self.
  assert (ehc.nodelist c !! "10" ≫= ehc.datacodes = Some [PStr "h"; PStr "b"])
    as Hnode by reflexivity.
  split; [exact Hnode|]. split.
  - destruct (decode_frame_per_value c 1 "10" ["1"; "2"; "255"]
                [PStr "h"; PStr "b"] self Hnode) as [_ Hdecoded].
    specialize (Hdecoded eq_refl).
    change (per_value c [PStr "h"; PStr "b"] ["1"; "2"; "255"])
      with (Some [NInt 513; NInt (-1)]) in Hdecoded.
    destruct Hdecoded as (_ & Hdecoded & _). apply (Hdecoded 10). reflexivity.
  - destruct (decode_frame_per_value c 1 "10" ["1"; "2"]
                [PStr "h"; PStr "b"] self Hnode) as [Hshort _].
    apply Hshort. discriminate.
Defined.

(** ** The bus reader *)

Lemma process_frame_footprint c now frame timestamp self :
  ∃ new r n,
    (_process_frame c now frame timestamp self).2 =
      set_rssi r (set_log (_log self ++ new)%list (set_packet_counter n self)).
Proof.
  assert (∃ new r n,
    self = set_rssi r (set_log (_log self ++ new)%list (set_packet_counter n self)))
    as Hself.
  { exists [], (rssi self), (_packet_counter self). destruct self; simpl.
    by rewrite app_nil_r. }
  rewrite process_frame_run, paused_in_run.
  destruct (match _settings self !! "pause" with
            | Some v => _ | None => _ end) as [[]|]; simpl; try done.
  destruct (process_footprint c now frame timestamp self) as (new & r & Hfoot).
  assert (∃ new r n, (process c now frame timestamp self).2 =
    set_rssi r (set_log (_log self ++ new)%list (set_packet_counter n self)))
    as Hprocess by eauto.
  destruct (process c now frame timestamp self) as [[[complete|]|e] self1];
    simpl in *; try done.
  rewrite paused_out_run. by destruct (match _settings self1 !! "pause" with
    | Some v => _ | None => _ end).
Qed.

(** The retry loop, from [retry] failures on, with the fuel that is left
    for it. *)
Lemma read_retry_exhausted attempt fuel retry :
  (fuel + retry = max_retry)%nat →
  (∀ n, (retry ≤ n < max_retry)%nat → attempt n = None) →
  read_retry attempt fuel retry = ([], max_retry).
Proof.
  revert retry. induction fuel as [|fuel IH]; intros retry Hsum Hfail.
  - simpl in *. by subst.
  - simpl. rewrite (proj2 (Nat.ltb_lt _ _)) by lia.
    rewrite Hfail by lia. apply IH; [lia|].
    intros n Hn. apply Hfail. lia.
Qed.

Lemma read_retry_success attempt fuel retry k block :
  (fuel + retry = max_retry)%nat →
  (retry ≤ k < max_retry)%nat →
  (∀ n, (retry ≤ n < k)%nat → attempt n = None) →
  attempt k = Some block →
  read_retry attempt fuel retry = (block, k).
Proof.
  revert retry. induction fuel as [|fuel IH]; intros retry Hsum Hk Hfail Hok.
  - simpl in *. lia.
  - simpl. rewrite (proj2 (Nat.ltb_lt _ _)) by lia.
    destruct (decide (retry = k)) as [->|Hne].
    + by rewrite Hok.
    + rewrite Hfail by lia. apply IH; [lia|lia| |done].
      intros n Hn. apply Hfail. lia.
Qed.

(** The loop never needs more fuel than [max_retry]: with more, it ends
    in the same way. *)
Lemma read_retry_fuel attempt fuel retry :
  (max_retry ≤ fuel + retry)%nat →
  read_retry attempt fuel retry =
    read_retry attempt (max_retry - retry) retry.
Proof.
  revert retry. induction fuel as [|fuel IH]; intros retry Hsum.
  - simpl in *. by replace (max_retry - retry)%nat with O by lia.
  - simpl. destruct (retry <? max_retry)%nat eqn:Hlt.
    + apply Nat.ltb_lt in Hlt.
      replace (max_retry - retry)%nat with (S (max_retry - S retry)) by lia.
      simpl. rewrite (proj2 (Nat.ltb_lt _ _) Hlt).
      destruct (attempt retry); [done|]. apply IH. lia.
    + apply Nat.ltb_ge in Hlt.
      by replace (max_retry - retry)%nat with O by lia.
Qed.

(** Reads beyond the fifth are never made. *)
Lemma read_retry_ext attempt attempt' fuel retry :
  (∀ n, (n < max_retry)%nat → attempt' n = attempt n) →
  read_retry attempt' fuel retry = read_retry attempt fuel retry.
Proof.
  intros Hext. revert retry. induction fuel as [|fuel IH]; intros retry.
  - done.
  - simpl. destruct (retry <? max_retry)%nat eqn:Hlt; [|done].
    apply Nat.ltb_lt in Hlt. rewrite Hext by done.
    destruct (attempt retry); [done|]. apply IH.
Qed.

Lemma read_retry_bound attempt fuel retry :
  ((read_retry attempt fuel retry).2 ≤ max retry max_retry)%nat.
Proof.
  revert retry. induction fuel as [|fuel IH]; intros retry.
  - simpl. lia.
  - simpl. destruct (retry <? max_retry)%nat eqn:Hlt; [|simpl; lia].
    apply Nat.ltb_lt in Hlt.
    destruct (attempt retry); [simpl; lia|].
    specialize (IH (S retry)). lia.
Qed.

Lemma twi_read_device_run c t now bus b self add ln len :
  int b = Ret add →
  _settings self !! "length" = Some ln →
  int ln = Ret len →
  twi_read_device c t now bus b self =
    let '(frame, retry) := read_retry (bus add 0 len) max_retry 0 in
    match (match frame with
           | [] => (Ret tt, self)
           | _ :: _ =>
               match _process_frame c now (twi_frame b frame) (Ffin t) self with
               | (Ret values, self1) =>
                   (Ret tt, set_rxq (_rxq self1 ++ [values])%list self1)
               | (Raise e, self1) => (Raise e, self1)
               end
           end) with
    | (Ret _, self2) =>
        (Ret tt,
         if (retry =? 0)%nat then self2
         else if (retry =? max_retry)%nat then
           set_log (_log self2 ++
                    [(WARNING,
                      FailedReads (name self2) add (Z.of_nat max_retry))])%list
             self2
         else log_retries (name self2) add retry self2)
    | (Raise e, self2) => (Raise e, self2)
    end.
Proof.
  intros Hb Hln Hlen. unfold twi_read_device.
  unfold bind at 1. unfold lift at 1. rewrite Hb.
  unfold bind at 1. unfold setting at 1. rewrite Hln.
  unfold bind at 1. unfold lift at 1. rewrite Hlen.
  destruct (read_retry (bus add 0 len) max_retry 0) as [frame retry].
  unfold bind at 1.
  destruct frame as [|x frame].
  - unfold ret at 1. unfold bind, get, log, modify, ret, log_retries.
    destruct (retry =? 0)%nat; simpl; [by destruct self|].
    by destruct (retry =? max_retry)%nat.
  - unfold bind at 1. unfold twi_frame.
    destruct (_process_frame c now _ (Ffin t) self) as [[values|e] self1];
      [|done].
    unfold put, modify at 1.
    unfold bind, get, log, modify, ret, log_retries.
    destruct (retry =? 0)%nat; simpl; [by destruct self1|].
    by destruct (retry =? max_retry)%nat.
Qed.

(** C6, amended. One device of one poll cycle, its address and the block
    length being the integers that [set] has validated.  The block read is made
    five times at most (the loop ends within its five turns, and reads
    after the fifth are never looked at).  When the five reads fail,
    nothing is raised, the warning about the failed reads is logged, and
    nothing else happens: no frame, nothing on the queue.  When a read
    succeeds after [k < 5] failures and brings a block (of one byte at
    least), the frame made of the device and the block goes once through
    [_process_frame], what this returns is the one item put on the queue,
    and the debug record of the [k] retries follows when [k] is not
    zero. *)
Theorem twi_read_device_retries c t now bus b self add ln len :
  int b = Ret add →
  _settings self !! "length" = Some ln →
  int ln = Ret len →
  let attempt := bus add 0 len in
  ((read_retry attempt max_retry 0).2 ≤ 5)%nat
  ∧ (∀ fuel, (5 ≤ fuel)%nat →
       read_retry attempt fuel 0 = read_retry attempt max_retry 0)
  ∧ (∀ bus', (∀ n, (n < 5)%nat → bus' add 0 len n = attempt n) →
       twi_read_device c t now bus' b self = twi_read_device c t now bus b self)
  ∧ ((∀ n, (n < 5)%nat → attempt n = None) →
       twi_read_device c t now bus b self =
         (Ret tt,
          set_log (_log self ++ [(WARNING, FailedReads (name self) add 5)])%list
            self))
  ∧ (∀ k block,
       (k < 5)%nat →
       (∀ n, (n < k)%nat → attempt n = None) →
       attempt k = Some block →
       block ≠ [] →
       ∃ outcome self1,
         _process_frame c now (twi_frame b block) (Ffin t) self
           = (outcome, self1)
         ∧ _rxq self1 = _rxq self
         ∧ twi_read_device c t now bus b self =
             match outcome with
             | Ret values =>
                 (Ret tt,
                  log_retries (name self) add k
                    (set_rxq (_rxq self ++ [values])%list self1))
             | Raise e => (Raise e, self1)
             end).
Proof.
  intros Hb Hln Hlen attempt. split; [|split; [|split; [|split]]].
  - apply (read_retry_bound attempt max_retry 0).
  - intros fuel Hfuel. rewrite read_retry_fuel by (unfold max_retry; lia).
    by rewrite Nat.sub_0_r.
  - intros bus' Hext.
    rewrite !(twi_read_device_run _ _ _ _ _ _ add ln len) by done.
    rewrite (read_retry_ext attempt (bus' add 0 len)); [done|].
    intros n Hn. apply Hext. unfold max_retry in Hn. lia.
  - intros Hfail.
    rewrite (twi_read_device_run _ _ _ _ _ _ add ln len) by done.
    fold attempt. rewrite (read_retry_exhausted attempt max_retry 0).
    + reflexivity.
    + lia.
    + intros n Hn. apply Hfail. unfold max_retry in Hn. lia.
  - intros k block Hk Hfail Hok Hblock.
    destruct (_process_frame c now (twi_frame b block) (Ffin t) self)
      as [outcome self1] eqn:Hrun.
    exists outcome, self1. split; [done|].
    destruct (process_frame_footprint c now (twi_frame b block) (Ffin t) self)
      as (new & r & n & Hfoot).
    rewrite Hrun in Hfoot. simpl in Hfoot.
    assert (_rxq self1 = _rxq self) as Hq by (subst self1; by destruct self).
    assert (name self1 = name self) as Hname by (subst self1; by destruct self).
    split; [done|].
    rewrite (twi_read_device_run _ _ _ _ _ _ add ln len) by done.
    fold attempt. rewrite (read_retry_success attempt max_retry 0 k block);
      [|unfold max_retry; lia|unfold max_retry; lia
       |intros m Hm; apply Hfail; lia|done].
    destruct block as [|x block]; [done|].
    rewrite Hrun. destruct outcome as [values|e]; [|done].
    replace (name (set_rxq _ self1)) with (name self)
      by (rewrite <- Hname; by destruct self1).
    rewrite Hq. unfold log_retries.
    destruct (k =? 0)%nat eqn:Hk0; [done|].
    rewrite (proj2 (Nat.eqb_neq k max_retry)) by (unfold max_retry; lia).
    reflexivity.
Qed.

(** C6: a counterexample.  The block length is set to zero, the first
    read succeeds and brings the empty block: no frame is made, nothing
    is put on the queue.  And a first read that succeeds with four bytes
    produces its frame without any record about retries. *)
Lemma twi_read_device_retries_counterexample :
  let now := Ffin 100 in
  _settings empty_bus !! "length" = Some (PStr "0")
  ∧ steady_bus [] 8 0 0 O = Some []
  ∧ twi_read_device plain_codec 100 now (steady_bus []) (PStr "8") empty_bus
    = (Ret tt, empty_bus)
  ∧ let after :=
      (twi_read_device plain_codec 100 now (steady_bus [1; 2; 3; 4])
         (PStr "8") paused_bus).2 in
    _rxq after = [None]
    ∧ filter (λ e, about_retries e) (_log after) = [].
Proof. by vm_compute. Qed.

Lemma twi_read_device_retries_witness :
  let now := Ffin 100 in
  let bus := shaky_bus [1; 2; 3; 4] in
  let dead : Z → Z → Z → nat → option (list Z) := λ _ _ _ _, None in
  (int (PStr "8") = Ret 8
   ∧ _settings paused_bus !! "length" = Some (PStr "4")
   ∧ int (PStr "4") = Ret 4)
  ∧ twi_read_device plain_codec 100 now dead (PStr "8") paused_bus
    = (Ret tt,
       set_log (_log paused_bus ++ [(WARNING, FailedReads "twi" 8 5)])%list
         paused_bus)
  ∧ ∃ outcome self1,
      _process_frame plain_codec now (twi_frame (PStr "8") [1; 2; 3; 4])
        (Ffin 100) paused_bus = (outcome, self1)
      ∧ _rxq self1 = _rxq paused_bus
      ∧ twi_read_device plain_codec 100 now bus (PStr "8") paused_bus =
          match outcome with
          | Ret values =>
              (Ret tt,
               log_retries (name paused_bus) 8 2
                 (set_rxq (_rxq paused_bus ++ [values])%list self1))
          | Raise e => (Raise e, self1)
          end.
Proof.
  intros now bus dead.
  assert (_settings paused_bus !! "length" = Some (PStr "4")) as Hln
    by by vm_compute.
  split; [done|]. split.
  - destruct (twi_read_device_retries plain_codec 100 now dead (PStr "8")
                paused_bus 8 (PStr "4") 4 eq_refl Hln eq_refl)
      as (_ & _ & _ & Hfail & _).
    by apply Hfail.
  - destruct (twi_read_device_retries plain_codec 100 now bus (PStr "8")
                paused_bus 8 (PStr "4") 4 eq_refl Hln eq_refl)
      as (_ & _ & _ & _ & Hsuccess).
    apply (Hsuccess 2%nat [1; 2; 3; 4]).
    + lia.
    + intros n Hn. unfold bus, shaky_bus.
      by rewrite (proj2 (Nat.ltb_lt n 2) Hn).
    + reflexivity.
    + discriminate.
Defined.

(** ** Strings *)

Lemma append_cons a s t : String a s +:+ t = String a (s +:+ t).
Proof. reflexivity. Qed.

Lemma append_nil_l t : "" +:+ t = t.
Proof. reflexivity. Qed.

Lemma append_nil_r s : s +:+ "" = s.
Proof.
  induction s as [|a s IH]; [done|]. by rewrite append_cons, IH.
Qed.

Lemma append_assoc s1 s2 s3 : (s1 +:+ s2) +:+ s3 = s1 +:+ s2 +:+ s3.
Proof.
  induction s1 as [|a s1 IH]; [done|]. by rewrite !append_cons, IH.
Qed.

Lemma length_append s1 s2 :
  String.length (s1 +:+ s2) = (String.length s1 + String.length s2)%nat.
Proof.
  induction s1 as [|a s1 IH]; [done|]. rewrite append_cons. simpl.
  by rewrite IH.
Qed.

Lemma chars_append s1 s2 :
  list_ascii_of_string (s1 +:+ s2)
    = (list_ascii_of_string s1 ++ list_ascii_of_string s2)%list.
Proof.
  induction s1 as [|a s1 IH]; [done|]. rewrite append_cons. simpl.
  by rewrite IH.
Qed.

Lemma chars_inj s1 s2 :
  list_ascii_of_string s1 = list_ascii_of_string s2 → s1 = s2.
Proof.
  intros H. rewrite <- (string_of_list_ascii_of_string s1),
    <- (string_of_list_ascii_of_string s2). by f_equal.
Qed.

Lemma starts_with_spec p s : starts_with p s = true ↔ ∃ r, s = p +:+ r.
Proof.
  revert s. induction p as [|a p IH]; intros s; simpl.
  - split; [by exists s|done].
  - destruct s as [|b s].
    + split; [done|]. by intros [r Hr].
    + rewrite andb_true_iff, bool_decide_eq_true, IH. split.
      * intros [-> [r ->]]. by exists r.
      * intros [r [= -> ->]]. split; [done|]. by exists r.
Qed.

Lemma str_take_drop s1 s2 :
  str_take (String.length s1) (s1 +:+ s2) = s1
  ∧ str_drop (String.length s1) (s1 +:+ s2) = s2.
Proof. induction s1 as [|a s1 [IH1 IH2]]; simpl; [by destruct s2|]. by rewrite IH1. Qed.

Lemma drop_last_append s1 s2 :
  drop_last (String.length s2) (s1 +:+ s2) = s1.
Proof.
  unfold drop_last. rewrite length_append.
  replace (String.length s1 + String.length s2 - String.length s2)%nat
    with (String.length s1) by lia.
  apply str_take_drop.
Qed.

(** [s.find(sub)] is the place of the first occurrence. *)
Lemma str_find_Some sub s i :
  str_find sub s = Some i →
  ∃ f rest, s = f +:+ sub +:+ rest ∧ String.length f = i
    ∧ str_take i s = f ∧ str_drop (i + String.length sub) s = rest
    ∧ ∀ f' rest', s = f' +:+ sub +:+ rest' → (i ≤ String.length f')%nat.
Proof.
  revert i. induction s as [|a s IH]; intros i; simpl.
  - destruct (starts_with sub "") eqn:Hp; [|done]. intros [= <-].
    apply starts_with_spec in Hp as [r Hr].
    exists "", r. simpl. repeat split; [done| |lia].
    destruct sub; [by simpl in *; subst|done].
  - destruct (starts_with sub (String a s)) eqn:Hp.
    + intros [= <-]. apply starts_with_spec in Hp as [r Hr].
      exists "", r. simpl. repeat split; [done| |lia].
      rewrite Hr. apply str_take_drop.
    + destruct (str_find sub s) as [j|] eqn:Hj; [|done]. intros [= <-].
      destruct (IH j eq_refl) as (f & rest & -> & Hlen & Htake & Hdrop & Hmin).
      exists (String a f), rest. simpl. repeat split; try done.
      * by f_equal.
      * by rewrite Htake.
      * intros [|b f'] rest' Heq; simpl in Heq.
        -- assert (starts_with sub (String a (f +:+ sub +:+ rest)) = true)
             as Habs by (apply starts_with_spec; eauto).
           congruence.
        -- injection Heq as -> Heq. apply Hmin in Heq. simpl. lia.
Qed.

Lemma str_find_None sub s :
  str_find sub s = None → ∀ f rest, s ≠ f +:+ sub +:+ rest.
Proof.
  induction s as [|a s IH]; simpl.
  - destruct (starts_with sub "") eqn:Hp; [done|]. intros _ f rest Heq.
    destruct f; [|done]. simpl in Heq.
    assert (starts_with sub "" = true) by (apply starts_with_spec; eauto).
    congruence.
  - destruct (starts_with sub (String a s)) eqn:Hp; [done|].
    destruct (str_find sub s) eqn:Hs; [done|]. intros _ [|b f] rest Heq.
    + simpl in Heq.
      assert (starts_with sub (String a s) = true)
        by (apply starts_with_spec; eauto).
      congruence.
    + simpl in Heq. injection Heq as -> Heq. by eapply IH.
Qed.

Lemma split1_first sep buf f rest :
  split1 sep buf = Some (f, rest) ↔
  buf = f +:+ sep +:+ rest
  ∧ ∀ f' rest', buf = f' +:+ sep +:+ rest' →
      (String.length f ≤ String.length f')%nat.
Proof.
  unfold split1. split.
  - destruct (str_find sep buf) as [i|] eqn:Hi; [|done].
    simpl. intros [= Hf Hrest].
    destruct (str_find_Some _ _ _ Hi)
      as (f0 & rest0 & Heq & Hlen & Htake & Hdrop & Hmin).
    rewrite Htake in Hf. rewrite Hdrop in Hrest. subst f0 rest0.
    split; [done|]. intros f' rest' Heq'. rewrite Hlen. by eapply Hmin.
  - intros [Heq Hmin].
    destruct (str_find sep buf) as [i|] eqn:Hi.
    + destruct (str_find_Some _ _ _ Hi)
        as (f0 & rest0 & Heq0 & Hlen & Htake & Hdrop & Hmin0).
      simpl. rewrite Htake, Hdrop.
      assert (String.length f = String.length f0) as Hsame.
      { apply Nat.le_antisymm; [by eapply Hmin|].
        rewrite Hlen. by eapply Hmin0. }
      assert (f = f0) as ->.
      { rewrite <- (proj1 (str_take_drop f (sep +:+ rest))), <- Heq, Hsame,
          Heq0. apply str_take_drop. }
      rewrite Heq0 in Heq. apply String.app_inj in Heq.
      apply String.app_inj in Heq. by subst.
    + exfalso. by eapply str_find_None.
Qed.

Lemma split1_Some buf f rest :
  split1 CRLF buf = Some (f, rest) ↔ first_delimiter buf f rest.
Proof. apply split1_first. Qed.

Lemma split1_None buf : split1 CRLF buf = None ↔ no_delimiter buf.
Proof.
  unfold split1, no_delimiter. split.
  - destruct (str_find CRLF buf) eqn:Hi; [done|]. intros _.
    by apply str_find_None.
  - intros Hno. destruct (str_find CRLF buf) as [i|] eqn:Hi; [|done].
    destruct (str_find_Some _ _ _ Hi) as (f & rest & Heq & _).
    by apply Hno in Heq.
Qed.

Lemma contains_true buf : contains CRLF buf = true ↔ ¬ no_delimiter buf.
Proof.
  unfold contains. rewrite bool_decide_eq_true, <- split1_None.
  unfold split1. destruct (str_find CRLF buf); simpl.
  - split; [done|]. by eexists.
  - split; [by intros [? ?]|done].
Qed.

Lemma contains_false buf : contains CRLF buf = false ↔ no_delimiter buf.
Proof.
  rewrite <- not_true_iff_false, contains_true.
  split; [|tauto]. intros Hnn f rest Heq. apply Hnn. intros Hno.
  by apply Hno in Heq.
Qed.

(** A buffer without delimiter that receives one line holds the
    delimiter at its end or not at all. *)
Lemma delimiter_at_end buf line f rest :
  no_delimiter buf → one_line line →
  buf +:+ line = f +:+ CRLF +:+ rest → rest = "".
Proof.
  intros Hno Hline Heq.
  apply (f_equal list_ascii_of_string) in Heq.
  rewrite !chars_append in Heq. simpl in Heq.
  change ("013"%char :: "010"%char :: list_ascii_of_string rest)
    with (["013"%char; "010"%char] ++ list_ascii_of_string rest)%list in Heq.
  rewrite app_assoc in Heq.
  apply app_eq_app in Heq as [l [[Hbuf Hrest]|[Hf Hl]]].
  - exfalso. apply (Hno f (string_of_list_ascii l)).
    apply chars_inj. rewrite !chars_append. simpl.
    rewrite list_ascii_of_string_of_list_ascii, Hbuf.
    by rewrite <- app_assoc.
  - destruct l as [|x l' _] using rev_ind.
    + exfalso. apply (Hno f ""). apply chars_inj.
      rewrite !chars_append. simpl. rewrite app_nil_r in Hf. by rewrite <- Hf.
    + change (list_ascii_of_string f ++ ["013"%char; "010"%char])%list
        with (list_ascii_of_string f ++ ["013"%char] ++ ["010"%char])%list in Hf.
      rewrite !app_assoc in Hf. apply app_inj_tail in Hf as [_ <-].
      apply (Hline (string_of_list_ascii l')). apply chars_inj.
      rewrite chars_append. simpl.
      rewrite list_ascii_of_string_of_list_ascii, Hl.
      by rewrite <- app_assoc.
Qed.

(** ** Line framing *)

Lemma ends_at_line_feed_sound line :
  ends_at_line_feed line = true → one_line line.
Proof.
  unfold ends_at_line_feed. intros Hcheck a b Heq.
  destruct (split1 (String "010"%char "") line) as [[f rest]|] eqn:Hsplit.
  - apply bool_decide_eq_true in Hcheck. subst rest.
    apply split1_first in Hsplit as [Hline Hmin].
    specialize (Hmin a b Heq).
    apply (f_equal String.length) in Heq.
    rewrite Hline in Heq at 1. rewrite !length_append in Heq. simpl in Heq.
    destruct b; [done|]. simpl in Heq. lia.
  - unfold split1 in Hsplit.
    destruct (str_find (String "010"%char "") line) eqn:Hfind; [done|].
    exfalso. apply (str_find_None _ _ Hfind a b). exact Heq.
Qed.

Lemma set_sock_rx_buf_twice a b self :
  set_sock_rx_buf a (set_sock_rx_buf b self) = set_sock_rx_buf a self.
Proof. by destruct self. Qed.

Lemma set_sock_rx_buf_same self :
  set_sock_rx_buf (_sock_rx_buf self) self = self.
Proof. by destruct self. Qed.

Lemma set_rx_buf_twice a b self :
  set_rx_buf a (set_rx_buf b self) = set_rx_buf a self.
Proof. by destruct self. Qed.

Lemma contains_split1 sep buf :
  contains sep buf = bool_decide (is_Some (split1 sep buf)).
Proof.
  unfold contains, split1. by destruct (str_find sep buf).
Qed.

(** The first part of the socket [read], in one step. *)
Lemma socket_poll_run received self :
  socket_poll received self =
    let buf := _sock_rx_buf self +:+ default "" received in
    match split1 CRLF buf with
    | Some (f, rest) => (Ret (Some f), set_sock_rx_buf rest self)
    | None => (Ret None, set_sock_rx_buf buf self)
    end.
Proof.
  unfold socket_poll.
  assert (∀ self', socket_poll None self' =
    match split1 CRLF (_sock_rx_buf self') with
    | Some (f, rest) => (Ret (Some f), set_sock_rx_buf rest self')
    | None => (Ret None, self')
    end) as Hquiet.
  { intros self'. unfold socket_poll, bind, ret, get, modify, raise.
    rewrite contains_split1.
    by destruct (split1 CRLF (_sock_rx_buf self')) as [[f rest]|]. }
  destruct received as [data|]; simpl.
  - change (bind _ _ self) with
      (socket_poll None (set_sock_rx_buf (_sock_rx_buf self +:+ data) self)).
    rewrite Hquiet.
    replace (_sock_rx_buf (set_sock_rx_buf (_sock_rx_buf self +:+ data) self))
      with (_sock_rx_buf self +:+ data) by by destruct self.
    destruct (split1 CRLF _) as [[f rest]|]; [|done].
    by rewrite set_sock_rx_buf_twice.
  - change (bind _ _ self) with (socket_poll None self).
    rewrite Hquiet, append_nil_r.
    destruct (split1 CRLF _) as [[f rest]|]; [done|].
    by rewrite set_sock_rx_buf_same.
Qed.

(** The first part of the serial [read], in one step. *)
Lemma serial_poll_run line self :
  serial_poll line self =
    let buf := _rx_buf self +:+ line in
    if contains CRLF buf
    then (Ret (Some (drop_last 2 buf)), set_rx_buf "" self)
    else (Ret None, set_rx_buf buf self).
Proof.
  unfold serial_poll, bind, ret, get, modify.
  replace (_rx_buf (set_rx_buf (_rx_buf self +:+ line) self))
    with (_rx_buf self +:+ line) by by destruct self.
  simpl. destruct (contains CRLF _); simpl; [|done].
  by rewrite set_rx_buf_twice.
Qed.

Lemma delimiter_or_not buf :
  (∃ f rest, first_delimiter buf f rest) ∨ no_delimiter buf.
Proof.
  destruct (split1 CRLF buf) as [[f rest]|] eqn:Hsplit.
  - left. exists f, rest. by apply split1_Some.
  - right. by apply split1_None.
Qed.

(** C3. The first part of [read], which hands a frame over or not.
    Socket: whatever the buffer and the data received, a frame is handed
    over exactly when the buffer holds the delimiter; it is the text
    before the first delimiter, and the buffer becomes what follows that
    delimiter; without delimiter there is no frame and the buffer keeps
    the text.  Serial: the same, for a buffer that held no delimiter when
    [read] was called and a line as [readline] returns them (nothing
    after a line feed); what follows the delimiter is then empty; and
    the buffer holds no delimiter when [read] is over, so the condition
    on the buffer holds at every call. *)
Theorem line_framed_poll :
  (∀ self received,
     let buf := _sock_rx_buf self +:+ default "" received in
     (∀ f rest, first_delimiter buf f rest →
        socket_poll received self = (Ret (Some f), set_sock_rx_buf rest self))
     ∧ (no_delimiter buf →
        socket_poll received self = (Ret None, set_sock_rx_buf buf self))
     ∧ ((∃ f rest, first_delimiter buf f rest) ∨ no_delimiter buf))
  ∧ (∀ self line,
     no_delimiter (_rx_buf self) → one_line line →
     let buf := _rx_buf self +:+ line in
     (∀ f rest, first_delimiter buf f rest →
        rest = ""
        ∧ serial_poll line self = (Ret (Some f), set_rx_buf rest self))
     ∧ (no_delimiter buf →
        serial_poll line self = (Ret None, set_rx_buf buf self))
     ∧ ((∃ f rest, first_delimiter buf f rest) ∨ no_delimiter buf)
     ∧ no_delimiter (_rx_buf (serial_poll line self).2)).
Proof.
  split.
  - intros self received buf. split; [|split].
    + intros f rest Hfirst. rewrite socket_poll_run. cbv zeta. fold buf.
      apply split1_Some in Hfirst. by rewrite Hfirst.
    + intros Hno. rewrite socket_poll_run. cbv zeta. fold buf.
      apply split1_None in Hno. by rewrite Hno.
    + apply delimiter_or_not.
  - intros self line Hbuf Hline buf. split; [|split; [|split]].
    + intros f rest [Heq Hmin].
      assert (rest = "") as -> by by eapply delimiter_at_end.
      split; [done|]. rewrite serial_poll_run. cbv zeta. fold buf.
      rewrite (proj2 (contains_true buf)).
      * rewrite Heq, append_nil_r.
        change 2%nat with (String.length CRLF). by rewrite drop_last_append.
      * intros Hno. by apply Hno in Heq.
    + intros Hno. rewrite serial_poll_run. cbv zeta. fold buf.
      by rewrite (proj2 (contains_false buf)).
    + apply delimiter_or_not.
    + rewrite serial_poll_run. cbv zeta. fold buf.
      destruct (contains CRLF buf) eqn:Hc.
      * replace (_rx_buf _) with "" by by destruct self.
        intros [|? ?] ?; discriminate.
      * replace (_rx_buf _) with buf by by destruct self.
        by apply contains_false.
Qed.

(** The buffers are empty when the object is built. *)
Lemma new_no_delimiter k nm info :
  no_delimiter (_rx_buf (new k nm info))
  ∧ no_delimiter (_sock_rx_buf (new k nm info)).
Proof. split; by apply split1_None. Qed.

Lemma line_framed_poll_witness :
  let self := new Serial "serial" "" in
  let line := "10 23" +:+ CRLF in
  no_delimiter (_rx_buf self) ∧ one_line line
  ∧ first_delimiter (_rx_buf self +:+ line) "10 23" ""
  ∧ serial_poll line self = (Ret (Some "10 23"), set_rx_buf "" self).
Proof.
  intros self line.
  assert (no_delimiter (_rx_buf self)) as Hbuf.
  { apply split1_None. reflexivity. }
  assert (one_line line) as Hline.
  { apply ends_at_line_feed_sound. reflexivity. }
  assert (first_delimiter (_rx_buf self +:+ line) "10 23" "") as Hfirst.
  { apply split1_Some. reflexivity. }
  split; [done|]. split; [done|]. split; [done|].
  destruct (proj2 line_framed_poll self line Hbuf Hline) as [Hyield _].
  apply (Hyield "10 23" "" Hfirst).
Defined.

(** ** The radio reader *)

(** C2. A radio frame with a signal-quality marker reaches the decoder
    without the numeric check: the stripped frame [abc 1 2] is returned
    by the radio validation though the inherited validation rejects it,
    and [_process_frame] ends with [ValueError] instead of returning
    [None]; so does it, whatever the codec, when no datacode applies. *)
Theorem radio_frame_skips_numeric_check t :
  float_of_string "abc" = None
  ∧ (jee_validate_frame 1 ["OK"; "abc"; "1"; "2"; "(-62)"] radio).1
    = Ret (Some ["abc"; "1"; "2"])
  ∧ (_validate_frame 1 ["abc"; "1"; "2"] radio).1 = Ret None
  ∧ (_process_frame plain_codec t "OK abc 1 2 (-62)" t radio).1
    = Raise ValueError
  ∧ (_process_frame plain_codec t "OK 10 abc (-62)" t
       (self_set {[ "datacode" := PStr "0" ]} radio).2).1
    = Raise ValueError.
Proof. by vm_compute. Qed.

(** C8. The line [868 MHz] holds one of the four markers only, and
    [read] takes it for the settings of the device: it replaces
    [self.info[1]], logs the update and processes no frame.  The test
    made by [read] is the presence of [" MHz"] alone. *)
Theorem radio_read_one_marker t :
  all_markers "868 MHz" = false
  ∧ jee_read plain_codec ("868 MHz" +:+ CRLF) t radio
    = (Ret None,
       set_log [(DEBUG, DeviceSettingsUpdated "jee" "868 MHz")]
         (set_info1 "868 MHz" radio))
  ∧ ∀ s, markers_expr s = contains " MHz" s.
Proof.
  split; [by vm_compute|]. split; [by vm_compute|]. reflexivity.
Qed.

(** C7. The radio line [OK 10 23 45 (-62)], read by a radio reader as
    its constructor leaves it: the validation strips the [OK] token and
    the marker, keeps [-62] as the signal quality and returns the three
    numeric tokens; the decoded frame is the timestamp, the node 10, the
    value decoded under the radio default datacode [h] (two bytes, 23 and
    45, little-endian), then the signal quality [-62] and the reference
    number.  With the datacode set to ['0'] the values are 23 and 45, and
    the signal quality and the reference number follow them in the same
    way. *)
Theorem radio_frame_end_to_end nm info t :
  let self := new Jee nm info in
  let line := "OK 10 23 45 (-62)" +:+ CRLF in
  jee_validate_frame 1 ["OK"; "10"; "23"; "45"; "(-62)"] self
    = (Ret (Some ["10"; "23"; "45"]), set_rssi (Some (-62)) self)
  ∧ (jee_read plain_codec line t self).1
    = Ret (Some [NFloat t; NInt 10; NInt 11543; NInt (-62); NInt 1])
  ∧ (jee_read plain_codec line t
       (self_set {[ "datacode" := PStr "0" ]} radio).2).1
    = Ret (Some [NFloat t; NInt 10; NInt 23; NInt 45; NInt (-62); NInt 1]).
Proof.
  intros self line. subst self. unfold new.
  destruct (all_markers info); destruct t as [[[|p|p] d]|b|].
  all: split; [by vm_compute|].
  all: split; by vm_compute.
Qed.

(** The constructor of the radio reader, for its part, loads the radio
    settings exactly when the settings string holds the four markers. *)
Lemma radio_preseed nm info :
  _settings (new Jee nm info) !! "baseid"
    = if all_markers info then Some (PStr "15") else None.
Proof. unfold new. cbn [_settings]. by destruct (all_markers info). Qed.

(** ** What reaches the queue *)

Lemma queue_kept_ret {A} (a : A) : queue_kept (ret a).
Proof. by intros self. Qed.

Lemma queue_kept_raise {A} e : queue_kept (@raise A e).
Proof. by intros self. Qed.

Lemma queue_kept_lift {A} (r : result A) : queue_kept (lift r).
Proof. by intros self. Qed.

Lemma queue_kept_get {A} (field : interfacer → A) : queue_kept (get field).
Proof. by intros self. Qed.

Lemma queue_kept_setting key : queue_kept (setting key).
Proof. intros self. unfold setting. by destruct (_settings self !! key). Qed.

Lemma queue_kept_bind {A B} (m : M A) (k : A → M B) :
  queue_kept m → (∀ a, queue_kept (k a)) → queue_kept (bind m k).
Proof.
  intros Hm Hk self. unfold bind. specialize (Hm self).
  destruct (m self) as [[a|e] self1]; simpl in *; [|done].
  by rewrite Hk.
Qed.

Lemma queue_kept_modify f :
  (∀ self, _rxq (f self) = _rxq self) → queue_kept (modify f).
Proof. intros Hf self. apply Hf. Qed.

Lemma queue_kept_log l msg : queue_kept (log l msg).
Proof. apply queue_kept_modify. by intros []. Qed.

Lemma queue_kept_write s : queue_kept (write s).
Proof. apply queue_kept_modify. by intros []. Qed.

Lemma queue_kept_process_frame c now frame timestamp :
  queue_kept (_process_frame c now frame timestamp).
Proof.
  intros self.
  destruct (process_frame_footprint c now frame timestamp self)
    as (new & r & n & ->).
  by destruct self.
Qed.

Ltac queue_kept_step :=
  first
    [ apply queue_kept_process_frame
    | apply queue_kept_bind; [|intros ?]
    | apply queue_kept_ret
    | apply queue_kept_raise
    | apply queue_kept_lift
    | apply queue_kept_get
    | apply queue_kept_setting
    | apply queue_kept_log
    | apply queue_kept_write
    | apply queue_kept_modify; by intros []
    | match goal with
      | |- queue_kept (match ?x with _ => _ end) => destruct x
      | |- queue_kept (if ?x then _ else _) => destruct x
      end ].

Lemma queue_kept_serial_read c line t : queue_kept (serial_read c line t).
Proof. unfold serial_read, serial_poll. repeat queue_kept_step. Qed.

Lemma queue_kept_jee_read c line t : queue_kept (jee_read c line t).
Proof. unfold jee_read, serial_poll. repeat queue_kept_step. Qed.

Lemma queue_kept_socket_read c received now :
  queue_kept (socket_read c received now).
Proof. unfold socket_read, socket_poll. repeat queue_kept_step. Qed.

Lemma queue_kept_action w : queue_kept (action w).
Proof.
  unfold action, jee_action, send_packet. repeat queue_kept_step.
Qed.

Lemma read_queue_kept c w self :
  cls self ≠ Twi → _rxq (read c w self).2 = _rxq self.
Proof.
  intros Hcls. unfold read, bind, get.
  destruct (cls self); [done| | | |done].
  - apply queue_kept_serial_read.
  - apply queue_kept_jee_read.
  - apply queue_kept_socket_read.
Qed.

(** One turn of [run] of a reader other than the bus reader puts one
    item on the queue at most, and this item is a frame. *)
Lemma run_once_queue c w self :
  cls self ≠ Twi →
  ∃ items,
    _rxq (run_once c w self).2 = (_rxq self ++ items)%list
    ∧ Forall is_Some items ∧ (length items ≤ 1)%nat.
Proof.
  intros Hcls. pose proof (read_queue_kept c w self Hcls) as Hread.
  unfold run_once. unfold bind at 1.
  destruct (read c w self) as [[[frame|]|e] self1]; simpl in Hread.
  - exists [Some frame]. split; [|split; [|done]].
    + unfold bind, put, modify. rewrite queue_kept_action.
      rewrite <- Hread. by destruct self1.
    + constructor; [by eexists|constructor].
  - exists []. split; [|split; [constructor|simpl; lia]].
    unfold bind, ret. rewrite queue_kept_action. by rewrite app_nil_r.
  - exists []. split; [|split; [constructor|simpl; lia]].
    simpl. by rewrite app_nil_r.
Qed.

(** C9. A bus reader whose output is paused reads a block from its
    device during one turn of [run]: [_process_frame] returns [None], and
    [read] itself puts this [None] on the queue. *)
Theorem bus_read_enqueues_none now :
  let w := World "" None 100 now 12 30 (steady_bus [1; 2; 3; 4]) in
  _settings paused_bus !! "pause" = Some (PStr "out")
  ∧ _rxq paused_bus = []
  ∧ (_process_frame plain_codec now "8 1 2 3 4" (Ffin 100) paused_bus).1
    = Ret None
  ∧ (run_once plain_codec w paused_bus).1 = Ret tt
  ∧ _rxq (run_once plain_codec w paused_bus).2 = [None].
Proof. by vm_compute. Qed.

(** ** Keys that the keyword arguments do not mention *)

(** C10. A bus reader holds the pause setting ['out']; [set] is then
    called with the device list alone.  The default of the absent key
    ['length'] is the empty string, [int] raises on it, and the call ends
    there, in whichever order the two bus keys are visited: the inherited
    [set] is not reached and the pause setting is not given its default
    ['off'] again. *)
Theorem bus_set_partial_map :
  let kwargs : gmap string pyval := {[ "deviceids" := PList ["8"] ]} in
  kwargs !! "pause" = None
  ∧ _settings paused_bus !! "pause" = Some (PStr "out")
  ∧ valid_setting "pause" (PStr "off") = true
  ∧ Forall
      (λ items,
         (twi_set_in items kwargs paused_bus).1 = Raise ValueError
         ∧ _settings (twi_set_in items kwargs paused_bus).2 !! "pause"
           = Some (PStr "out"))
      (permutations _twi_settings)
  ∧ (self_set kwargs paused_bus).1 = Raise ValueError.
Proof.
  intros kwargs.
  split; [by vm_compute|]. split; [by vm_compute|]. split; [by vm_compute|].
  split; [|by vm_compute].
  vm_compute permutations. repeat constructor; by vm_compute.
Qed.

(** A radio key that the keyword arguments do not mention is given its
    default again as well, and the device is told: here the base id 5
    goes back to 15. *)
Lemma radio_set_absent_key :
  let self :=
    set_settings (<["baseid" := PStr "5"]> (_settings radio)) radio in
  (jee_set ∅ self).1 = Ret tt
  ∧ _settings (jee_set ∅ self).2 !! "baseid" = Some (PStr "15")
  ∧ "15i" ∈ _ser (jee_set ∅ self).2.
Proof.
  split; [by vm_compute|]. split; [by vm_compute|].
  vm_compute. set_solver.
Qed.

(** ** Printing and reading integers *)

Lemma is_nat_pretty_N_char d :
  (d < 10)%N → Ascii.is_nat (pretty_N_char d) = Some (N.to_nat d).
Proof.
  intros Hd.
  assert (d = 0 ∨ d = 1 ∨ d = 2 ∨ d = 3 ∨ d = 4 ∨ d = 5 ∨ d = 6 ∨ d = 7
          ∨ d = 8 ∨ d = 9)%N as Hcases by lia.
  repeat destruct Hcases as [->|Hcases]; try reflexivity.
  by subst.
Qed.

(** The digits that [pretty] puts in front of [s] are read back as the
    number they print. *)
Lemma pretty_N_go_digits x s :
  ∃ k : Z, 0 ≤ k ∧
    (∀ acc, digits_value acc (pretty_N_go x s)
            = digits_value (acc * 10 ^ k + Z.of_N x) s)
    ∧ all_digits (pretty_N_go x s) = all_digits s
    ∧ (∀ r, pretty_N_go x s +:+ r = pretty_N_go x (s +:+ r))
    ∧ ((0 < x)%N → ∃ c t, pretty_N_go x s = String c t
                     ∧ is_Some (Ascii.is_nat c)).
Proof.
  revert s. induction (N.lt_wf_0 x) as [x _ IH]; intros s.
  assert (x = 0 ∨ 0 < x)%N as [->|Hpos] by lia.
  - exists 0. rewrite pretty_N_go_0. split; [done|]. split; [|split; [|split]].
    + intros acc. f_equal. simpl. lia.
    + done.
    + intros r. by rewrite pretty_N_go_0.
    + lia.
  - rewrite pretty_N_go_step by done.
    set (d := (x `mod` 10)%N). set (q := (x `div` 10)%N).
    assert (d < 10)%N as Hd by (apply N.mod_lt; lia).
    assert (q < x)%N as Hq by (apply N.div_lt; lia).
    destruct (IH q Hq (String (pretty_N_char d) s))
      as (k & Hk & Hval & Hall & Happ & Hhead).
    exists (k + 1). split; [lia|]. split; [|split; [|split]].
    + intros acc. rewrite Hval. simpl. rewrite is_nat_pretty_N_char by done.
      f_equal. rewrite Z.pow_add_r by lia.
      pose proof (N.div_mod x 10 ltac:(lia)) as Hx. fold d q in Hx.
      assert (Z.of_N x = 10 * Z.of_N q + Z.of_N d) as -> by lia.
      lia.
    + rewrite Hall. cbn [all_digits]. rewrite is_nat_pretty_N_char by done.
      by rewrite bool_decide_eq_true_2 by by eexists.
    + intros r. rewrite Happ, (pretty_N_go_step x (s +:+ r)) by done.
      reflexivity.
    + intros _. assert (q = 0 ∨ 0 < q)%N as [Hq0|Hqpos] by lia.
      * rewrite Hq0, pretty_N_go_0. eexists _, _. split; [done|].
        rewrite is_nat_pretty_N_char by done. by eexists.
      * by apply Hhead.
Qed.

Lemma pretty_pos_digits (p : positive) :
  digits_value 0 (pretty p) = Some (Z.pos p)
  ∧ all_digits (pretty p) = true
  ∧ ∃ c t, pretty p = String c t ∧ is_Some (Ascii.is_nat c).
Proof.
  unfold pretty, pretty_positive, pretty, pretty_N.
  rewrite decide_False by done.
  destruct (pretty_N_go_digits (N.pos p) "") as (k & Hk & Hval & Hall & _ & Hhead).
  split; [|split].
  - rewrite Hval. simpl. done.
  - by rewrite Hall.
  - apply Hhead. lia.
Qed.

Lemma rev_app_chars s1 s2 :
  list_ascii_of_string (String.rev_app s1 s2)
    = (rev (list_ascii_of_string s1) ++ list_ascii_of_string s2)%list.
Proof.
  revert s2. induction s1 as [|a s1 IH]; intros s2; [done|].
  simpl. rewrite IH. simpl. by rewrite <- app_assoc.
Qed.

Lemma rev_chars s :
  list_ascii_of_string (String.rev s) = rev (list_ascii_of_string s).
Proof. unfold String.rev. by rewrite rev_app_chars, app_nil_r. Qed.

Lemma rev_rev s : String.rev (String.rev s) = s.
Proof. apply chars_inj. by rewrite !rev_chars, rev_involutive. Qed.

Lemma all_digits_chars s :
  all_digits s
    = forallb (λ c, bool_decide (is_Some (Ascii.is_nat c)))
        (list_ascii_of_string s).
Proof. induction s as [|a s IH]; [done|]. simpl. by rewrite IH. Qed.

Lemma all_digits_rev s : all_digits (String.rev s) = all_digits s.
Proof.
  rewrite !all_digits_chars, rev_chars.
  apply eq_true_iff_eq. rewrite !forallb_forall.
  by setoid_rewrite <- in_rev.
Qed.

Lemma digit_not_space c :
  is_Some (Ascii.is_nat c) → Ascii.is_space c = false.
Proof.
  destruct c as [[] [] [] [] [] [] [] []]; try reflexivity;
    by intros [? [=]].
Qed.

Lemma lstrip_digits s : all_digits s = true → lstrip s = s.
Proof.
  destruct s as [|c s]; [done|]. simpl.
  intros [Hc _]%andb_true_iff. apply bool_decide_eq_true in Hc.
  by rewrite digit_not_space.
Qed.

(** A text that neither begins nor ends with white space is its own
    [strip]. *)
Lemma strip_clean s :
  lstrip s = s → lstrip (String.rev s) = String.rev s → strip s = s.
Proof.
  intros Hl Hr. unfold strip, rstrip. by rewrite Hl, Hr, rev_rev.
Qed.

Lemma rev_cons a s :
  String.rev (String a s) = String.rev s +:+ String a "".
Proof.
  apply chars_inj. rewrite chars_append, !rev_chars. reflexivity.
Qed.

Lemma lstrip_append s r : lstrip s = s → s ≠ "" → lstrip (s +:+ r) = s +:+ r.
Proof.
  destruct s as [|c s]; [done|]. simpl. intros Hs _.
  destruct (Ascii.is_space c); [|done].
  exfalso. apply (f_equal String.length) in Hs. simpl in Hs.
  assert (∀ t, String.length (lstrip t) ≤ String.length t)%nat as Hle.
  { clear. induction t as [|a t IH]; simpl; [lia|].
    destruct (Ascii.is_space a); simpl; lia. }
  specialize (Hle s). lia.
Qed.

Lemma strip_digits s : all_digits s = true → strip s = s.
Proof.
  intros Hs. apply strip_clean; apply lstrip_digits; [done|].
  by rewrite all_digits_rev.
Qed.

Lemma strip_minus_digits s :
  all_digits s = true → s ≠ "" → strip (String "-" s) = String "-" s.
Proof.
  intros Hs Hne. apply strip_clean; [done|].
  rewrite rev_cons. apply lstrip_append.
  - apply lstrip_digits. by rewrite all_digits_rev.
  - intros Hrev. apply (f_equal String.rev) in Hrev. by rewrite rev_rev in Hrev.
Qed.

Lemma split_sign_digit c t :
  is_Some (Ascii.is_nat c) → split_sign (String c t) = (false, String c t).
Proof.
  destruct c as [[] [] [] [] [] [] [] []]; try reflexivity;
    by intros [? [=]].
Qed.

Lemma span_digits_all s : all_digits s = true → span_digits s = (s, "").
Proof.
  induction s as [|c s IH]; [done|]. simpl.
  intros [Hc Hs]%andb_true_iff. rewrite Hc, IH by done. reflexivity.
Qed.

Lemma lower_digit_word c t :
  is_Some (Ascii.is_nat c) →
  lower (String c t) ≠ "inf" ∧ lower (String c t) ≠ "infinity"
  ∧ lower (String c t) ≠ "nan".
Proof.
  destruct c as [[] [] [] [] [] [] [] []];
    try (by intros [? [=]]); intros _; simpl; repeat split; discriminate.
Qed.

(** Reading a run of digits: [int] and [float] agree with its value. *)
Lemma unsigned_digits s n c t :
  s = String c t → is_Some (Ascii.is_nat c) →
  all_digits s = true → digits_value 0 s = Some n →
  unsigned_literal s = Some n
  ∧ decimal_literal s = Some (Qmake (n * 10 ^ 0) 1).
Proof.
  intros Hs Hc Hall Hval. split.
  - unfold unsigned_literal, isdigit. rewrite Hall.
    rewrite bool_decide_eq_false_2 by by subst. done.
  - unfold decimal_literal. rewrite span_digits_all by done.
    rewrite !append_nil_r.
    rewrite bool_decide_eq_false_2 by by subst.
    rewrite Hval. reflexivity.
Qed.

(** [int(str(z))] and [float(str(z))] give [z] back; [str(z)] has no
    white space around it. *)
Lemma read_pretty (z : Z) :
  strip (pretty z) = pretty z
  ∧ int_of_string (pretty z) = Some z
  ∧ float_of_string (pretty z) = Some (Ffin (z # 1)).
Proof.
  destruct z as [|p|p].
  - by vm_compute.
  - change (pretty (Z.pos p)) with (pretty p).
    destruct (pretty_pos_digits p) as (Hval & Hall & c & t & Hs & Hc).
    destruct (unsigned_digits _ _ c t Hs Hc Hall Hval) as [Hint Hfloat].
    assert (strip (pretty p) = pretty p) as Hstrip by by apply strip_digits.
    split; [done|]. split.
    + unfold int_of_string, signed_literal. rewrite Hstrip.
      rewrite Hs, split_sign_digit by done. rewrite <- Hs, Hint. done.
    + unfold float_of_string. rewrite Hstrip.
      rewrite Hs, split_sign_digit by done.
      destruct (lower_digit_word c t Hc) as (H1 & H2 & H3).
      rewrite !bool_decide_eq_false_2 by done. simpl orb. cbv iota.
      rewrite <- Hs, Hfloat. simpl. by rewrite Z.mul_1_r.
  - change (pretty (Z.neg p)) with (String "-" (pretty p)).
    destruct (pretty_pos_digits p) as (Hval & Hall & c & t & Hs & Hc).
    destruct (unsigned_digits _ _ c t Hs Hc Hall Hval) as [Hint Hfloat].
    assert (strip (String "-" (pretty p)) = String "-" (pretty p)) as Hstrip.
    { apply strip_minus_digits; [done|]. by rewrite Hs. }
    split; [done|]. split.
    + unfold int_of_string, signed_literal. rewrite Hstrip.
      cbn [split_sign]. rewrite Hint. done.
    + unfold float_of_string. rewrite Hstrip. cbn [split_sign].
      rewrite Hs.
      destruct (lower_digit_word c t Hc) as (H1 & H2 & H3).
      rewrite !bool_decide_eq_false_2 by done. simpl orb. cbv iota.
      rewrite <- Hs, Hfloat. simpl. by rewrite Z.mul_1_r.
Qed.

(** ** Splitting and joining *)

Lemma join_cons sep w w' ws :
  join sep (w :: w' :: ws) = w +:+ sep +:+ join sep (w' :: ws).
Proof. reflexivity. Qed.

Lemma split_char_nonempty sep s : split_char sep s ≠ [].
Proof.
  destruct s as [|c s]; [done|]. simpl.
  case_bool_decide; [done|]. by destruct (split_char sep s).
Qed.

(** [sep.join(s.split(sep))] is [s]. *)
Lemma join_split_char (sep : ascii) s :
  join (String sep "") (split_char sep s) = s.
Proof.
  induction s as [|c s IH]; [done|].
  pose proof (split_char_nonempty sep s) as Hne.
  cbn [split_char]. destruct (split_char sep s) as [|w ws]; [done|].
  case_bool_decide as Hc.
  - subst c. by rewrite join_cons, IH.
  - destruct ws as [|w' ws].
    + simpl in *. by subst.
    + rewrite join_cons in *. rewrite append_cons. by rewrite IH.
Qed.

(** A text without separator is one piece. *)
Lemma split_char_piece sep w :
  sep ∉ list_ascii_of_string w → split_char sep w = [w].
Proof.
  induction w as [|c w IH]; [done|]. simpl.
  intros [Hc Hw]%not_elem_of_cons.
  rewrite bool_decide_eq_false_2 by done. by rewrite IH.
Qed.

Lemma split_char_append sep w s :
  sep ∉ list_ascii_of_string w →
  split_char sep (w +:+ String sep s) = w :: split_char sep s.
Proof.
  induction w as [|c w IH]; simpl.
  - intros _. by rewrite bool_decide_eq_true_2.
  - intros [Hc Hw]%not_elem_of_cons.
    rewrite bool_decide_eq_false_2 by done. by rewrite IH.
Qed.

(** [sep.join(l).split(sep)] is [l] when no item holds the separator. *)
Lemma split_char_join (sep : ascii) l :
  l ≠ [] → Forall (λ w, sep ∉ list_ascii_of_string w) l →
  split_char sep (join (String sep "") l) = l.
Proof.
  induction l as [|w l IH]; [done|]. intros _ Hall.
  apply Forall_cons in Hall as [Hw Hl].
  destruct l as [|w' l].
  - simpl. by apply split_char_piece.
  - rewrite join_cons. change (String sep "" +:+ ?s) with (String sep s).
    rewrite split_char_append by done. by rewrite IH.
Qed.

Lemma rev_append s1 s2 :
  String.rev (s1 +:+ s2) = String.rev s2 +:+ String.rev s1.
Proof.
  apply chars_inj. by rewrite chars_append, !rev_chars, chars_append, rev_app_distr.
Qed.

Lemma rev_nonempty s : s ≠ "" → String.rev s ≠ "".
Proof.
  intros Hs Hrev. apply Hs. apply (f_equal String.rev) in Hrev.
  by rewrite rev_rev in Hrev.
Qed.

Lemma append_nonempty s1 s2 : s1 ≠ "" → s1 +:+ s2 ≠ "".
Proof. by destruct s1. Qed.

Lemma trimmed_strip s : trimmed s → strip s = s.
Proof. intros (_ & Hl & Hr). by apply strip_clean. Qed.

Lemma trimmed_between a x b : trimmed a → trimmed b → trimmed (a +:+ x +:+ b).
Proof.
  intros (Ha & Hal & _) (Hb & _ & Hbr). split; [|split].
  - by apply append_nonempty.
  - by apply lstrip_append.
  - rewrite !rev_append, append_assoc.
    apply lstrip_append; [done|]. by apply rev_nonempty.
Qed.

Lemma trimmed_join sep l :
  l ≠ [] → Forall trimmed l → trimmed (join sep l).
Proof.
  induction l as [|w l IH]; [done|]. intros _ Hall.
  apply Forall_cons in Hall as [Hw Hl].
  destruct l as [|w' l]; [done|].
  rewrite join_cons. apply trimmed_between; [done|]. by apply IH.
Qed.

Lemma pretty_trimmed (z : Z) :
  trimmed (pretty z) ∧ " "%char ∉ list_ascii_of_string (pretty z).
Proof.
  assert (∀ s, all_digits s = true → " "%char ∉ list_ascii_of_string s)
    as Hspace.
  { intros s. rewrite all_digits_chars, forallb_forall. intros Hs Hin.
    apply list_elem_of_In, Hs in Hin. by vm_compute in Hin. }
  destruct z as [|p|p].
  - split; [by vm_compute|]. by apply Hspace.
  - change (pretty (Z.pos p)) with (pretty p).
    destruct (pretty_pos_digits p) as (_ & Hall & c & t & Hs & _).
    split; [|by apply Hspace].
    split; [by rewrite Hs|].
    split; apply lstrip_digits; [done|by rewrite all_digits_rev].
  - change (pretty (Z.neg p)) with (String "-" (pretty p)).
    destruct (pretty_pos_digits p) as (_ & Hall & c & t & Hs & _).
    split.
    + split; [done|]. split; [done|]. rewrite rev_cons.
      apply lstrip_append.
      * apply lstrip_digits. by rewrite all_digits_rev.
      * apply rev_nonempty. by rewrite Hs.
    + simpl. apply not_elem_of_cons. split; [done|]. by apply Hspace.
Qed.

(** The frame printed from a list of integers splits back into their
    tokens. *)
Lemma split_printed (zs : list Z) :
  zs ≠ [] →
  split_char " " (strip (join " " (pretty <$> zs))) = pretty <$> zs.
Proof.
  intros Hne.
  assert (pretty <$> zs ≠ []) as Hne' by by destruct zs.
  rewrite trimmed_strip.
  - apply split_char_join; [done|].
    apply Forall_fmap, Forall_forall. intros z _. apply pretty_trimmed.
  - apply trimmed_join; [done|].
    apply Forall_fmap, Forall_forall. intros z _. apply pretty_trimmed.
Qed.

Lemma whole_number (z : Z) :
  has_fraction (Ffin (z # 1)) = false ∧ int_of_whole (Ffin (z # 1)) = z.
Proof.
  assert (Qred (z # 1) = z # 1) as Hred.
  { unfold Qred.
    pose proof (Z.ggcd_gcd z 1) as Hg.
    pose proof (Z.ggcd_correct_divisors z 1) as Hd.
    destruct (Z.ggcd z 1) as [g [aa bb]]. simpl in *.
    rewrite Z.gcd_1_r in Hg. subst g. destruct Hd as [Ha Hb].
    assert (aa = z) as -> by lia. assert (bb = 1) as -> by lia. done. }
  unfold has_fraction, int_of_whole. by rewrite Hred.
Qed.

Lemma printed_numeric (zs : list Z) :
  forallb (λ val, bool_decide (is_Some (float_of_string val))) (pretty <$> zs)
    = true.
Proof.
  apply forallb_forall. intros w Hw. apply list_elem_of_In in Hw.
  apply list_elem_of_fmap in Hw as [z [-> _]].
  destruct (read_pretty z) as (_ & _ & ->). by apply bool_decide_eq_true_2.
Qed.

Lemma pass_values_printed (zs : list Z) :
  pass_values (pretty <$> zs) = Ret (NInt <$> zs).
Proof.
  induction zs as [|z zs IH]; [done|]. cbn [fmap list_fmap pass_values].
  destruct (read_pretty z) as (_ & _ & ->).
  change (list_fmap _ _ pretty zs) with (pretty <$> zs). rewrite IH.
  destruct (whole_number z) as [-> ->]. reflexivity.
Qed.

(** ** Decoding under one datacode, and without any *)

Lemma decode_values_single c dc datacodes data count i bytepos :
  truthy dc = true →
  decode_values c dc datacodes data count i bytepos
    = Ret (per_value c (replicate count dc) (drop bytepos data)).
Proof.
  intros Hdc. revert i bytepos.
  induction count as [|count IH]; intros i bytepos; [done|].
  cbn [decode_values replicate per_value]. rewrite Hdc.
  destruct (mapM int_of_string _ ≫= ehc.decode c dc) as [value|]; [|done].
  rewrite IH, drop_drop. simpl. by destruct (per_value c _ _).
Qed.

Lemma pass_values_spec data :
  match pass_values data with
  | Ret values =>
      Forall2 (λ v n, ∃ x, float_of_string v = Some x ∧ n = passed x)
        data values
  | Raise e =>
      e = ValueError ∧ ¬ Forall (λ v, is_Some (float_of_string v)) data
  end.
Proof.
  induction data as [|v data IH]; [by constructor|]. simpl.
  destruct (float_of_string v) as [x|] eqn:Hv.
  - destruct (pass_values data) as [values|e]; simpl.
    + constructor; [|done]. by exists x.
    + destruct IH as [-> Hnot]. split; [done|].
      intros Hall. apply Hnot. by apply Forall_cons in Hall as [_ ?].
  - split; [done|]. intros Hall. apply Forall_cons in Hall as [[x Hx] _].
    congruence.
Qed.

(** The first part of [_decode_frame] for a node without list of
    datacodes. *)
Lemma decode_frame_applicable c ref node data self dc :
  ehc.nodelist c !! node ≫= ehc.datacodes = None →
  applicable c node self = Some dc →
  _decode_frame c ref (node :: data) self =
    let datacode := if py_eq dc (PStr "0") then PInt 0 else dc in
    if negb (truthy datacode) then
      match pass_values data with
      | Raise e => (Raise e, self)
      | Ret [] => (Raise UnboundLocalError, self)
      | Ret (v :: vs) =>
          (match int_of_string node with
           | Some n => Ret (Some (NInt n :: v :: vs))
           | None => Raise ValueError
           end, self)
      end
    else
      let size := ehc.check_datacode c datacode in
      if (size =? 0)%nat then (Raise ZeroDivisionError, self)
      else if negb (length data mod size =? 0)%nat then
        (Ret None,
         set_log (_log self ++
                  [(WARNING,
                    LengthNotValidForDatacode ref (length data) datacode)])%list
           self)
      else
        match per_value c (replicate (length data / size) datacode) data with
        | Some values =>
            (match int_of_string node with
             | Some n => Ret (Some (NInt n :: values))
             | None => Raise ValueError
             end, self)
        | None =>
            (Ret None,
             set_log (_log self ++ [(WARNING, UnableToDecode ref)])%list self)
        end.
Proof.
  intros Hnone Hdc. unfold _decode_frame. rewrite Hnone.
  unfold applicable in Hdc. cbv zeta.
  assert ((match ehc.nodelist c !! node ≫= ehc.datacode with
           | Some d => ret d
           | None => setting "datacode"
           end) self = (Ret dc, self)) as Hfetch.
  { destruct (ehc.nodelist c !! node ≫= ehc.datacode) as [d|].
    - by injection Hdc as ->.
    - unfold setting. by rewrite Hdc. }
  unfold bind at 1. unfold bind at 1. rewrite Hfetch.
  set (datacode := if py_eq dc (PStr "0") then PInt 0 else dc).
  destruct (truthy datacode) eqn:Htruthy; cbn [negb].
  - destruct (ehc.check_datacode c datacode =? 0)%nat eqn:Hsize; [done|].
    destruct (length data mod ehc.check_datacode c datacode =? 0)%nat eqn:Hmod;
      cbn [negb]; [|done].
    unfold ret at 1. unfold bind at 1.
    rewrite decode_values_single by done.
    change (drop 0 data) with data.
    destruct (per_value c _ data) as [values|]; [|done].
    unfold ret, bind, lift, int. simpl.
    destruct values; by destruct (int_of_string node).
  - unfold bind at 1. unfold lift at 1.
    destruct (pass_values data) as [[|v vs]|e]; try done.
    unfold ret, bind, lift, int. by destruct (int_of_string node).
Qed.

(** ** From the raw frame to the complete frame *)

Lemma bind_Ret {A B} (m : M A) (k : A → M B) self r self' :
  bind m k self = (Ret r, self') →
  ∃ a self1, m self = (Ret a, self1) ∧ k a self1 = (Ret r, self').
Proof.
  unfold bind. destruct (m self) as [[a|e] self1]; [|done]. eauto.
Qed.

Lemma log_only_pure {A} (x : result A) : log_only (λ self, (x, self)).
Proof. intros self. exists []. destruct self; simpl. by rewrite app_nil_r. Qed.

Lemma log_only_ret {A} (a : A) : log_only (ret a).
Proof. apply log_only_pure. Qed.

Lemma log_only_raise {A} e : log_only (@raise A e).
Proof. apply log_only_pure. Qed.

Lemma log_only_lift {A} (r : result A) : log_only (lift r).
Proof. apply log_only_pure. Qed.

Lemma log_only_get {A} (field : interfacer → A) : log_only (get field).
Proof. intros self. exists []. destruct self; simpl. by rewrite app_nil_r. Qed.

Lemma log_only_setting key : log_only (setting key).
Proof.
  intros self. exists []. unfold setting.
  destruct (_settings self !! key); destruct self; simpl; by rewrite app_nil_r.
Qed.

Lemma log_only_log l msg : log_only (log l msg).
Proof. intros self. by exists [(l, msg)]. Qed.

Lemma log_only_bind {A B} (m : M A) (k : A → M B) :
  log_only m → (∀ a, log_only (k a)) → log_only (bind m k).
Proof.
  intros Hm Hk self. unfold bind. destruct (Hm self) as (new & Hself1).
  destruct (m self) as [[a|e] self1]; simpl in *.
  - destruct (Hk a self1) as (new' & ->). subst self1.
    exists (new ++ new')%list. destruct self; simpl. by rewrite app_assoc.
  - by exists new.
Qed.

Ltac log_only_step :=
  first
    [ apply log_only_bind; [|intros ?]
    | apply log_only_ret
    | apply log_only_raise
    | apply log_only_lift
    | apply log_only_log
    | apply log_only_get
    | apply log_only_setting
    | match goal with
      | |- log_only (match ?x with _ => _ end) => destruct x
      | |- log_only (if ?x then _ else _) => destruct x
      end ].

Lemma log_only_validate ref received : log_only (_validate_frame ref received).
Proof. unfold _validate_frame. repeat log_only_step. Qed.

Lemma log_only_decode c ref data : log_only (_decode_frame c ref data).
Proof. unfold _decode_frame. repeat log_only_step. Qed.

Lemma validate_frame_run ref received self :
  _validate_frame ref received self =
    if (length received <? 2)%nat then
      (Ret None,
       set_log (_log self ++ [(WARNING, StringTooShort ref received)])%list self)
    else if forallb (λ val, bool_decide (is_Some (float_of_string val))) received
    then (Ret (Some received), self)
    else
      (Ret None,
       set_log (_log self ++ [(WARNING, NonNumericalContent ref received)])%list
         self).
Proof.
  unfold _validate_frame.
  destruct (length received <? 2)%nat; [done|].
  by destruct (forallb _ received).
Qed.

(** A decoded frame begins with the node token read as an integer. *)
Lemma decode_frame_node c ref data self decoded self' :
  _decode_frame c ref data self = (Ret (Some decoded), self') →
  ∃ node rest n values,
    data = node :: rest ∧ int_of_string node = Some n
    ∧ decoded = NInt n :: values.
Proof.
  unfold _decode_frame. destruct data as [|node rest]; [done|].
  intros Hrun. apply bind_Ret in Hrun as (vars & s1 & _ & Hrun).
  destruct vars as [[[[dec count] datacode] datacodes]|]; [|done].
  apply bind_Ret in Hrun as (d & s2 & _ & Hrun).
  destruct d as [d|]; [|done].
  apply bind_Ret in Hrun as (n & s3 & Hn & Hrun).
  injection Hrun as <- _.
  exists node, rest, n, d. split; [done|]. split; [|done].
  unfold lift, int in Hn. by destruct (int_of_string node); simplify_eq.
Qed.

(** [self._validate_frame] and [_decode_frame], then the frame put
    together, in one step. *)
Lemma assemble_run c ref timestamp received self :
  assemble c ref timestamp received self =
    match self_validate_frame ref received self with
    | (Raise e, s1) => (Raise e, s1)
    | (Ret None, s1) | (Ret (Some []), s1) => (Ret None, s1)
    | (Ret (Some validated), s1) =>
        match _decode_frame c ref validated s1 with
        | (Raise e, s2) => (Raise e, s2)
        | (Ret None, s2) | (Ret (Some []), s2) => (Ret None, s2)
        | (Ret (Some decoded), s2) =>
            (Ret (Some (NFloat timestamp :: decoded ++ signal_items (rssi s2)
                        ++ [NInt ref])%list),
             set_log (_log s2 ++ frame_records ref timestamp decoded (rssi s2))%list
               s2)
        end
    end.
Proof.
  unfold assemble. unfold bind at 1.
  destruct (self_validate_frame ref received self) as [[[[|v vs]|]|e] s1];
    try reflexivity.
  unfold bind at 1.
  destruct (_decode_frame c ref (v :: vs) s1) as [[[[|d ds]|]|e] s2];
    try reflexivity.
  unfold bind, log, modify, get, ret, signal_items, frame_records.
  destruct s2 as [? ? ? ? ? ? [r|] ? ? ? ? ? ?]; simpl.
  - destruct (r =? 0); simpl; rewrite <- ?app_assoc; simpl;
      rewrite <- ?app_assoc; reflexivity.
  - rewrite <- ?app_assoc. reflexivity.
Qed.

Lemma process_run c now frame timestamp self :
  process c now frame timestamp self =
    let ts := if float_is_zero timestamp then now else timestamp in
    let ref := _packet_counter self + 1 in
    assemble c ref ts (split_char " " (strip frame))
      (set_rssi None
         (set_log (_log self ++ [(DEBUG, NewFrame ref ts frame)])%list
            (set_packet_counter ref self))).
Proof. reflexivity. Qed.

(** What a call of [_process_frame] that returns a frame has gone
    through. *)
Lemma process_frame_Some c now frame timestamp self complete self' :
  _process_frame c now frame timestamp self = (Ret (Some complete), self') →
  let ts := if float_is_zero timestamp then now else timestamp in
  let ref := _packet_counter self + 1 in
  let self0 :=
    set_rssi None
      (set_log (_log self ++ [(DEBUG, NewFrame ref ts frame)])%list
         (set_packet_counter ref self)) in
  ∃ validated s1 decoded s2,
    self_validate_frame ref (split_char " " (strip frame)) self0
      = (Ret (Some validated), s1)
    ∧ _decode_frame c ref validated s1 = (Ret (Some decoded), s2)
    ∧ complete
      = (NFloat ts :: decoded ++ signal_items (rssi s2) ++ [NInt ref])%list
    ∧ self'
      = set_log (_log s2 ++ frame_records ref ts decoded (rssi s2))%list s2.
Proof.
  intros Hrun ts ref self0. rewrite process_frame_run in Hrun.
  destruct (paused_in self) as [[[]|] self1] eqn:Hin; try done.
  rewrite paused_in_run in Hin.
  assert (self1 = self) as -> by congruence. clear Hin.
  rewrite process_run, assemble_run in Hrun. cbv zeta in Hrun.
  fold ts ref self0 in Hrun.
  destruct (self_validate_frame ref _ self0) as [[[[|v vs]|]|e] s1];
    try done.
  destruct (_decode_frame c ref (v :: vs) s1) as [[[[|d ds]|]|e] s2] eqn:Hdec;
    try done.
  rewrite paused_out_run in Hrun.
  destruct (match _settings _ !! "pause" with Some _ => _ | None => _ end);
    [done|].
  injection Hrun as <- <-.
  by exists (v :: vs), s1, (d :: ds), s2.
Qed.



Lemma counter_set_log L s : _packet_counter (set_log L s) = _packet_counter s.
Proof. by destruct s. Qed.

Lemma rssi_set_log L s : rssi (set_log L s) = rssi s.
Proof. by destruct s. Qed.







(** ** Integers printed, then read *)

Lemma settings_frame_state L n r self :
  _settings (set_rssi r (set_log L (set_packet_counter n self)))
    = _settings self.
Proof. by destruct self. Qed.

Lemma cls_frame_state L n r self :
  cls (set_rssi r (set_log L (set_packet_counter n self))) = cls self.
Proof. by destruct self. Qed.

Lemma rssi_frame_state L n r self :
  rssi (set_rssi r (set_log L (set_packet_counter n self))) = r.
Proof. by destruct self. Qed.

(** A reader other than the radio one, not paused, with the datacode
    ['0'], is given the text made of a node and one value at least, all
    integers printed by [str] and joined by single spaces, the node
    having no entry in the node list.  [_process_frame] returns the
    timestamp, the same node and the same values, as integers, and the
    reference number; it counts the frame and logs it, and changes
    nothing else. *)
Lemma process_frame_printed c now timestamp self p node values :
  cls self ≠ Jee →
  _settings self !! "pause" = Some (PStr p) → lower p = "off" →
  _settings self !! "datacode" = Some (PStr "0") →
  ehc.nodelist c !! pretty node = None →
  values ≠ [] →
  let frame := join " " (pretty <$> (node :: values)) in
  let ts := if float_is_zero timestamp then now else timestamp in
  let ref := _packet_counter self + 1 in
  let decoded := NInt node :: (NInt <$> values) in
  _process_frame c now frame timestamp self =
    (Ret (Some (NFloat ts :: decoded ++ [NInt ref])%list),
     set_rssi None
       (set_log
          (_log self ++ (DEBUG, NewFrame ref ts frame)
           :: frame_records ref ts decoded None)%list
          (set_packet_counter ref self))).
Proof.
  intros Hcls Hp Hoff Hdc Hnode Hne frame ts ref decoded.
  rewrite process_frame_run, paused_in_run, Hp. cbn [str_lower].
  cbn [mbind result_bind]. rewrite Hoff.
  change (bool_decide ("off" ∈ ["all"; "in"])) with false. cbv iota.
  rewrite process_run, assemble_run. cbv zeta. fold ts ref.
  subst frame. rewrite split_printed by done.
  set (frame := join " " (pretty <$> node :: values)).
  set (self0 := set_rssi None _).
  assert (self_validate_frame ref (pretty <$> node :: values) self0
          = (Ret (Some (pretty <$> node :: values)), self0)) as ->.
  { unfold self_validate_frame, bind, get. subst self0.
    rewrite cls_frame_state.
    assert (∀ m, (match cls self with
                  | Jee => m
                  | _ => _validate_frame ref (pretty <$> node :: values)
                  end) = _validate_frame ref (pretty <$> node :: values))
      as -> by by destruct (cls self).
    rewrite validate_frame_run, printed_numeric.
    destruct values; [done|]. reflexivity. }
  cbn [fmap list_fmap].
  change (list_fmap _ _ pretty values) with (pretty <$> values).
  rewrite (decode_frame_applicable c ref (pretty node) (pretty <$> values) self0
             (PStr "0")).
  - cbv zeta. change (py_eq (PStr "0") (PStr "0")) with true. cbv iota.
    change (negb (truthy (PInt 0))) with true. cbv iota.
    rewrite pass_values_printed.
    destruct (read_pretty node) as (_ & -> & _).
    destruct values as [|v vs]; [done|].
    cbn [fmap list_fmap]. change (list_fmap _ _ NInt vs) with (NInt <$> vs).
    rewrite paused_out_run.
    replace (_settings (set_log _ self0)) with (_settings self)
      by (subst self0; by destruct self).
    rewrite Hp. cbn [str]. rewrite Hoff.
    change (bool_decide ("off" ∈ ["all"; "out"])) with false. cbv iota.
    subst self0. rewrite rssi_frame_state. unfold signal_items, decoded.
    cbn [fmap list_fmap app]. f_equal. destruct self; simpl.
    by rewrite <- app_assoc.
  - by rewrite Hnode.
  - unfold applicable. rewrite Hnode. subst self0.
    by rewrite settings_frame_state.
Qed.

Lemma contains_delimiter f rest : contains CRLF (f +:+ CRLF +:+ rest) = true.
Proof. apply contains_true. intros Hno. by apply (Hno f rest). Qed.

Lemma contains_delimiter_end f : contains CRLF (f +:+ CRLF) = true.
Proof.
  replace (f +:+ CRLF) with (f +:+ CRLF +:+ "") by by rewrite append_nil_r.
  apply contains_delimiter.
Qed.

Lemma settings_set_rx_buf b self : _settings (set_rx_buf b self) = _settings self.
Proof. by destruct self. Qed.

Lemma cls_set_rx_buf b self : cls (set_rx_buf b self) = cls self.
Proof. by destruct self. Qed.

(** The frames of the statements below: what [_process_frame] returns
    for the node and the values, and the object it leaves. *)
Lemma float_is_zero_same t : (if float_is_zero t then t else t) = t.
Proof. by destruct (float_is_zero t). Qed.



Lemma twi_frame_printed add block :
  block ≠ [] →
  twi_frame (PStr (pretty add)) block = join " " (pretty <$> (add :: block)).
Proof. destruct block; [done|]. reflexivity. Qed.



(** ** The socket reader and its timestamps *)

Lemma socket_read_run c received now self :
  socket_read c received now self =
    let buf := _sock_rx_buf self +:+ default "" received in
    match split1 CRLF buf with
    | None => (Ret None, set_sock_rx_buf buf self)
    | Some (f, rest) =>
        let self1 := set_sock_rx_buf rest self in
        match _settings self !! "timestamped" with
        | None => (Raise KeyError, self1)
        | Some flag =>
            if bool_decide (lower (str flag) = "true") then
              match split_char " " f with
              | [] => (Raise IndexError, self1)
              | w :: words =>
                  match float_of_string w with
                  | None => (Raise ValueError, self1)
                  | Some t => _process_frame c now (join " " words) t self1
                  end
              end
            else _process_frame c now f (Ffin 0) self1
        end
    end.
Proof.
  unfold socket_read, bind at 1. rewrite socket_poll_run. cbv zeta.
  destruct (split1 CRLF _) as [[f rest]|]; [|done].
  unfold bind at 1, setting at 1.
  replace (_settings (set_sock_rx_buf rest self)) with (_settings self)
    by by destruct self.
  destruct (_settings self !! "timestamped") as [flag|]; [|done].
  case_bool_decide; [|done].
  unfold bind, lift, first_item.
  destruct (split_char " " f) as [|w words]; [done|]. simpl.
  by destruct (float_of_string w).
Qed.



(** ** A line that arrives in pieces *)

Lemma no_delimiter_prefix a b : no_delimiter (a +:+ b) → no_delimiter a.
Proof.
  intros Hno f rest Heq. apply (Hno f (rest +:+ b)).
  by rewrite Heq, !append_assoc.
Qed.

Lemma concat_cons_text (piece : string) pieces :
  foldr String.append "" (piece :: pieces)
    = piece +:+ foldr String.append "" pieces.
Proof. reflexivity. Qed.



(** ** The signal quality of a radio frame *)

Lemma in_parentheses_marked r : in_parentheses ("(" +:+ r +:+ ")") = Ret true.
Proof.
  unfold in_parentheses, last_char. rewrite append_cons, append_nil_l.
  cbn [first_char mbind result_bind].
  rewrite bool_decide_eq_true_2 by done.
  rewrite rev_cons, rev_append. by cbn.
Qed.

Lemma marked_content r : drop_last 1 (str_drop 1 ("(" +:+ r +:+ ")")) = r.
Proof.
  rewrite append_cons, append_nil_l. cbn [str_drop].
  change 1%nat with (String.length ")"). apply drop_last_append.
Qed.

Lemma last_item_snoc {A} (l : list A) x : last_item (l ++ [x]) = Ret x.
Proof. unfold last_item. by rewrite last_snoc. Qed.

Lemma init_items_snoc {A} (l : list A) x : init_items (l ++ [x]) = l.
Proof. apply removelast_last. Qed.

Lemma jee_validate_marked ref self body r :
  jee_validate_frame ref ("OK" :: body ++ ["(" +:+ r +:+ ")"]) self =
    match int_of_string r with
    | Some v => (Ret (Some body), set_rssi (Some v) self)
    | None => (Raise ValueError, self)
    end.
Proof.
  unfold jee_validate_frame.
  unfold bind at 1, lift at 1. cbn [first_item].
  rewrite (bool_decide_eq_false_2 ("OK" = "?")) by done.
  unfold bind at 1, ret at 1.
  rewrite (bool_decide_eq_true_2 ("OK" = "OK")) by done. cbn [tail].
  unfold bind at 1, lift at 1. rewrite last_item_snoc.
  unfold bind at 1, lift at 1. rewrite in_parentheses_marked.
  unfold bind at 1, lift at 1. rewrite marked_content. unfold int.
  destruct (int_of_string r) as [v|]; [|done].
  unfold bind, modify, ret. by rewrite init_items_snoc.
Qed.



(** ** The generic settings stay valid *)

Lemma generic_kept_pure {A} (x : result A) : generic_kept (λ self, (x, self)).
Proof. by intros self. Qed.

Lemma generic_kept_ret {A} (a : A) : generic_kept (ret a).
Proof. apply generic_kept_pure. Qed.

Lemma generic_kept_raise {A} e : generic_kept (@raise A e).
Proof. apply generic_kept_pure. Qed.

Lemma generic_kept_lift {A} (r : result A) : generic_kept (lift r).
Proof. apply generic_kept_pure. Qed.

Lemma generic_kept_get {A} (field : interfacer → A) : generic_kept (get field).
Proof. by intros self. Qed.

Lemma generic_kept_setting key : generic_kept (setting key).
Proof. intros self. unfold setting. by destruct (_settings self !! key). Qed.

Lemma generic_kept_bind {A B} (m : M A) (k : A → M B) :
  generic_kept m → (∀ a, generic_kept (k a)) → generic_kept (bind m k).
Proof.
  intros Hm Hk self. unfold bind. destruct (Hm self) as [Hd Hs].
  destruct (m self) as [[a|e] self1]; simpl in *; [|done].
  destruct (Hk a self1) as [Hd' Hs']. split; [congruence|].
  intros key Hkey. by rewrite Hs', Hs.
Qed.

Lemma generic_kept_modify f :
  (∀ self, _defaults (f self) = _defaults self
           ∧ _settings (f self) = _settings self) →
  generic_kept (modify f).
Proof.
  intros Hf self. destruct (Hf self) as [Hd Hs]. simpl. split; [done|].
  intros key _. by rewrite Hs.
Qed.

Lemma generic_kept_log l msg : generic_kept (log l msg).
Proof. apply generic_kept_modify. by intros []. Qed.

Lemma generic_kept_put x : generic_kept (put x).
Proof. apply generic_kept_modify. by intros []. Qed.

Lemma generic_kept_write s : generic_kept (write s).
Proof. apply generic_kept_modify. by intros []. Qed.

Lemma generic_kept_for_each {A} (body : A → M unit) l :
  (∀ x, x ∈ l → generic_kept (body x)) → generic_kept (for_each body l).
Proof.
  induction l as [|x l IH]; intros Hbody.
  - apply generic_kept_ret.
  - simpl. apply generic_kept_bind.
    + apply Hbody. by left.
    + intros _. apply IH. intros y Hy. apply Hbody. by right.
Qed.

(** A setting stored under another key. *)
Lemma generic_kept_store key v :
  key ∉ generic_keys →
  generic_kept (modify (λ self, set_settings (<[key := v]> (_settings self)) self)).
Proof.
  intros Hkey self. split; [by destruct self|].
  intros k Hk. replace (_settings _) with (<[key := v]> (_settings self))
    by by destruct self.
  apply lookup_insert_ne. by intros ->.
Qed.

Lemma generic_kept_process_frame c now frame timestamp :
  generic_kept (_process_frame c now frame timestamp).
Proof.
  intros self.
  destruct (process_frame_footprint c now frame timestamp self)
    as (new & r & n & ->).
  by destruct self.
Qed.

Ltac generic_kept_step :=
  first
    [ apply generic_kept_process_frame
    | apply generic_kept_bind; [|intros ?]
    | apply generic_kept_ret
    | apply generic_kept_raise
    | apply generic_kept_lift
    | apply generic_kept_get
    | apply generic_kept_setting
    | apply generic_kept_log
    | apply generic_kept_put
    | apply generic_kept_write
    | apply generic_kept_modify; by intros []
    | match goal with
      | |- generic_kept (match ?x with _ => _ end) => destruct x
      | |- generic_kept (if ?x then _ else _) => destruct x
      | |- generic_kept (let '(_, _) := ?x in _) => destruct x
      end ].

Lemma generic_kept_read c w : generic_kept (read c w).
Proof.
  unfold read, serial_read, jee_read, socket_read, twi_read, serial_poll,
    socket_poll.
  repeat first
    [ apply generic_kept_for_each; intros ? _; unfold twi_read_device
    | generic_kept_step ].
Qed.

Lemma generic_kept_action w : generic_kept (action w).
Proof. unfold action, jee_action, send_packet. repeat generic_kept_step. Qed.

Lemma generic_kept_run_once c w : generic_kept (run_once c w).
Proof.
  unfold run_once.
  repeat first
    [apply generic_kept_read | apply generic_kept_action | generic_kept_step].
Qed.

Lemma generic_kept_jee_set_item kwargs kv :
  kv.1 ∉ generic_keys → generic_kept (jee_set_item kwargs kv).
Proof.
  destruct kv as [key d]. simpl. intros Hkey. unfold jee_set_item.
  repeat first [by apply generic_kept_store | generic_kept_step].
Qed.

Lemma generic_kept_twi_set_item kwargs kv :
  kv.1 ∉ generic_keys → generic_kept (twi_set_item kwargs kv).
Proof.
  destruct kv as [key d]. simpl. intros Hkey. unfold twi_set_item.
  repeat first [by apply generic_kept_store | generic_kept_step].
Qed.

Lemma well_configured_kept {A} (m : M A) self :
  generic_kept m → well_configured self → well_configured (m self).2.
Proof.
  intros Hm [Hd Hs]. destruct (Hm self) as [Hd' Hs']. split; [congruence|].
  intros key Hkey. rewrite Hs' by done. by apply Hs.
Qed.

Lemma set_well_configured kwargs self :
  well_configured self → well_configured (set kwargs self).2.
Proof.
  intros [Hd Hs].
  assert (NoDup (_defaults self).*1) as Hnd.
  { rewrite Hd. apply (bool_decide_unpack _). by vm_compute. }
  destruct (set_run kwargs self) as (S & new & Hrun & _ & Hk).
  rewrite Hrun. cbn [snd]. split.
  - by rewrite defaults_after_set.
  - intros key Hkey. rewrite settings_after_set.
    assert (key ∈ (_defaults self).*1) as Hin by by rewrite Hd.
    apply list_elem_of_fmap in Hin as [[k d] [-> Hin]]. simpl in *.
    destruct (Hk k d Hnd Hin) as [-> _].
    destruct (Hs k Hkey) as (w & Hw & Hok). rewrite Hw.
    unfold key_value. case_bool_decide; [by exists w|].
    destruct (valid_setting k (default d (kwargs !! k))) eqn:Hv; [|by exists w].
    eexists. split; [reflexivity|exact Hv].
Qed.

Lemma self_set_well_configured kwargs self :
  well_configured self → well_configured (self_set kwargs self).2.
Proof.
  intros Hwc. unfold self_set, bind at 1, get.
  assert (∀ items (body : gmap string pyval → string * pyval → M unit),
            (∀ kv, kv ∈ items → generic_kept (body kwargs kv)) →
            well_configured
              (bind (for_each (body kwargs) items) (λ _, set kwargs) self).2)
    as Hloop.
  { intros items body Hbody. unfold bind.
    pose proof (well_configured_kept (for_each (body kwargs) items) self
                  (generic_kept_for_each _ _ Hbody) Hwc) as Hwc1.
    destruct (for_each (body kwargs) items self) as [[[]|e] self1]; [|done].
    by apply set_well_configured. }
  destruct (cls self); try by apply set_well_configured.
  - apply (Hloop _jee_settings jee_set_item). intros kv Hkv.
    apply generic_kept_jee_set_item. revert kv Hkv. apply Forall_forall.
    apply (bool_decide_unpack _). by vm_compute.
  - apply (Hloop _twi_settings twi_set_item). intros kv Hkv.
    apply generic_kept_twi_set_item. revert kv Hkv. apply Forall_forall.
    apply (bool_decide_unpack _). by vm_compute.
Qed.

Lemma new_well_configured k nm info : well_configured (new k nm info).
Proof.
  split; [by destruct k|].
  intros key Hkey. unfold new. cbn [_settings].
  unfold generic_keys in Hkey.
  repeat (apply elem_of_cons in Hkey as [->|Hkey]);
    [..|by apply elem_of_nil in Hkey];
    destruct k; try destruct (all_markers info); by eexists.
Qed.

Lemma after_well_configured c calls self :
  well_configured self → well_configured (after c calls self).
Proof.
  revert self. induction calls as [|e calls IH]; intros self Hwc; [done|].
  simpl. apply IH. destruct e as [kwargs|w]; simpl.
  - by apply self_set_well_configured.
  - by apply well_configured_kept; [apply generic_kept_run_once|].
Qed.


Lemma digits_value_all s acc :
  all_digits s = true → 0 ≤ acc →
  ∃ n, digits_value acc s = Some n ∧ 0 ≤ n.
Proof.
  revert acc. induction s as [|c s IH]; intros acc Hall Hacc.
  - by exists acc.
  - simpl in *. apply andb_true_iff in Hall as [Hc Hs].
    apply bool_decide_eq_true in Hc as [d Hd]. rewrite Hd.
    apply IH; [done|lia].
Qed.

(** A value that [str(v).isdigit()] accepts is one that [int] reads, as
    a natural number. *)
Lemma int_of_digits v :
  isdigit (str v) = true → ∃ n, int v = Ret n ∧ 0 ≤ n.
Proof.
  unfold isdigit. intros [Hne Hall]%andb_true_iff.
  apply negb_true_iff, bool_decide_eq_false in Hne.
  destruct v as [s|z|l]; simpl in *.
  - destruct s as [|c t] eqn:Hs; [done|]. rewrite <- Hs in *.
    assert (is_Some (Ascii.is_nat c)) as Hc.
    { rewrite Hs in Hall. simpl in Hall.
      apply andb_true_iff in Hall as [Hc _]. by apply bool_decide_eq_true in Hc. }
    destruct (digits_value_all s 0 Hall ltac:(lia)) as (n & Hn & Hpos).
    exists n. split; [|done].
    unfold int_of_string, signed_literal. rewrite strip_digits by done.
    rewrite Hs, split_sign_digit by done. rewrite <- Hs.
    unfold unsigned_literal, isdigit. rewrite Hall.
    rewrite bool_decide_eq_false_2 by done. simpl. by rewrite Hn.
  - exists z. split; [done|]. destruct z as [|p|p]; [lia|lia|].
    by change (pretty (Z.neg p)) with (String "-" (pretty p)) in Hall.
  - by unfold repr_list in Hall.
Qed.

Lemma valid_setting_pause v :
  valid_setting "pause" v
    = bool_decide (lower (str v) ∈ ["all"; "in"; "out"; "off"]).
Proof.
  unfold valid_setting.
  rewrite (bool_decide_eq_true_2 ("pause" = "pause")) by done.
  rewrite (bool_decide_eq_false_2 ("pause" = "interval")) by done.
  rewrite (bool_decide_eq_false_2 ("pause" = "datacode")) by done.
  rewrite (bool_decide_eq_false_2 ("pause" = "timestamped")) by done.
  by rewrite andb_true_l, !andb_false_l, !orb_false_r.
Qed.

Lemma valid_setting_interval v : valid_setting "interval" v = isdigit (str v).
Proof.
  unfold valid_setting.
  rewrite (bool_decide_eq_false_2 ("interval" = "pause")) by done.
  rewrite (bool_decide_eq_true_2 ("interval" = "interval")) by done.
  rewrite (bool_decide_eq_false_2 ("interval" = "datacode")) by done.
  rewrite (bool_decide_eq_false_2 ("interval" = "timestamped")) by done.
  by rewrite andb_true_l, !andb_false_l, !orb_false_r.
Qed.

(** A valid pause setting is a string. *)
Lemma pause_is_string v :
  valid_setting "pause" v = true → ∃ p, v = PStr p.
Proof.
  rewrite valid_setting_pause.
  destruct v as [s|z|l]; [by eexists| |].
  - intros Hin%bool_decide_eq_true. exfalso. cbn [str] in Hin.
    destruct z as [|p|p].
    + revert Hin. apply (bool_decide_unpack _). by vm_compute.
    + change (pretty (Z.pos p)) with (pretty p) in Hin.
      destruct (pretty_pos_digits p) as (_ & _ & c & t & Hs & Hc).
      rewrite Hs in Hin. simpl in Hin.
      assert (lower_char c = c) as Hlow.
      { destruct c as [[] [] [] [] [] [] [] []]; try reflexivity;
          by destruct Hc as [? [=]]. }
      rewrite Hlow in Hin.
      repeat (apply elem_of_cons in Hin as [Hin|Hin];
              [injection Hin as -> _; by destruct Hc as [? [=]]|]).
      by apply elem_of_nil in Hin.
    + change (pretty (Z.neg p)) with (String "-" (pretty p)) in Hin.
      simpl in Hin.
      repeat (apply elem_of_cons in Hin as [Hin|Hin]; [discriminate|]).
      by apply elem_of_nil in Hin.
  - intros Hin%bool_decide_eq_true. exfalso. unfold str, repr_list in Hin.
    simpl in Hin.
    repeat (apply elem_of_cons in Hin as [Hin|Hin]; [discriminate|]).
    by apply elem_of_nil in Hin.
Qed.

Lemma well_configured_interval self :
  well_configured self →
  ∃ iv n, _settings self !! "interval" = Some iv ∧ int iv = Ret n ∧ 0 ≤ n.
Proof.
  intros [_ Hs].
  destruct (Hs "interval") as (iv & Hiv & Hok).
  { apply (bool_decide_unpack _). by vm_compute. }
  rewrite valid_setting_interval in Hok.
  destruct (int_of_digits iv Hok) as (n & Hn & Hpos).
  by exists iv, n.
Qed.

Lemma jee_action_run t hh mm self iv n :
  _settings self !! "interval" = Some iv → int iv = Ret n →
  jee_action t hh mm self =
    if negb (n =? 0) && Qle_bool (inject_Z n) (t - _interval_timestamp self)
    then
      (Ret tt,
       set_ser
         (_ser self ++
          ["0," +:+ pretty hh +:+ "," +:+ pretty mm +:+ ",0,0s"])%list
         (set_interval_timestamp t
            (set_log (_log self ++ [(DEBUG, BroadcastTime (name self) hh mm)])%list
               self)))
    else (Ret tt, self).
Proof.
  intros Hiv Hn. unfold jee_action.
  unfold bind at 1, setting at 1. rewrite Hiv.
  unfold bind at 1, lift at 1. rewrite Hn.
  destruct (n =? 0); [done|]. cbn [negb andb].
  unfold bind at 1, get at 1.
  destruct (Qle_bool _ _); [|done].
  unfold send_packet, bind, get, log, write, modify. simpl.
  rewrite !append_assoc. destruct self; reflexivity.
Qed.


(** ** Fields that a computation leaves alone *)

Section kept.
Context {B : Type} (field : interfacer → B).

Lemma kept_ret {A} (a : A) : kept field (ret a).
Proof. by intros self. Qed.

Lemma kept_raise {A} e : kept field (@raise A e).
Proof. by intros self. Qed.

Lemma kept_lift {A} (r : result A) : kept field (lift r).
Proof. by intros self. Qed.

Lemma kept_get {A} (f : interfacer → A) : kept field (get f).
Proof. by intros self. Qed.

Lemma kept_setting key : kept field (setting key).
Proof. intros self. unfold setting. by destruct (_settings self !! key). Qed.

Lemma kept_bind {A C} (m : M A) (k : A → M C) :
  kept field m → (∀ a, kept field (k a)) → kept field (bind m k).
Proof.
  intros Hm Hk self. unfold bind. specialize (Hm self).
  destruct (m self) as [[a|e] self1]; simpl in *; [|done].
  by rewrite Hk.
Qed.

Lemma kept_modify f :
  (∀ self, field (f self) = field self) → kept field (modify f).
Proof. intros Hf self. apply Hf. Qed.

Lemma kept_for_each {A} (body : A → M unit) l :
  (∀ x, kept field (body x)) → kept field (for_each body l).
Proof.
  intros Hbody. induction l as [|x l IH]; [apply kept_ret|].
  simpl. apply kept_bind; [apply Hbody|]. by intros _.
Qed.

Lemma kept_process_frame c now frame timestamp :
  (∀ r L n self,
     field (set_rssi r (set_log L (set_packet_counter n self))) = field self) →
  kept field (_process_frame c now frame timestamp).
Proof.
  intros Hfield self.
  destruct (process_frame_footprint c now frame timestamp self)
    as (new & r & n & ->).
  apply Hfield.
Qed.
End kept.

Ltac kept_step :=
  first
    [ apply kept_process_frame; by intros ? ? ? []
    | apply kept_bind; [|intros ?]
    | apply kept_ret
    | apply kept_raise
    | apply kept_lift
    | apply kept_get
    | apply kept_setting
    | apply kept_modify; by intros []
    | apply kept_for_each; intros ?
    | match goal with
      | |- kept _ (match ?x with _ => _ end) => destruct x
      | |- kept _ (if ?x then _ else _) => destruct x
      | |- kept _ (let '(_, _) := ?x in _) => destruct x
      end ].

Lemma twi_read_device_kept_settings c t now bus b :
  kept _settings (twi_read_device c t now bus b).
Proof. unfold twi_read_device, log, put. repeat kept_step. Qed.

Lemma twi_read_device_kept_timestamp c t now bus b :
  kept _interval_timestamp (twi_read_device c t now bus b).
Proof. unfold twi_read_device, log, put. repeat kept_step. Qed.

(** ** Every call of [set] and the generic keys *)

Section silent.
Context (key : string).

Lemma silent_pure {A} (x : result A) : silent_about key (λ self, (x, self)).
Proof. intros self. exists []. simpl. by rewrite app_nil_r. Qed.

Lemma silent_ret {A} (a : A) : silent_about key (ret a).
Proof. apply silent_pure. Qed.

Lemma silent_raise {A} e : silent_about key (@raise A e).
Proof. apply silent_pure. Qed.

Lemma silent_lift {A} (r : result A) : silent_about key (lift r).
Proof. apply silent_pure. Qed.

Lemma silent_get {A} (field : interfacer → A) : silent_about key (get field).
Proof. intros self. exists []. simpl. by rewrite app_nil_r. Qed.

Lemma silent_setting k : silent_about key (setting k).
Proof.
  intros self. exists []. unfold setting.
  destruct (_settings self !! k); simpl; by rewrite app_nil_r.
Qed.

Lemma silent_modify f :
  (∀ self, _log (f self) = _log self) → silent_about key (modify f).
Proof. intros Hf self. exists []. simpl. by rewrite Hf, app_nil_r. Qed.

Lemma silent_log l msg :
  about key (l, msg) = false → silent_about key (log l msg).
Proof.
  intros Hmsg self. exists [(l, msg)]. split; [by destruct self|].
  rewrite filter_cons, Hmsg. done.
Qed.

Lemma silent_bind {A B} (m : M A) (k : A → M B) :
  silent_about key m → (∀ a, silent_about key (k a)) →
  silent_about key (bind m k).
Proof.
  intros Hm Hk self. unfold bind. destruct (Hm self) as (new & Hlog & Hnew).
  destruct (m self) as [[a|e] self1]; simpl in *.
  - destruct (Hk a self1) as (new' & Hlog' & Hnew').
    exists (new ++ new')%list. split.
    + by rewrite Hlog', Hlog, app_assoc.
    + by rewrite filter_app, Hnew, Hnew'.
  - by exists new.
Qed.

Lemma silent_for_each {A} (body : A → M unit) l :
  (∀ x, x ∈ l → silent_about key (body x)) →
  silent_about key (for_each body l).
Proof.
  induction l as [|x l IH]; intros Hbody; [apply silent_ret|].
  simpl. apply silent_bind.
  - apply Hbody. by left.
  - intros _. apply IH. intros y Hy. apply Hbody. by right.
Qed.

End silent.

Ltac silent_step :=
  first
    [ apply silent_bind; [|intros ?]
    | apply silent_ret
    | apply silent_raise
    | apply silent_lift
    | apply silent_get
    | apply silent_setting
    | apply silent_modify; by intros []
    | apply silent_log; unfold about; simpl; by apply bool_decide_eq_false_2
    | match goal with
      | |- silent_about _ (match ?x with _ => _ end) => destruct x
      | |- silent_about _ (if ?x then _ else _) => destruct x
      end ].

Lemma silent_jee_set_item key kwargs kv :
  kv.1 ≠ key → silent_about key (jee_set_item kwargs kv).
Proof.
  destruct kv as [k d]. simpl. intros Hne. unfold jee_set_item, write.
  repeat silent_step.
Qed.

Lemma silent_twi_set_item key kwargs kv :
  kv.1 ≠ key → silent_about key (twi_set_item kwargs kv).
Proof.
  destruct kv as [k d]. simpl. intros Hne. unfold twi_set_item.
  repeat silent_step.
Qed.

Lemma own_keys_apart key kv :
  key ∈ generic_keys → kv ∈ (_jee_settings ++ _twi_settings)%list →
  (kv.1 ∉ generic_keys) ∧ (kv.1 ≠ key).
Proof.
  intros Hkey Hkv.
  assert (kv.1 ∉ generic_keys) as Hout.
  { revert kv Hkv. apply Forall_forall.
    apply (bool_decide_unpack _). by vm_compute. }
  split; [done|]. intros Heq. apply Hout. by rewrite Heq.
Qed.

(** The loop over the keys of the class leaves the generic settings
    and [self._defaults] alone and logs nothing about a generic key. *)
Lemma own_keys_apart_run kwargs key self :
  key ∈ generic_keys →
  generic_kept (own_keys kwargs)
  ∧ silent_about key (own_keys kwargs)
  ∧ name (own_keys kwargs self).2 = name self.
Proof.
  intros Hkey. split; [|split].
  - unfold own_keys. apply generic_kept_bind; [apply generic_kept_get|].
    intros []; try apply generic_kept_ret; apply generic_kept_for_each;
      intros kv Hkv.
    + apply generic_kept_jee_set_item.
      apply (own_keys_apart key); [done|]. apply elem_of_app. by left.
    + apply generic_kept_twi_set_item.
      apply (own_keys_apart key); [done|]. apply elem_of_app. by right.
  - unfold own_keys. apply silent_bind; [apply silent_get|].
    intros []; try apply silent_ret; apply silent_for_each; intros kv Hkv.
    + apply silent_jee_set_item.
      apply (own_keys_apart key); [done|]. apply elem_of_app. by left.
    + apply silent_twi_set_item.
      apply (own_keys_apart key); [done|]. apply elem_of_app. by right.
  - assert (kept name (own_keys kwargs)) as Hname; [|apply Hname].
    unfold own_keys, jee_set_item, twi_set_item, log, write.
    repeat kept_step.
Qed.

Lemma self_set_own_keys kwargs self :
  self_set kwargs self = bind (own_keys kwargs) (λ _, set kwargs) self.
Proof.
  unfold self_set, own_keys, bind, get. by destruct (cls self).
Qed.

(** C4, amended. A call of [set] on a reader of any class whose four
    generic settings are there with valid values (as they are from the
    constructor on), and a generic key (pause, interval, datacode,
    timestamped) that the keyword arguments give a candidate for.  The
    call ends as the loop over the keys of the class ends: it raises
    exactly when that loop raises, which the base, serial and socket
    readers, having no such loop, never do.  When the call raises, the
    key keeps its stored value and nothing is logged about it.  When
    the call returns: a candidate that fails the test of the key leaves
    the stored value as it is, and the only record about the key is the
    warning naming the key and the rejected value; a valid candidate
    that differs from the stored value becomes the stored value, and
    the only record about the key is the one ["Setting ..."] record
    that follows the single assignment; a candidate equal to the stored
    value changes nothing and leaves no record about the key. *)
Theorem set_generic_key kwargs self key v :
  well_configured self → key ∈ generic_keys → kwargs !! key = Some v →
  let old := _settings self !! key in
  let outcome := self_set kwargs self in
  ∃ new,
    _log outcome.2 = (_log self ++ new)%list
    ∧ outcome.1 = (own_keys kwargs self).1
    ∧ (cls self ∉ [Jee; Twi] → outcome.1 = Ret tt)
    ∧ (outcome.1 ≠ Ret tt →
       _settings outcome.2 !! key = old
       ∧ filter (λ e, about key e) new = [])
    ∧ (outcome.1 = Ret tt →
       (valid_setting key v = false →
          _settings outcome.2 !! key = old
          ∧ filter (λ e, about key e) new
            = [(WARNING, NotAValidSetting v (name self) key)])
       ∧ (valid_setting key v = true → old ≠ Some v →
          _settings outcome.2 !! key = Some v
          ∧ filter (λ e, about key e) new
            = [(DEBUG, Setting (name self) key v)])
       ∧ (old = Some v →
          _settings outcome.2 !! key = Some v
          ∧ filter (λ e, about key e) new = [])).
Proof.
  intros Hwc Hkey Hkw old outcome. subst outcome.
  rewrite self_set_own_keys.
  destruct (own_keys_apart_run kwargs key self Hkey) as (Hgen & Hsilent & Hname).
  destruct (Hsilent self) as (new1 & Hlog1 & Hnew1).
  destruct (Hgen self) as [Hd1 Hs1]. specialize (Hs1 key Hkey).
  pose proof (well_configured_kept _ self Hgen Hwc) as Hwc1.
  assert (cls self ∉ [Jee; Twi] → (own_keys kwargs self).1 = Ret tt) as Hplain.
  { intros Hcls. unfold own_keys, bind, get.
    destruct (cls self); try done; exfalso; apply Hcls;
      [by left|by right; left]. }
  unfold bind.
  destruct (own_keys kwargs self) as [[[]|e] s1]; cbn [fst snd] in *.
  - destruct (set_run kwargs s1) as (S & new2 & Hrun & _ & Hk).
    rewrite Hrun. cbn [fst snd].
    destruct Hwc1 as [Hd Hvalid].
    assert (NoDup (_defaults s1).*1) as Hnd.
    { rewrite Hd. apply (bool_decide_unpack _). by vm_compute. }
    assert (key ∈ (_defaults s1).*1) as Hin by by rewrite Hd.
    apply list_elem_of_fmap in Hin as [[k d] [Hkd Hin]]. simpl in Hkd.
    subst k. destruct (Hk key d Hnd Hin) as [HS Hnew2].
    rewrite Hkw in HS, Hnew2. change (default d (Some v)) with v in HS, Hnew2.
    rewrite Hs1 in HS, Hnew2. rewrite Hname in Hnew2. fold old in HS, Hnew2.
    exists (new1 ++ new2)%list.
    assert (filter (λ e, about key e) (new1 ++ new2)%list
            = filter (λ e, about key e) new2) as Hfilter
      by by rewrite filter_app, Hnew1.
    rewrite Hfilter, Hnew2. rewrite settings_after_set, HS.
    split; [|split; [done|split; [done|split; [done|]]]].
    { destruct s1; simpl in *. by rewrite Hlog1, app_assoc. }
    intros _. unfold key_value, key_entries.
    destruct (Hvalid key Hkey) as (w & Hw & Hok).
    rewrite Hs1 in Hw. fold old in Hw.
    split; [|split].
    + intros Hbad.
      assert (old ≠ Some v) as Hne.
      { intros Heq. rewrite Hw in Heq. injection Heq as ->.
        by rewrite Hok in Hbad. }
      rewrite !bool_decide_eq_false_2 by done.
      by rewrite Hbad.
    + intros Hgood Hne.
      rewrite !bool_decide_eq_false_2 by done. by rewrite Hgood.
    + intros Heq. rewrite !bool_decide_eq_true_2 by done. done.
  - exists new1. split; [done|]. split; [done|]. split; [done|].
    split; [by rewrite Hs1|]. done.
Qed.

Lemma serial_is_plain : Serial ∉ [Jee; Twi].
Proof.
  intros Hin. repeat (apply elem_of_cons in Hin as [Hin|Hin]; [discriminate|]).
  by apply elem_of_nil in Hin.
Qed.

Lemma set_generic_key_witness :
  let self := new Serial "serial" "" in
  let good : gmap string pyval := {[ "pause" := PStr "out" ]} in
  let bad : gmap string pyval := {[ "pause" := PStr "maybe" ]} in
  let partial : gmap string pyval :=
    {[ "deviceids" := PList ["8"]; "pause" := PStr "off" ]} in
  (well_configured self ∧ well_configured paused_bus
   ∧ "pause" ∈ generic_keys
   ∧ good !! "pause" = Some (PStr "out")
   ∧ bad !! "pause" = Some (PStr "maybe")
   ∧ partial !! "pause" = Some (PStr "off"))
  ∧ (_settings (self_set good self).2 !! "pause" = Some (PStr "out")
     ∧ ∃ new,
         _log (self_set good self).2 = (_log self ++ new)%list
         ∧ filter (λ e, about "pause" e) new
           = [(DEBUG, Setting "serial" "pause" (PStr "out"))])
  ∧ (_settings (self_set bad self).2 !! "pause" = Some (PStr "off")
     ∧ ∃ new,
         _log (self_set bad self).2 = (_log self ++ new)%list
         ∧ filter (λ e, about "pause" e) new
           = [(WARNING, NotAValidSetting (PStr "maybe") "serial" "pause")])
  ∧ (self_set partial paused_bus).1 = Raise ValueError
  ∧ _settings (self_set partial paused_bus).2 !! "pause" = Some (PStr "out").
Proof.
  intros self good bad partial.
  assert (well_configured self) as Hwc by apply new_well_configured.
  assert (well_configured paused_bus) as Hwc'.
  { apply self_set_well_configured, new_well_configured. }
  assert ("pause" ∈ generic_keys) as Hkey.
  { apply (bool_decide_unpack _). by vm_compute. }
  assert (good !! "pause" = Some (PStr "out")) as Hgood by by vm_compute.
  assert (bad !! "pause" = Some (PStr "maybe")) as Hbad by by vm_compute.
  assert (partial !! "pause" = Some (PStr "off")) as Hpartial by by vm_compute.
  split; [exact (conj Hwc (conj Hwc' (conj Hkey (conj Hgood
                   (conj Hbad Hpartial)))))|].
  split; [|split].
  - destruct (set_generic_key good self "pause" (PStr "out") Hwc Hkey Hgood)
      as (new & Hlog & _ & Hplain & _ & Hreturns).
    destruct (Hreturns (Hplain serial_is_plain)) as (_ & Hvalid & _).
    destruct (Hvalid eq_refl ltac:(by vm_compute)) as [Hstored Hrecords].
    split; [exact Hstored|]. by exists new.
  - destruct (set_generic_key bad self "pause" (PStr "maybe") Hwc Hkey Hbad)
      as (new & Hlog & _ & Hplain & _ & Hreturns).
    destruct (Hreturns (Hplain serial_is_plain)) as (Hinvalid & _).
    destruct (Hinvalid eq_refl) as [Hstored Hrecords].
    split; [exact Hstored|]. by exists new.
  - destruct (set_generic_key partial paused_bus "pause" (PStr "off") Hwc' Hkey
                Hpartial) as (new & _ & Hends & _ & Hraises & _).
    assert ((self_set partial paused_bus).1 = Raise ValueError) as Hraise.
    { rewrite Hends. by vm_compute. }
    split; [exact Hraise|].
    destruct Hraises as [Hstored _]; [by rewrite Hraise|].
    rewrite Hstored. by vm_compute.
Defined.

(** C4: a counterexample.  The candidate ['abc'] for the radio key
    ['baseid'] fails the test of the key, and [set] raises [ValueError],
    in whichever order the radio keys are visited; the valid candidate
    ['out'] given for the pause in the same call is not stored.  A bus
    reader that holds the pause ['out'] is given the valid candidate
    ['off'] together with a list of devices and no length: the call
    raises and the pause is still ['out'].  A radio reader whose device
    reports its settings without the quiet flag is given the stored
    value of ['quiet'] again: the value is sent to the device and logged
    again.  A bus reader whose length is set to the stored value again
    logs the setting again. *)
Lemma set_generic_key_counterexample :
  Forall
    (λ items,
       (jee_set_in items {[ "baseid" := PStr "abc" ]} radio).1
       = Raise ValueError)
    (permutations _jee_settings)
  ∧ (self_set {[ "baseid" := PStr "abc" ]} radio).1 = Raise ValueError
  ∧ (let kwargs : gmap string pyval :=
       {[ "baseid" := PStr "abc"; "pause" := PStr "out" ]} in
     valid_setting "pause" (PStr "out") = true
     ∧ (self_set kwargs radio).1 = Raise ValueError
     ∧ _settings (self_set kwargs radio).2 !! "pause" = Some (PStr "off"))
  ∧ (let kwargs : gmap string pyval :=
       {[ "deviceids" := PList ["8"]; "pause" := PStr "off" ]} in
     valid_setting "pause" (PStr "off") = true
     ∧ (self_set kwargs paused_bus).1 = Raise ValueError
     ∧ _settings (self_set kwargs paused_bus).2 !! "pause"
       = Some (PStr "out"))
  ∧ (let self := new Jee "jee" " i15 g210 @ 433 MHz" in
     let kwargs : gmap string pyval := {[ "quiet" := PStr "True" ]} in
     _settings self !! "quiet" = Some (PStr "True")
     ∧ self_set kwargs self
       = (Ret tt,
          set_ser ["1q"]
            (set_log [(INFO, SettingCommand "jee" "quiet" (PStr "True") "1q")]
               self)))
  ∧ (let kwargs : gmap string pyval :=
       {[ "deviceids" := PList ["8"]; "length" := PStr "4";
          "pause" := PStr "out" ]} in
     _settings paused_bus !! "length" = Some (PStr "4")
     ∧ (self_set kwargs paused_bus).1 = Ret tt
     ∧ filter (λ e, about "length" e)
         (drop (length (_log paused_bus))
            (_log (self_set kwargs paused_bus).2))
       = [(INFO, Setting "twi" "length" (PStr "4"))]).
Proof.
  split; [|by vm_compute].
  vm_compute permutations. repeat constructor; by vm_compute.
Qed.

(** ** Tasks done at intervals *)

Lemma Qle_bool_false a b : (b < a)%Q → Qle_bool a b = false.
Proof.
  intros Hlt. destruct (Qle_bool a b) eqn:Hle; [|done].
  apply Qle_bool_iff in Hle. by apply Qle_not_lt in Hle.
Qed.

Lemma Qle_bool_true a b : (a <= b)%Q → Qle_bool a b = true.
Proof. apply Qle_bool_iff. Qed.



(** ** The poll cycle of the bus reader *)

Lemma twi_read_device_queue c t now bus b self :
  ∃ items,
    _rxq (twi_read_device c t now bus b self).2 = (_rxq self ++ items)%list
    ∧ (length items ≤ 1)%nat.
Proof.
  assert (∀ s, ∃ items, _rxq s = (_rxq s ++ items)%list ∧ (length items ≤ 1)%nat)
    as Hsame.
  { intros s. exists []. rewrite app_nil_r. simpl. split; [done|lia]. }
  assert (∀ (s : interfacer) items (m : M unit),
            kept _rxq m →
            _rxq s = (_rxq self ++ items)%list →
            _rxq (m s).2 = (_rxq self ++ items)%list) as Hlog.
  { intros s items m Hm <-. apply Hm. }
  assert (∀ add retry,
            kept _rxq
              (nm <~ get name;
               if negb (retry =? 0)%nat then
                 if (retry =? max_retry)%nat
                 then log WARNING (FailedReads nm add (Z.of_nat max_retry))
                 else log DEBUG (Retried nm add (Z.of_nat retry))
               else ret tt)) as Htail.
  { intros add retry. unfold log. repeat kept_step. }
  unfold twi_read_device.
  unfold bind at 1, lift at 1. destruct (int b) as [add|e]; [|apply Hsame].
  unfold bind at 1, setting at 1.
  destruct (_settings self !! "length") as [ln|]; [|apply Hsame].
  unfold bind at 1, lift at 1. destruct (int ln) as [len|e]; [|apply Hsame].
  destruct (read_retry (bus add 0 len) max_retry 0) as [frame retry].
  unfold bind at 1. destruct frame as [|x frame].
  - unfold ret at 1. exists []. split; [|simpl; lia].
    apply Hlog; [apply Htail|by rewrite app_nil_r].
  - unfold bind at 1.
    pose proof (queue_kept_process_frame c now
                  (str b +:+ " " +:+ join " " (pretty <$> x :: frame))
                  (Ffin t) self) as Hq.
    destruct (_process_frame c now _ (Ffin t) self) as [[values|e] self1];
      simpl in Hq.
    + exists [values]. split; [|simpl; lia].
      apply Hlog; [apply Htail|]. unfold put, modify. simpl.
      rewrite <- Hq. by destruct self1.
    + exists []. simpl. rewrite app_nil_r, Hq. split; [done|lia].
Qed.

Lemma for_each_queue {A} (body : A → M unit) l self :
  (∀ x s, ∃ items,
     _rxq (body x s).2 = (_rxq s ++ items)%list ∧ (length items ≤ 1)%nat) →
  ∃ items,
    _rxq (for_each body l self).2 = (_rxq self ++ items)%list
    ∧ (length items ≤ length l)%nat.
Proof.
  intros Hbody. revert self. induction l as [|x l IH]; intros self.
  - exists []. simpl. rewrite app_nil_r. split; [done|lia].
  - rewrite for_each_cons. destruct (Hbody x self) as (items & Hq & Hlen).
    destruct (body x self) as [[[]|e] self1]; simpl in Hq.
    + destruct (IH self1) as (items' & Hq' & Hlen').
      exists (items ++ items')%list. split.
      * by rewrite Hq', Hq, app_assoc.
      * rewrite length_app. simpl. lia.
    + exists items. simpl. split; [done|lia].
Qed.

Lemma twi_read_run c t now bus self iv n :
  _settings self !! "interval" = Some iv → int iv = Ret n →
  twi_read c t now bus self =
    if Qle_bool (inject_Z n) (t - _interval_timestamp self) then
      match _settings self !! "deviceids" with
      | None => (Raise KeyError, self)
      | Some ids =>
          match iter ids with
          | Raise e => (Raise e, self)
          | Ret devices =>
              match for_each (twi_read_device c t now bus) devices
                      (set_interval_timestamp t self) with
              | (Ret _, self') => (Ret None, self')
              | (Raise e, self') => (Raise e, self')
              end
          end
      end
    else (Ret None, self).
Proof.
  intros Hiv Hn. unfold twi_read.
  unfold bind at 1, get at 1.
  unfold bind at 1, setting at 1. rewrite Hiv.
  unfold bind at 1, lift at 1. rewrite Hn.
  destruct (Qle_bool _ _); [|done]. cbn [negb].
  unfold bind at 1, setting at 1.
  destruct (_settings self !! "deviceids") as [ids|]; [|done].
  unfold bind at 1, lift at 1. destruct (iter ids) as [devices|e]; [|done].
  unfold bind at 1, modify at 1. unfold bind, ret.
  by destruct (for_each _ devices _) as [[[]|e] self'].
Qed.



(** ** The bus settings stay valid *)

Lemma run_once_kept_settings c w : kept _settings (run_once c w).
Proof.
  unfold run_once, read, action, serial_read, jee_read, socket_read, twi_read,
    serial_poll, socket_poll, jee_action, send_packet, twi_read_device,
    log, put, write.
  repeat kept_step.
Qed.

Lemma bus_configured_same self self' :
  (∀ key, key ∈ ["deviceids"; "length"] →
     _settings self' !! key = _settings self !! key) →
  bus_configured self → bus_configured self'.
Proof.
  intros Hsame Hbus key v Hkey Hv. apply Hbus; [done|].
  by rewrite <- Hsame.
Qed.

Lemma set_bus_configured kwargs self :
  well_configured self → bus_configured self →
  bus_configured (set kwargs self).2.
Proof.
  intros [Hd _]. apply bus_configured_same. intros key Hkey.
  destruct (set_run kwargs self) as (S & new & Hrun & Hother & _).
  rewrite Hrun. cbn [snd]. rewrite settings_after_set.
  apply Hother. rewrite Hd. revert key Hkey. apply Forall_forall.
  apply (bool_decide_unpack _). by vm_compute.
Qed.

Lemma jee_set_item_bus_configured kwargs kv self :
  kv ∈ _jee_settings →
  bus_configured self → bus_configured (jee_set_item kwargs kv self).2.
Proof.
  intros Hkv. apply bus_configured_same. intros key Hkey.
  assert (kv.1 ≠ key) as Hne.
  { revert key Hkey. apply Forall_forall.
    revert kv Hkv. apply Forall_forall.
    apply (bool_decide_unpack _). by vm_compute. }
  destruct kv as [k d]. simpl in Hne.
  assert (kept (λ s, _settings s !! key) (jee_set_item kwargs (k, d))) as Hkept.
  { unfold jee_set_item, log, write.
    repeat first
      [ apply kept_modify; intros []; simpl; by rewrite lookup_insert_ne
      | kept_step ]. }
  apply Hkept.
Qed.

Lemma twi_set_item_bus_configured kwargs kv self :
  bus_configured self → bus_configured (twi_set_item kwargs kv self).2.
Proof.
  intros Hbus. destruct kv as [k d]. unfold twi_set_item.
  set (v := default d (kwargs !! k)).
  unfold bind at 1, lift at 1.
  destruct (twi_valid k v) as [[]|e] eqn:Hok; [| |done].
  - unfold bind, get, modify, log. simpl. intros key w Hkey.
    replace (_settings _) with (<[k := v]> (_settings self))
      by by destruct self.
    destruct (decide (k = key)) as [->|Hne].
    + rewrite lookup_insert_eq. by intros [= <-].
    + rewrite lookup_insert_ne by done. by apply Hbus.
  - unfold bind, get, log, modify. simpl.
    revert Hbus. apply bus_configured_same. intros key _. by destruct self.
Qed.

Lemma self_set_bus_configured kwargs self :
  well_configured self → bus_configured self →
  bus_configured (self_set kwargs self).2.
Proof.
  intros Hwc Hbus. unfold self_set, bind at 1, get.
  assert (∀ items (body : gmap string pyval → string * pyval → M unit),
            (∀ kv, kv ∈ items → generic_kept (body kwargs kv)) →
            (∀ kv s, kv ∈ items →
               bus_configured s → bus_configured (body kwargs kv s).2) →
            bus_configured
              (bind (for_each (body kwargs) items) (λ _, set kwargs) self).2)
    as Hloop.
  { intros items body Hgen Hbody. unfold bind.
    assert (well_configured (for_each (body kwargs) items self).2
            ∧ bus_configured (for_each (body kwargs) items self).2)
      as [Hwc1 Hbus1].
    { split.
      - by apply well_configured_kept; [apply generic_kept_for_each|].
      - clear Hgen Hwc. revert self Hbus.
        induction items as [|kv items IH]; intros self Hbus; [done|].
        rewrite for_each_cons.
        pose proof (Hbody kv self ltac:(by left) Hbus) as Hstep.
        destruct (body kwargs kv self) as [[[]|e] self1]; [|done].
        apply IH; [|done].
        intros kv' s Hin. apply Hbody. by right. }
    destruct (for_each (body kwargs) items self) as [[[]|e] self1]; [|done].
    by apply set_bus_configured. }
  assert (Forall (λ kv : string * pyval, kv.1 ∉ generic_keys) _jee_settings)
    as Hjee by (apply (bool_decide_unpack _); by vm_compute).
  assert (Forall (λ kv : string * pyval, kv.1 ∉ generic_keys) _twi_settings)
    as Htwi by (apply (bool_decide_unpack _); by vm_compute).
  destruct (cls self); try by apply set_bus_configured.
  - apply (Hloop _jee_settings jee_set_item).
    + intros kv Hkv. apply generic_kept_jee_set_item.
      by apply (proj1 (Forall_forall _ _) Hjee).
    + intros kv s Hkv. by apply jee_set_item_bus_configured.
  - apply (Hloop _twi_settings twi_set_item).
    + intros kv Hkv. apply generic_kept_twi_set_item.
      by apply (proj1 (Forall_forall _ _) Htwi).
    + intros kv s _. apply twi_set_item_bus_configured.
Qed.

Lemma after_bus_configured c calls self :
  well_configured self → bus_configured self →
  bus_configured (after c calls self).
Proof.
  revert self. induction calls as [|e calls IH]; intros self Hwc Hbus; [done|].
  simpl. destruct e as [kwargs|w]; simpl.
  - apply IH; [by apply self_set_well_configured
              |by apply self_set_bus_configured].
  - apply IH.
    + by apply well_configured_kept; [apply generic_kept_run_once|].
    + revert Hbus. apply bus_configured_same. intros key _.
      by rewrite run_once_kept_settings.
Qed.

Lemma all_int_true test items :
  all_int test items = Ret true →
  Forall (λ i, ∃ n, int i = Ret n ∧ test n = true) items.
Proof.
  induction items as [|i items IH]; [by constructor|]. simpl.
  destruct (int i) as [n|e] eqn:Hn; [|done]. simpl.
  destruct (test n) eqn:Htest; [|done].
  intros Hrest. constructor; [by exists n|by apply IH].
Qed.


(** ** Several lines in the socket buffer *)

Lemma str_find_after f rest :
  str_find CRLF f = None →
  str_find CRLF (f +:+ CRLF +:+ rest) = Some (String.length f).
Proof.
  induction f as [|a f IH]; [done|].
  intros Hnone. rewrite append_cons.
  cbn [str_find] in Hnone.
  destruct (starts_with CRLF (String a f)) eqn:Hstart; [done|].
  destruct (str_find CRLF f) eqn:Hf; [done|].
  cbn [str_find].
  assert (starts_with CRLF (String a (f +:+ CRLF +:+ rest)) = false) as ->.
  { unfold CRLF in *. cbn [starts_with] in *.
    destruct (bool_decide ("013"%char = a)); [|done]. cbn [andb] in *.
    destruct f as [|b f]; [done|].
    rewrite append_cons. cbn [starts_with] in *.
    by destruct (bool_decide ("010"%char = b)). }
  by rewrite IH.
Qed.

(** A line that does not hold the delimiter, then the delimiter: the
    line ends at the first delimiter. *)
Lemma first_delimiter_line f rest :
  no_delimiter f → first_delimiter (f +:+ CRLF +:+ rest) f rest.
Proof.
  intros Hno. apply split1_Some. apply split1_None in Hno.
  unfold split1 in *. destruct (str_find CRLF f) eqn:Hf; [done|].
  rewrite str_find_after by done. cbn [mbind option_bind].
  f_equal. f_equal.
  - apply str_take_drop.
  - rewrite <- length_append, <- append_assoc. apply str_take_drop.
Qed.



(** ** The loop of the thread *)

Lemma run_once_kept_cls c w : kept cls (run_once c w).
Proof.
  unfold run_once, read, action, serial_read, jee_read, socket_read, twi_read,
    serial_poll, socket_poll, jee_action, send_packet, twi_read_device,
    log, put, write.
  repeat kept_step.
Qed.



(** ** The same keyword arguments, twice *)

Lemma set_items_again kwargs items self :
  (∀ k d, (k, d) ∈ items →
     ∃ old, _settings self !! k
            = key_value k old (default d (kwargs !! k))) →
  ∃ new,
    for_each (set_item kwargs) items self
      = (Ret tt, set_log (_log self ++ new)%list self)
    ∧ Forall (λ e, e.1 = WARNING) new.
Proof.
  revert self. induction items as [|[key dflt] items IH]; intros self Hitems.
  - exists []. simpl. unfold ret. split; [|done].
    destruct self; simpl. by rewrite app_nil_r.
  - rewrite for_each_cons, set_item_run.
    destruct (Hitems key dflt) as [old Hold]; [by left|].
    set (v := default dflt (kwargs !! key)) in *.
    assert (key_settings key v (_settings self) = _settings self
            ∧ Forall (λ e, e.1 = WARNING)
                (key_entries (name self) key (_settings self !! key) v))
      as [Hsame Hwarn].
    { unfold key_settings, key_entries. rewrite Hold. unfold key_value.
      destruct (decide (old = Some v)) as [Hfirst|Hfirst].
      - rewrite (bool_decide_eq_true_2 (old = Some v)) by done.
        by rewrite bool_decide_eq_true_2 by done.
      - rewrite (bool_decide_eq_false_2 (old = Some v)) by done.
        destruct (valid_setting key v) eqn:Hok.
        + by rewrite bool_decide_eq_true_2 by done.
        + rewrite bool_decide_eq_false_2 by done. split; [done|].
          by repeat constructor. }
    rewrite Hsame.
    replace (set_settings (_settings self) self) with self by by destruct self.
    set (self1 := set_log _ self).
    destruct (IH self1) as (new & Hrun & Hnew).
    { intros k d Hin. replace (_settings self1) with (_settings self)
        by by destruct self.
      apply Hitems. by right. }
    exists (key_entries (name self) key (_settings self !! key) v ++ new)%list.
    split; [|by apply Forall_app].
    rewrite Hrun. subst self1. destruct self; simpl. by rewrite app_assoc.
Qed.



(** ** The settings file is read again, but not too often *)

Section check_settings.
Context {Settings : Type} `{EqDecision Settings}.
Implicit Types (self : Interface.t Settings)
  (reload : Settings → Settings * option Interface.failure).

Lemma check_settings_soon now reload self :
  (now - Interface._settings_update_timestamp self < 1)%Q →
  Interface.check_settings now reload self = (false, self).
Proof.
  intros Hsoon. unfold Interface.check_settings.
  by rewrite Qle_bool_false.
Qed.



End check_settings.


